(** * SingleLinkedList<Type>: a heap model of single-linked-list.h

    The container of [single-linked-list.h] is embedded over an explicit
    memory: heap nodes created by [new Node(...)], list objects holding the
    sentinel [head_] and the counter [size_], and raw [Node*] pointers that
    may reference a heap node, the sentinel of a list object, or nothing.
    Every member function is a computation over that memory which either
    returns a value and a new memory or stops with an error.

    Modelling choices:
    - [size_t] arithmetic wraps modulo 2^64, and the heap holds at most
      [SIZE_MAX] nodes: [new] throws [std::bad_alloc] when it is full.  An
      exception ends the computation: the unwinding that follows it is not
      modelled.
    - Dereferencing a null or dangling pointer, deleting anything but a
      live heap node, or reading the value of a sentinel is undefined
      behaviour, reported as an error.
    - Loops that follow [next_node] links take fuel computed from the size
      of the memory, enough for every chain that has no cycle.
    - [std::equal] and [std::lexicographical_compare] are written out as
      the standard defines them on forward iterators.
    - The members of an object whose constructor has not initialised them
      hold an arbitrary value, passed as [junk]. *)

From stdpp Require Import base option list gmap.
From Stdlib Require Import ZArith Lia.

(** ** Machine data *)

(** [size_t] is a 64-bit unsigned integer: arithmetic wraps around. *)
Definition SIZE_MAX : Z := 18446744073709551615.
Definition wrap (z : Z) : Z := (z mod (SIZE_MAX + 1))%Z.

(** A [Node*]: null, the address of the sentinel [head_] embedded in the
    list object [l], or the address of a node obtained from [new]. *)
Inductive NodePtr :=
  | nullptr
  | head_of (l : positive)
  | on_heap (a : positive).

#[global] Instance NodePtr_eq_dec : EqDecision NodePtr.
Proof. solve_decision. Defined.

(** [BasicIterator<ValueType>]: its only data member is [node_], which the
    default member initialiser sets to [nullptr].  [Iterator] and
    [ConstIterator] differ only in the constness of the reference they
    yield, so one record serves both. *)
Record BasicIterator := Iterator { node_ : NodePtr }.

#[global] Instance BasicIterator_eq_dec : EqDecision BasicIterator.
Proof. solve_decision. Defined.

(** [BasicIterator() = default] *)
Definition Iterator_default : BasicIterator := Iterator nullptr.

(** [operator==] and [operator!=] of iterators compare [node_]. *)
Definition iter_eq (a b : BasicIterator) : bool := bool_decide (node_ a = node_ b).
Definition iter_ne (a b : BasicIterator) : bool := negb (bool_decide (node_ a = node_ b)).

Inductive error :=
  | bad_alloc            (* [new] found no room *)
  | undefined_behaviour  (* null or dangling dereference, invalid delete *)
  | nontermination.      (* a loop walks a cyclic chain for ever *)

Inductive result (A : Type) :=
  | Ok (a : A)
  | Err (e : error).
Arguments Ok {A} a.
Arguments Err {A} e.

Section Container.
Context {Type_ : Type}.

(** [struct Node { Type value; Node *next_node = nullptr; }].  The value of
    a default-constructed node (the sentinel) is never given a meaning:
    it is [None]. *)
Record Node := mkNode { value : option Type_; next_node : NodePtr }.

(** The data members of [SingleLinkedList]: [Node head_; size_t size_;]. *)
Record SingleLinkedList := mkList { head_ : Node; size_ : Z }.

Record Memory := mkMem {
  heap : gmap positive Node;
  objects : gmap positive SingleLinkedList
}.

Definition empty_memory : Memory := mkMem ∅ ∅.

(** ** Computations over the memory *)

Definition M (A : Type) : Type := Memory → result (A * Memory).

Definition ret {A} (a : A) : M A := fun m => Ok (a, m).
Definition bind {A B} (c : M A) (k : A → M B) : M B :=
  fun m => match c m with
           | Ok (a, m') => k a m'
           | Err e => Err e
           end.
Definition fail {A} (e : error) : M A := fun _ => Err e.

Notation "'do' x <- c ; k" := (bind c (fun x => k))
  (at level 10, x name, c at level 100, k at level 200).
Notation "c ;; k" := (bind c (fun _ => k))
  (at level 100, k at level 200, right associativity).

(** [p->next_node] as an rvalue. *)
Definition get_next (p : NodePtr) : M NodePtr := fun m =>
  match p with
  | nullptr => Err undefined_behaviour
  | head_of l =>
      match objects m !! l with
      | Some L => Ok (next_node (head_ L), m)
      | None => Err undefined_behaviour
      end
  | on_heap a =>
      match heap m !! a with
      | Some n => Ok (next_node n, m)
      | None => Err undefined_behaviour
      end
  end.

(** [p->next_node = q]. *)
Definition set_next (p q : NodePtr) : M unit := fun m =>
  match p with
  | nullptr => Err undefined_behaviour
  | head_of l =>
      match objects m !! l with
      | Some L =>
          Ok (tt, mkMem (heap m)
                    (<[l := mkList (mkNode (value (head_ L)) q) (size_ L)]> (objects m)))
      | None => Err undefined_behaviour
      end
  | on_heap a =>
      match heap m !! a with
      | Some n => Ok (tt, mkMem (<[a := mkNode (value n) q]> (heap m)) (objects m))
      | None => Err undefined_behaviour
      end
  end.

(** [p->value] as an rvalue. *)
Definition get_value (p : NodePtr) : M Type_ := fun m =>
  match p with
  | nullptr => Err undefined_behaviour
  | head_of l =>
      match objects m !! l with
      | Some L => match value (head_ L) with
                  | Some v => Ok (v, m)
                  | None => Err undefined_behaviour
                  end
      | None => Err undefined_behaviour
      end
  | on_heap a =>
      match heap m !! a with
      | Some n => match value n with
                  | Some v => Ok (v, m)
                  | None => Err undefined_behaviour
                  end
      | None => Err undefined_behaviour
      end
  end.

(** [l.size_] as an rvalue, and [l.size_ = z]. *)
Definition get_size (l : positive) : M Z := fun m =>
  match objects m !! l with
  | Some L => Ok (size_ L, m)
  | None => Err undefined_behaviour
  end.

Definition set_size (l : positive) (z : Z) : M unit := fun m =>
  match objects m !! l with
  | Some L => Ok (tt, mkMem (heap m) (<[l := mkList (head_ L) z]> (objects m)))
  | None => Err undefined_behaviour
  end.

(** [new Node(val, next)].  Every live node has its own non-null 64-bit
    address, so the heap never holds more than [SIZE_MAX] nodes: when it is
    full, [new] throws [std::bad_alloc]. *)
Definition new_Node (val : Type_) (next : NodePtr) : M NodePtr := fun m =>
  if decide (Z.of_nat (size (heap m)) < SIZE_MAX)%Z then
    let a := fresh (dom (heap m)) in
    Ok (on_heap a, mkMem (<[a := mkNode (Some val) next]> (heap m)) (objects m))
  else Err bad_alloc.

(** [delete p].  Deleting a null pointer does nothing; deleting anything
    but a live heap node is undefined. *)
Definition delete_Node (p : NodePtr) : M unit := fun m =>
  match p with
  | nullptr => Ok (tt, m)
  | head_of _ => Err undefined_behaviour
  | on_heap a =>
      match heap m !! a with
      | Some _ => Ok (tt, mkMem (delete a (heap m)) (objects m))
      | None => Err undefined_behaviour
      end
  end.

(** ** Iterators *)

(** [operator++()]: [node_] becomes the [next_node] of the node it references. *)
Definition pre_incr (it : BasicIterator) : M BasicIterator :=
  do p <- get_next (node_ it); ret (Iterator p).

(** [operator++(int)]: yields the former value and the advanced iterator. *)
Definition post_incr (it : BasicIterator) : M (BasicIterator * BasicIterator) :=
  let tmp := Iterator (node_ it) in
  do p <- get_next (node_ it); ret (tmp, Iterator p).

(** [operator*()]: [node_->value]. *)
Definition deref (it : BasicIterator) : M Type_ := get_value (node_ it).

(** [begin()], [cbegin()]: [Iterator(head_.next_node)]. *)
Definition begin (this : positive) : M BasicIterator :=
  do p <- get_next (head_of this); ret (Iterator p).
Definition cbegin (this : positive) : M BasicIterator :=
  do p <- get_next (head_of this); ret (Iterator p).

(** [end()], [cend()]: [Iterator()]. *)
Definition end_ (this : positive) : BasicIterator := Iterator_default.
Definition cend (this : positive) : BasicIterator := Iterator_default.

(** [before_begin()], [cbefore_begin()]: [Iterator(&head_)]. *)
Definition before_begin (this : positive) : BasicIterator := Iterator (head_of this).
Definition cbefore_begin (this : positive) : BasicIterator := Iterator (head_of this).

(** ** Member functions *)

(** [PushFront]: [head_.next_node = new Node(value, head_.next_node); ++size_;] *)
Definition PushFront (this : positive) (val : Type_) : M unit :=
  do old <- get_next (head_of this);
  do n <- new_Node val old;
  set_next (head_of this) n;;
  do s <- get_size this;
  set_size this (wrap (s + 1)).

(** The loop of [Clear].  Each turn deletes one live heap node, so the
    number of turns is bounded by the number of heap nodes: with more fuel
    than that the loop never runs out of it ([Clear_loop_halts]). *)
Fixpoint Clear_loop (fuel : nat) (this : positive) : M unit :=
  do p <- get_next (head_of this);
  if decide (p = nullptr) then ret tt
  else match fuel with
       | O => fail nontermination
       | S fuel' =>
           do new_head <- get_next p;
           delete_Node p;;
           set_next (head_of this) new_head;;
           Clear_loop fuel' this
       end.

Definition Clear (this : positive) : M unit := fun m =>
  (Clear_loop (S (size (heap m))) this;; set_size this 0) m.

Definition GetSize (this : positive) : M Z := get_size this.

(** [IsEmpty]: [size_ ? false : true]. *)
Definition IsEmpty (this : positive) : M bool :=
  do s <- get_size this;
  ret (if decide (s = 0%Z) then true else false).

Definition PopFront (this : positive) : M unit :=
  do p <- get_next (head_of this);
  if decide (p ≠ nullptr) then
    let curr := p in
    do nxt <- get_next curr;
    set_next (head_of this) nxt;;
    delete_Node curr;;
    do s <- get_size this;
    set_size this (wrap (s - 1))
  else ret tt.

Definition EraseAfter (this : positive) (pos : BasicIterator) : M BasicIterator :=
  do curr <- get_next (node_ pos);
  do nxt <- get_next curr;
  set_next (node_ pos) nxt;;
  delete_Node curr;;
  do s <- get_size this;
  set_size this (wrap (s - 1));;
  do r <- get_next (node_ pos);
  ret (Iterator r).

Definition InsertAfter (this : positive) (pos : BasicIterator) (val : Type_)
  : M BasicIterator :=
  do old <- get_next (node_ pos);
  do new_node <- new_Node val old;
  set_next (node_ pos) new_node;;
  do s <- get_size this;
  set_size this (wrap (s + 1));;
  do r <- get_next (node_ pos);
  ret (Iterator r).

(** [swap]: the two [head_.next_node] fields, then the two [size_] fields. *)
Definition swap (this other : positive) : M unit :=
  do tmp <- get_next (head_of other);
  do mine <- get_next (head_of this);
  set_next (head_of other) mine;;
  set_next (head_of this) tmp;;
  do tmp_size <- get_size other;
  do my_size <- get_size this;
  set_size other my_size;;
  set_size this tmp_size.

(** ** Copying *)

(** What [MakeCopy] asks of its [Collection] template argument: [begin()]
    and [end()], and [!=], [*] and [++] on the iterators they return.
    [coll_steps] bounds the walk: an iterator that has not met [end()]
    after that many increments never will. *)
Class Collection (C : Type) := {
  coll_iter : Type;
  coll_begin : C → M coll_iter;
  coll_end : C → M coll_iter;
  coll_ne : coll_iter → coll_iter → bool;
  coll_deref : coll_iter → M Type_;
  coll_incr : coll_iter → M coll_iter;
  coll_steps : C → Memory → nat
}.

(** A walk along [next_node] links that visits no node twice visits at
    most every heap node and every sentinel. *)
Definition walk_bound (m : Memory) : nat := size (heap m) + size (objects m).

(** A [const SingleLinkedList&] as a collection. *)
#[global] Instance List_Collection : Collection positive := {|
  coll_iter := BasicIterator;
  coll_begin := cbegin;
  coll_end := fun l => ret (cend l);
  coll_ne := iter_ne;
  coll_deref := deref;
  coll_incr := pre_incr;
  coll_steps := fun _ m => walk_bound m
|}.

(** A [std::initializer_list<Type>]: its iterators are [const Type*] into
    the backing array. *)
Record ArrayPtr := mkArrayPtr { base : list Type_; offset : nat }.

#[global] Instance initializer_list_Collection : Collection (list Type_) := {|
  coll_iter := ArrayPtr;
  coll_begin := fun values => ret (mkArrayPtr values 0);
  coll_end := fun values => ret (mkArrayPtr values (length values));
  coll_ne := fun p q => negb (Nat.eqb (offset p) (offset q));
  coll_deref := fun p => match base p !! offset p with
                         | Some v => ret v
                         | None => fail undefined_behaviour
                         end;
  coll_incr := fun p => ret (mkArrayPtr (base p) (S (offset p)));
  coll_steps := fun values _ => length values
|}.

(** The [while] loop of [MakeCopy]; it yields the final [size]. *)
Fixpoint MakeCopy_loop {C} `{Collection C} (fuel : nat)
    (curr_iter collection_end : coll_iter) (new_node : NodePtr) (size : Z) : M Z :=
  if coll_ne curr_iter collection_end then
    match fuel with
    | O => fail nontermination
    | S fuel' =>
        do v <- coll_deref curr_iter;
        do n <- new_Node v nullptr;
        set_next new_node n;;
        let size := wrap (size + 1) in
        do new_node <- get_next new_node;
        do curr_iter <- coll_incr curr_iter;
        MakeCopy_loop fuel' curr_iter collection_end new_node size
    end
  else ret size.

Definition MakeCopy {C} `{Collection C} (res_list : positive) (collection : C) : M unit :=
  do curr_iter <- coll_begin collection;
  do collection_end <- coll_end collection;
  let size := 0%Z in
  if coll_ne curr_iter collection_end then
    do v <- coll_deref curr_iter;
    do n <- new_Node v nullptr;
    set_next (head_of res_list) n;;
    let size := wrap (size + 1) in
    do curr_iter <- coll_incr curr_iter;
    do new_node <- get_next (head_of res_list);
    do size <- (fun m => MakeCopy_loop (coll_steps collection m)
                           curr_iter collection_end new_node size m);
    set_size res_list size
  else ret tt.

(** ** Construction, assignment, destruction *)

(** Storage for a list object whose constructor has an empty member
    initialiser list: [head_] is default-initialised ([next_node] null, by
    its default member initialiser), [size_] is left holding whatever the
    storage held, [junk]. *)
Definition storage (junk : Z) : M positive := fun m =>
  let this := fresh (dom (objects m)) in
  Ok (this, mkMem (heap m) (<[this := mkList (mkNode None nullptr) junk]> (objects m))).

(** The storage of a list object goes away. *)
Definition release (this : positive) : M unit := fun m =>
  match objects m !! this with
  | Some _ => Ok (tt, mkMem (heap m) (delete this (objects m)))
  | None => Err undefined_behaviour
  end.

(** [SingleLinkedList()]: the local [Node head_;] is never used; [size_ = 0u]. *)
Definition SingleLinkedList_default (junk : Z) : M positive :=
  do this <- storage junk;
  set_size this 0;;
  ret this.

(** [~SingleLinkedList()]: [Clear()], then the object is gone. *)
Definition destroy (this : positive) : M unit :=
  Clear this;;
  release this.

(** [operator=].  [current_list] is a local: it is destroyed on the way out. *)
Definition assign (junk : Z) (this rhs : positive) : M unit :=
  if decide (this ≠ rhs) then
    do current_list <- SingleLinkedList_default junk;
    MakeCopy current_list rhs;;
    swap this current_list;;
    destroy current_list
  else ret tt.

(** [SingleLinkedList(std::initializer_list<Type> values)] *)
Definition SingleLinkedList_init (junk : Z) (values : list Type_) : M positive :=
  do this <- storage junk;
  do current_list <- SingleLinkedList_default junk;
  MakeCopy current_list values;;
  swap this current_list;;
  destroy current_list;;
  ret this.

(** [SingleLinkedList(const SingleLinkedList& other)] *)
Definition SingleLinkedList_copy (junk : Z) (other : positive) : M positive :=
  do this <- storage junk;
  do current_list <- SingleLinkedList_default junk;
  assign junk current_list other;;
  swap this current_list;;
  destroy current_list;;
  ret this.

(** The free function [swap(lhs, rhs)]: [lhs.swap(rhs)]. *)
Definition free_swap (lhs rhs : positive) : M unit := swap lhs rhs.

(** ** Comparison operators *)

Section Comparison.
(** [operator==] and [operator<] of the element type. *)
Context (Type_eq Type_lt : Type_ → Type_ → bool).

(** [std::equal(first1, last1, first2, last2)] on forward iterators. *)
Fixpoint std_equal (fuel : nat) (first1 last1 first2 last2 : BasicIterator) : M bool :=
  if iter_ne first1 last1 && iter_ne first2 last2 then
    match fuel with
    | O => fail nontermination
    | S fuel' =>
        do a <- deref first1;
        do b <- deref first2;
        if negb (Type_eq a b) then ret false
        else
          do first1 <- pre_incr first1;
          do first2 <- pre_incr first2;
          std_equal fuel' first1 last1 first2 last2
    end
  else ret (iter_eq first1 last1 && iter_eq first2 last2).

(** [std::lexicographical_compare(first1, last1, first2, last2)]. *)
Fixpoint std_lexicographical_compare (fuel : nat)
    (first1 last1 first2 last2 : BasicIterator) : M bool :=
  if iter_ne first1 last1 && iter_ne first2 last2 then
    match fuel with
    | O => fail nontermination
    | S fuel' =>
        do a <- deref first1;
        do b <- deref first2;
        if Type_lt a b then ret true
        else if Type_lt b a then ret false
        else
          do first1 <- pre_incr first1;
          do first2 <- pre_incr first2;
          std_lexicographical_compare fuel' first1 last1 first2 last2
    end
  else ret (iter_eq first1 last1 && iter_ne first2 last2).

Definition operator_eq (lhs rhs : positive) : M bool :=
  do b1 <- cbegin lhs;
  do b2 <- cbegin rhs;
  fun m => std_equal (walk_bound m) b1 (cend lhs) b2 (cend rhs) m.

Definition operator_ne (lhs rhs : positive) : M bool :=
  do b1 <- cbegin lhs;
  do b2 <- cbegin rhs;
  do r <- (fun m => std_equal (walk_bound m) b1 (cend lhs) b2 (cend rhs) m);
  ret (negb r).

Definition operator_lt (lhs rhs : positive) : M bool :=
  do b1 <- cbegin lhs;
  do b2 <- cbegin rhs;
  fun m => std_lexicographical_compare (walk_bound m) b1 (cend lhs) b2 (cend rhs) m.

(** [lhs < rhs || lhs == rhs]: the right operand is evaluated only when
    the left one is false. *)
Definition operator_le (lhs rhs : positive) : M bool :=
  do lt <- operator_lt lhs rhs;
  if lt then ret true else operator_eq lhs rhs.

Definition operator_gt (lhs rhs : positive) : M bool :=
  do le <- operator_le lhs rhs;
  ret (negb le).

Definition operator_ge (lhs rhs : positive) : M bool :=
  do lt <- operator_lt lhs rhs;
  ret (negb lt).

End Comparison.

(** ** Full forward traversal *)

(** [for (auto it = l.begin(); it != l.end(); ++it) out.push_back( *it );] *)
Fixpoint traverse_from (fuel : nat) (it last : BasicIterator) : M (list Type_) :=
  if iter_ne it last then
    match fuel with
    | O => fail nontermination
    | S fuel' =>
        do v <- deref it;
        do it <- pre_incr it;
        do rest <- traverse_from fuel' it last;
        ret (v :: rest)
    end
  else ret [].

Definition traversal (this : positive) : M (list Type_) :=
  do first <- begin this;
  fun m => traverse_from (walk_bound m) first (end_ this) m.

(** ** What a client may do *)

(** [*it = val] through a mutable iterator: [node_->value = val]. *)
Definition set_value (p : NodePtr) (val : Type_) : M unit := fun m =>
  match p with
  | nullptr => Err undefined_behaviour
  | head_of l =>
      match objects m !! l with
      | Some L =>
          Ok (tt, mkMem (heap m)
                    (<[l := mkList (mkNode (Some val) (next_node (head_ L))) (size_ L)]>
                       (objects m)))
      | None => Err undefined_behaviour
      end
  | on_heap a =>
      match heap m !! a with
      | Some n => Ok (tt, mkMem (<[a := mkNode (Some val) (next_node n)]> (heap m)) (objects m))
      | None => Err undefined_behaviour
      end
  end.

(** The node pointers met when following [next_node] from [p] to null. *)
Fixpoint nodes_from (fuel : nat) (p : NodePtr) : M (list NodePtr) :=
  if decide (p = nullptr) then ret []
  else match fuel with
       | O => fail nontermination
       | S fuel' =>
           do q <- get_next p;
           do rest <- nodes_from fuel' q;
           ret (p :: rest)
       end.

(** The real nodes of a list: those reached from the sentinel's link. *)
Definition nodes_reached (this : positive) : M (list NodePtr) :=
  do p <- get_next (head_of this);
  fun m => nodes_from (walk_bound m) p m.

(** The calls of the public interface. *)
Inductive call :=
  | CDefault (junk : Z)
  | CInit (junk : Z) (values : list Type_)
  | CCopy (junk : Z) (other : positive)
  | CAssign (junk : Z) (this rhs : positive)
  | CDestroy (this : positive)
  | CPushFront (this : positive) (val : Type_)
  | CPopFront (this : positive)
  | CClear (this : positive)
  | CInsertAfter (this : positive) (pos : BasicIterator) (val : Type_)
  | CEraseAfter (this : positive) (pos : BasicIterator)
  | CSwap (this other : positive)
  | CFreeSwap (lhs rhs : positive)
  | CStore (this : positive) (pos : BasicIterator) (val : Type_).

Definition run (c : call) : M unit :=
  match c with
  | CDefault junk => SingleLinkedList_default junk;; ret tt
  | CInit junk values => SingleLinkedList_init junk values;; ret tt
  | CCopy junk other => SingleLinkedList_copy junk other;; ret tt
  | CAssign junk this rhs => assign junk this rhs
  | CDestroy this => destroy this
  | CPushFront this val => PushFront this val
  | CPopFront this => PopFront this
  | CClear this => Clear this
  | CInsertAfter this pos val => InsertAfter this pos val;; ret tt
  | CEraseAfter this pos => EraseAfter this pos;; ret tt
  | CSwap this other => swap this other
  | CFreeSwap lhs rhs => free_swap lhs rhs
  | CStore this pos val => set_value (node_ pos) val
  end.

(** [pos] references a real node of the list [this]. *)
Definition at_node (m : Memory) (this : positive) (pos : BasicIterator) : Prop :=
  ∃ ns, nodes_reached this m = Ok (ns, m) ∧ node_ pos ∈ ns.

(** The list objects a call names. *)
Definition operands (c : call) : list positive :=
  match c with
  | CDefault _ | CInit _ _ => []
  | CCopy _ other => [other]
  | CAssign _ this rhs => [this; rhs]
  | CDestroy this | CPushFront this _ | CPopFront this | CClear this
  | CInsertAfter this _ _ | CEraseAfter this _ | CStore this _ _ => [this]
  | CSwap a b | CFreeSwap a b => [a; b]
  end.

(** The list objects a call may modify. *)
Definition targets (c : call) : list positive :=
  match c with
  | CDefault _ | CInit _ _ | CCopy _ _ => []
  | CAssign _ this _ | CDestroy this | CPushFront this _ | CPopFront this
  | CClear this | CInsertAfter this _ _ | CEraseAfter this _
  | CStore this _ _ => [this]
  | CSwap a b | CFreeSwap a b => [a; b]
  end.

(** The contract of the interface: a call names live list objects only,
    and the [pos] of a positional operation references the sentinel or a
    real node of this very list (a real node, for a store through an
    iterator). *)
Definition allowed (m : Memory) (c : call) : Prop :=
  (∀ l, l ∈ operands c → is_Some (objects m !! l)) ∧
  match c with
  | CInsertAfter this pos _ | CEraseAfter this pos =>
      pos = before_begin this ∨ at_node m this pos
  | CStore this pos _ => at_node m this pos
  | _ => True
  end.

(** The memories a program reaches from the empty one by public calls that
    respect the preconditions and return. *)
Inductive reachable : Memory → Prop :=
  | reach_empty : reachable empty_memory
  | reach_step m c m' :
      reachable m → allowed m c → run c m = Ok (tt, m') → reachable m'.

(** The stored counter of [this] is the number of real nodes reached from
    the sentinel's link, and the number of elements of a full traversal. *)
Definition size_agrees (m : Memory) (this : positive) : Prop :=
  ∃ ns vs, nodes_reached this m = Ok (ns, m) ∧
           traversal this m = Ok (vs, m) ∧
           GetSize this m = Ok (Z.of_nat (length ns), m) ∧
           length vs = length ns.

(** [PushFront(v1); ...; PushFront(vn);] *)
Fixpoint PushFront_all (this : positive) (vs : list Type_) : M unit :=
  match vs with
  | [] => ret tt
  | v :: vs' => PushFront this v;; PushFront_all this vs'
  end.

(** Memories reached from [m] by calls that do not modify the list [l]. *)
Inductive reaches_sparing (l : positive) : Memory → Memory → Prop :=
  | sparing_refl m : reaches_sparing l m m
  | sparing_step m m1 c m2 :
      reaches_sparing l m m1 → allowed m1 c → l ∉ targets c →
      run c m1 = Ok (tt, m2) → reaches_sparing l m m2.

(** ** Abstraction *)

(** [is_seg h p cells q]: starting at [p], the links lead through the heap
    nodes [cells] (address and value of each, in order) and then to [q]. *)
Fixpoint is_seg (h : gmap positive Node) (p : NodePtr)
    (cells : list (positive * Type_)) (q : NodePtr) : Prop :=
  match cells with
  | [] => p = q
  | (a, v) :: cells' =>
      p = on_heap a ∧ ∃ nxt, h !! a = Some (mkNode (Some v) nxt) ∧ is_seg h nxt cells' q
  end.

Definition is_chain (h : gmap positive Node) (p : NodePtr)
    (cells : list (positive * Type_)) : Prop := is_seg h p cells nullptr.

(** The list object [l] owns the chain [cells] and its counter holds [n]. *)
Definition repr (m : Memory) (l : positive) (cells : list (positive * Type_)) (n : Z) : Prop :=
  ∃ L, objects m !! l = Some L ∧
       is_chain (heap m) (next_node (head_ L)) cells ∧ size_ L = n.

Definition heap_bounded (m : Memory) : Prop := (Z.of_nat (size (heap m)) ≤ SIZE_MAX)%Z.

(** An abstract state: for each list object its cells and its counter. *)
Definition models (σ : gmap positive (list (positive * Type_) * Z)) (m : Memory) : Prop :=
  (∀ l, is_Some (objects m !! l) → is_Some (σ !! l)) ∧
  (∀ l cs n, σ !! l = Some (cs, n) → repr m l cs n) ∧
  (∀ l1 l2 cs1 n1 cs2 n2, l1 ≠ l2 → σ !! l1 = Some (cs1, n1) → σ !! l2 = Some (cs2, n2) →
     ∀ a, a ∈ cs1.*1 → a ∉ cs2.*1).

(** Every counter holds the number of cells of its list. *)
Definition counted (σ : gmap positive (list (positive * Type_) * Z)) : Prop :=
  ∀ l cs n, σ !! l = Some (cs, n) → n = Z.of_nat (length cs).

(** The invariant of reachable memories. *)
Definition wf (m : Memory) : Prop :=
  heap_bounded m ∧ ∃ σ, models σ m ∧ counted σ.

(** The cells a list owns in an abstract state (none when it is absent). *)
Definition cells_of (σ : gmap positive (list (positive * Type_) * Z)) (l : positive)
  : list (positive * Type_) :=
  match σ !! l with Some (cs, _) => cs | None => [] end.

(** Where a positional operation is anchored: [pre] is the part of the
    list up to and including the node [pos] references (nothing when [pos]
    references the sentinel). *)
Definition anchored (this : positive) (pos : BasicIterator)
    (cs_pre : list (positive * Type_)) : Prop :=
  (cs_pre = [] ∧ node_ pos = head_of this) ∨
  (∃ cs1 b w, cs_pre = cs1 ++ [(b, w)] ∧ node_ pos = on_heap b).

(** The pointer that leads to a chain. *)
Definition chain_head (cs : list (positive * Type_)) : NodePtr :=
  match cs with [] => nullptr | (a, _) :: _ => on_heap a end.

(** The counter after [k] increments from [z]. *)
Fixpoint count_from (z : Z) (k : nat) : Z :=
  match k with
  | O => z
  | S k' => count_from (wrap (z + 1)) k'
  end.

(** A computation returns a result satisfying [post], having allocated at
    most [k] nodes and kept the heap within bounds, or throws
    [std::bad_alloc] because the heap has no room for [k] more nodes.
    Nothing else may happen. *)
Definition wp (k : nat) {A} (c : M A) (m : Memory) (post : A → Memory → Prop) : Prop :=
  match c m with
  | Ok (a, m') =>
      size (heap m') ≤ size (heap m) + k ∧ (heap_bounded m → heap_bounded m') ∧ post a m'
  | Err bad_alloc => (SIZE_MAX < Z.of_nat (size (heap m) + k))%Z
  | Err _ => False
  end.

(** ** The orders of the specification *)

Section Orders.
Context (Type_eq Type_lt : Type_ → Type_ → bool).

(** Same length and pairwise-equal elements. *)
Definition same_elements (xs ys : list Type_) : Prop :=
  length xs = length ys ∧ Forall2 (fun a b => Type_eq a b = true) xs ys.

(** Standard lexicographic order: at the first position where one element
    is below the other, the left one is the smaller; failing that, the left
    sequence is a proper prefix of the right one. *)
Inductive lex_less : list Type_ → list Type_ → Prop :=
  | lex_prefix b ys : lex_less [] (b :: ys)
  | lex_head a b xs ys : Type_lt a b = true → lex_less (a :: xs) (b :: ys)
  | lex_tail a b xs ys :
      Type_lt a b = false → Type_lt b a = false → lex_less xs ys →
      lex_less (a :: xs) (b :: ys).

(** The same two relations as boolean functions. *)
Fixpoint elements_equal (xs ys : list Type_) : bool :=
  match xs, ys with
  | [], [] => true
  | x :: xs', y :: ys' => Type_eq x y && elements_equal xs' ys'
  | _, _ => false
  end.

Fixpoint lex_compare (xs ys : list Type_) : bool :=
  match xs, ys with
  | _, [] => false
  | [], _ :: _ => true
  | x :: xs', y :: ys' =>
      if Type_lt x y then true
      else if Type_lt y x then false
      else lex_compare xs' ys'
  end.

End Orders.

(** [walks m p vs]: dereferencing and advancing from [p] reads the values
    [vs] and then meets null. *)
Fixpoint walks (m : Memory) (p : NodePtr) (vs : list Type_) : Prop :=
  match vs with
  | [] => p = nullptr
  | v :: vs' =>
      p ≠ nullptr ∧ get_value p m = Ok (v, m) ∧
      ∃ q, get_next p m = Ok (q, m) ∧ walks m q vs'
  end.

(** ** More client programs *)

(** [n] times [++it] (what [std::next(it, n)] does on a forward iterator). *)
Fixpoint advance (n : nat) (it : BasicIterator) : M BasicIterator :=
  match n with
  | O => ret it
  | S n' => do it' <- pre_incr it; advance n' it'
  end.

(** Every live heap node is a cell of some list of the abstract state. *)
Definition tidy (σ : gmap positive (list (positive * Type_) * Z)) (m : Memory) : Prop :=
  ∀ a, is_Some (heap m !! a) → ∃ l cs n, σ !! l = Some (cs, n) ∧ a ∈ cs.*1.

(** A computation that, when it returns, returns the memory it was given. *)
Definition read_only {A} (c : M A) : Prop :=
  ∀ m x m', c m = Ok (x, m') → m' = m.

(** A computation that neither throws nor runs for ever: when it does not
    return, an invalid pointer was used. *)
Definition fails_only_undefined {A} (c : M A) : Prop :=
  ∀ m e, c m = Err e → e = undefined_behaviour.


End Container.

Notation "'do' x <- c ; k" := (bind c (fun x => k))
  (at level 10, x name, c at level 100, k at level 200).
Notation "c ;; k" := (bind c (fun _ => k))
  (at level 100, k at level 200, right associativity).

(** * Concrete lists *)

(** The memory after a sequence of calls (a call that fails is skipped). *)
Definition after (calls : list (@call Z)) : @Memory Z :=
  fold_left (fun m c => match run c m with Ok (_, m') => m' | Err _ => m end)
            calls empty_memory.

(** List 1 holds [1,2,3], list 2 is empty, list 3 holds [4,5]. *)
Definition three_lists : @Memory Z :=
  after [CInit 0 [1; 2; 3]%Z; CDefault 0; CInit 7 [4; 5]%Z].

(** The same memory after one more call. *)
Definition three_lists_then (c : @call Z) : @Memory Z :=
  after [CInit 0 [1; 2; 3]%Z; CDefault 0; CInit 7 [4; 5]%Z; c].

(** An element type whose [==] is not reflexive, as [double] is: [NaN]
    compares unequal to everything, itself included. *)
Inductive number := NaN | finite (z : Z).

Definition number_eq (a b : number) : bool :=
  match a, b with
  | finite x, finite y => Z.eqb x y
  | _, _ => false
  end.

(** The memory after [SingleLinkedList<double> nan_list{NaN};]: the list is
    the object 1. *)
Definition NaN_list : @Memory number :=
  match run (CInit 0 [NaN]) empty_memory with
  | Ok (_, m) => m
  | Err _ => empty_memory
  end.

(** The lists of the ordering examples: [], [1,2], [1,2,3], [1,2,4] and a
    second [1,2,3]. *)
Definition ordering_examples : M (positive * positive * positive * positive * positive) :=
  do e <- SingleLinkedList_default 0;
  do a <- SingleLinkedList_init 0 [1; 2]%Z;
  do b <- SingleLinkedList_init 0 [1; 2; 3]%Z;
  do c <- SingleLinkedList_init 0 [1; 2; 4]%Z;
  do d <- SingleLinkedList_init 0 [1; 2; 3]%Z;
  ret (e, a, b, c, d).

(** * Properties *)

Section Properties.
Context {Type_ : Type}.
Implicit Types (m : @Memory Type_) (h : gmap positive (@Node Type_)).
Implicit Types (cs : list (positive * Type_)) (p q : NodePtr) (a l this : positive).

(** ** Rules for [wp] *)

Lemma wp_ret k {A} (x : A) m post : post x m → wp k (ret x) m post.
Proof. intros H. unfold wp, ret. split; [lia | done]. Qed.

Lemma wp_bind k1 k2 {A B} (c : M A) (f : A → M B) m post :
  wp k1 c m (fun x m' => wp k2 (f x) m' post) → wp (k1 + k2) (bind c f) m post.
Proof.
  unfold wp, bind. destruct (c m) as [[x m']|[]]; try done.
  - intros (Hs & Hb & H). destruct (f x m') as [[y m'']|[]]; try done.
    + destruct H as (Hs' & Hb' & H). split; [lia | split; auto].
    + lia.
  - lia.
Qed.

Lemma wp_bind0 k {A B} (c : M A) (f : A → M B) m post :
  wp 0 c m (fun x m' => wp k (f x) m' post) → wp k (bind c f) m post.
Proof. apply (wp_bind 0 k). Qed.

Lemma wp_bind1 k {A B} (c : M A) (f : A → M B) m post :
  wp 1 c m (fun x m' => wp k (f x) m' post) → wp (S k) (bind c f) m post.
Proof. apply (wp_bind 1 k). Qed.

Lemma wp_bind_last k {A B} (c : M A) (f : A → M B) m post :
  wp k c m (fun x m' => wp 0 (f x) m' post) → wp k (bind c f) m post.
Proof. intros H. apply (wp_bind k 0) in H. by rewrite Nat.add_0_r in H. Qed.

(** A computation that first looks at the memory it starts from. *)
Lemma wp_at k {A} (F : Memory → M A) m post :
  wp k (F m) m post → wp k (fun m' => F m' m') m post.
Proof. done. Qed.

Lemma wp_mono k k' {A} (c : M A) m (post post' : A → Memory → Prop) :
  k ≤ k' → (∀ x m', post x m' → post' x m') → wp k c m post → wp k' c m post'.
Proof.
  unfold wp. intros Hk Hp. destruct (c m) as [[x m']|[]]; try done.
  - intros (? & ? & ?). split; [lia | auto].
  - lia.
Qed.

Lemma wp_ok k {A} (c : M A) m post x m' :
  wp k c m post → c m = Ok (x, m') → post x m'.
Proof. unfold wp. intros H E. rewrite E in H. tauto. Qed.

Lemma wp_ok_bounded k {A} (c : M A) m post x m' :
  wp k c m post → c m = Ok (x, m') → heap_bounded m → heap_bounded m'.
Proof. unfold wp. intros H E. rewrite E in H. tauto. Qed.

Lemma wp_room k {A} (c : M A) m post :
  (Z.of_nat (size (heap m) + k) ≤ SIZE_MAX)%Z → wp k c m post →
  ∃ x m', c m = Ok (x, m') ∧ post x m'.
Proof.
  unfold wp. destruct (c m) as [[x m']|[]]; try done.
  - intros _ (_ & _ & H). eauto.
  - lia.
Qed.

Lemma wp_total {A} (c : M A) m post :
  heap_bounded m → wp 0 c m post → ∃ x m', c m = Ok (x, m') ∧ post x m'.
Proof. intros Hb. apply wp_room. rewrite Nat.add_0_r. exact Hb. Qed.

(** A computation that only reads. *)
Lemma wp_read k {A} (c : M A) m x (post : A → Memory → Prop) :
  c m = Ok (x, m) → post x m → wp k c m post.
Proof. intros E H. unfold wp. rewrite E. split; [lia | done]. Qed.

(** ** Rules for the memory primitives *)

Lemma wp_get_next_head k l m L (post : NodePtr → Memory → Prop) :
  objects m !! l = Some L → post (next_node (head_ L)) m →
  wp k (get_next (head_of l)) m post.
Proof. intros E H. apply wp_read with (next_node (head_ L)); [| done]. unfold get_next. by rewrite E. Qed.

Lemma wp_get_next_heap k a m n (post : NodePtr → Memory → Prop) :
  heap m !! a = Some n → post (next_node n) m →
  wp k (get_next (on_heap a)) m post.
Proof. intros E H. apply wp_read with (next_node n); [| done]. unfold get_next. by rewrite E. Qed.

Lemma wp_set_next_head k l q m L (post : unit → Memory → Prop) :
  objects m !! l = Some L →
  post tt (mkMem (heap m) (<[l := mkList (mkNode (value (head_ L)) q) (size_ L)]> (objects m))) →
  wp k (set_next (head_of l) q) m post.
Proof. intros E H. unfold wp, set_next. rewrite E. simpl. split; [lia | done]. Qed.

Lemma wp_set_next_heap k a q m n (post : unit → Memory → Prop) :
  heap m !! a = Some n →
  post tt (mkMem (<[a := mkNode (value n) q]> (heap m)) (objects m)) →
  wp k (set_next (on_heap a) q) m post.
Proof.
  intros E H. unfold wp, set_next, heap_bounded. rewrite E. simpl.
  rewrite map_size_insert_Some by eauto. split; [lia | done].
Qed.

Lemma wp_get_value_heap k a m v nxt (post : Type_ → Memory → Prop) :
  heap m !! a = Some (mkNode (Some v) nxt) → post v m →
  wp k (get_value (on_heap a)) m post.
Proof. intros E H. apply wp_read with v; [| done]. unfold get_value. by rewrite E. Qed.

Lemma wp_get_size k l m L (post : Z → Memory → Prop) :
  objects m !! l = Some L → post (size_ L) m → wp k (get_size l) m post.
Proof. intros E H. apply wp_read with (size_ L); [| done]. unfold get_size. by rewrite E. Qed.

Lemma wp_set_size k l z m L (post : unit → Memory → Prop) :
  objects m !! l = Some L →
  post tt (mkMem (heap m) (<[l := mkList (head_ L) z]> (objects m))) →
  wp k (set_size l z) m post.
Proof. intros E H. unfold wp, set_size. rewrite E. simpl. split; [lia | done]. Qed.

Lemma wp_new_Node k v nxt m (post : NodePtr → Memory → Prop) :
  (∀ a, heap m !! a = None →
        post (on_heap a) (mkMem (<[a := mkNode (Some v) nxt]> (heap m)) (objects m))) →
  wp (S k) (new_Node v nxt) m post.
Proof.
  intros H. unfold wp, new_Node, heap_bounded. case_decide as Hroom.
  - assert (heap m !! fresh (dom (heap m)) = None) as Hfresh.
    { apply not_elem_of_dom, is_fresh. }
    simpl. rewrite map_size_insert_None by done.
    split; [lia | split; [lia | by apply H]].
  - lia.
Qed.

Lemma wp_delete_Node k a m n (post : unit → Memory → Prop) :
  heap m !! a = Some n →
  post tt (mkMem (delete a (heap m)) (objects m)) →
  wp k (delete_Node (on_heap a)) m post.
Proof.
  intros E H. unfold wp, delete_Node, heap_bounded. rewrite E. simpl.
  rewrite map_size_delete, E. split; [lia | split; [lia | done]].
Qed.

(** ** Chains *)

Lemma is_seg_app h p cs1 cs2 q :
  is_seg h p (cs1 ++ cs2) q ↔ ∃ r, is_seg h p cs1 r ∧ is_seg h r cs2 q.
Proof.
  revert p. induction cs1 as [|[a v] cs1 IH]; intros p; simpl.
  - split; [eauto | intros (r & -> & H); done].
  - split.
    + intros (-> & nxt & E & H). apply IH in H as (r & H1 & H2). eauto 10.
    + intros (r & (-> & nxt & E & H1) & H2). split; [done|].
      exists nxt. split; [done|]. apply IH. eauto.
Qed.

(** A chain depends on the heap at its own addresses only. *)
Lemma is_seg_ext h h' p cs q :
  (∀ a, a ∈ cs.*1 → h' !! a = h !! a) → is_seg h p cs q → is_seg h' p cs q.
Proof.
  revert p. induction cs as [|[a v] cs IH]; intros p Hext; simpl; [done|].
  intros (-> & nxt & E & H). split; [done|]. exists nxt. split.
  - rewrite Hext; [done | simpl; left].
  - apply IH; [| done]. intros b Hb. apply Hext. simpl. by right.
Qed.

Lemma is_seg_lookup h p cs q a :
  is_seg h p cs q → a ∈ cs.*1 → is_Some (h !! a).
Proof.
  revert p. induction cs as [|[b v] cs IH]; intros p; simpl.
  - intros _ Hin. by apply elem_of_nil in Hin.
  - intros (-> & nxt & E & H) Hin. apply elem_of_cons in Hin as [->|Hin]; eauto.
Qed.

Lemma is_chain_inj h p cs1 cs2 :
  is_chain h p cs1 → is_chain h p cs2 → cs1 = cs2.
Proof.
  unfold is_chain. revert p cs2.
  induction cs1 as [|[a v] cs1 IH]; intros p [|[b w] cs2]; simpl; try done.
  - intros -> (? & _); done.
  - intros (-> & _) ?; done.
  - intros (-> & n1 & E1 & H1) (Hp & n2 & E2 & H2).
    injection Hp as <-. rewrite E1 in E2. injection E2 as <- <-.
    f_equal. eauto.
Qed.

Lemma is_chain_NoDup h p cs : is_chain h p cs → NoDup cs.*1.
Proof.
  unfold is_chain. revert p. induction cs as [|[a v] cs IH]; intros p; simpl.
  - intros _. constructor.
  - intros (-> & nxt & E & H). constructor; [| eauto].
    intros Hin. apply list_elem_of_fmap in Hin as ([a' w] & Ha & Hin).
    simpl in Ha. subst a'.
    apply list_elem_of_split in Hin as (xs & ys & ->).
    pose proof H as H'. apply is_seg_app in H' as (r & _ & Hr).
    simpl in Hr. destruct Hr as (-> & nxt' & E' & Hys).
    rewrite E in E'. injection E' as <- <-.
    pose proof (is_chain_inj _ _ _ _ H Hys) as Heq.
    apply (f_equal length) in Heq. rewrite length_app in Heq. simpl in Heq. lia.
Qed.

Lemma NoDup_length_le_size h (ks : list positive) :
  NoDup ks → (∀ a, a ∈ ks → is_Some (h !! a)) → length ks ≤ size h.
Proof.
  intros Hnd Hin.
  rewrite <- (size_list_to_set (C:=gset positive) ks) by done.
  rewrite <- size_dom. apply subseteq_size.
  intros a Ha. apply elem_of_list_to_set in Ha. apply elem_of_dom. auto.
Qed.

Lemma is_chain_length h p cs : is_chain h p cs → length cs ≤ size h.
Proof.
  intros H. rewrite <- (length_fmap fst).
  apply NoDup_length_le_size; [by eapply is_chain_NoDup |].
  intros a. by eapply is_seg_lookup.
Qed.

(** ** Maintaining the abstraction *)

Lemma models_repr σ m l cs n : models σ m → σ !! l = Some (cs, n) → repr m l cs n.
Proof. intros (_ & H & _). apply H. Qed.

Lemma models_lookup σ m l cs n :
  models σ m → σ !! l = Some (cs, n) →
  ∃ L, objects m !! l = Some L ∧ is_chain (heap m) (next_node (head_ L)) cs ∧ size_ L = n.
Proof. intros Hm E. exact (models_repr _ _ _ _ _ Hm E). Qed.

Lemma models_fresh σ m l : models σ m → objects m !! l = None → σ !! l = None.
Proof.
  intros (_ & H & _) E. destruct (σ !! l) as [[cs n]|] eqn:El; [| done].
  destruct (H _ _ _ El) as (L & EL & _). congruence.
Qed.

(** One list object is rewritten, or created; the heap changes only at the
    cells it owned and at addresses that were free. *)
Lemma models_update σ m this L' h' cs' n' :
  models σ m →
  (∀ a, a ∉ (cells_of σ this).*1 → is_Some (heap m !! a) → h' !! a = heap m !! a) →
  is_chain h' (next_node (head_ L')) cs' → size_ L' = n' →
  (∀ a, a ∈ cs'.*1 → a ∈ (cells_of σ this).*1 ∨ heap m !! a = None) →
  models (<[this := (cs', n')]> σ) (mkMem h' (<[this := L']> (objects m))).
Proof.
  intros (Hdom & Hrepr & Hsep) Hframe Hchain Hsize Hnew.
  assert (∀ l cs n a, l ≠ this → σ !! l = Some (cs, n) → a ∈ cs.*1 →
            (a ∉ (cells_of σ this).*1) ∧ is_Some (heap m !! a)) as Hother.
  { intros l cs n a Hne El Ha. split.
    - unfold cells_of. destruct (σ !! this) as [[cs0 n0]|] eqn:Et.
      + intros Ha'. by apply (Hsep this l cs0 n0 cs n (not_eq_sym Hne) Et El a).
      + simpl. apply not_elem_of_nil.
    - destruct (Hrepr _ _ _ El) as (L & _ & Hc & _). by eapply is_seg_lookup. }
  split; [| split].
  - intros l. simpl. destruct (decide (l = this)) as [->|Hne].
    + rewrite !lookup_insert_eq. eauto.
    + rewrite !lookup_insert_ne by done. apply Hdom.
  - intros l cs n. destruct (decide (l = this)) as [->|Hne].
    + rewrite lookup_insert_eq. intros [= <- <-].
      exists L'. simpl. rewrite lookup_insert_eq. done.
    + rewrite lookup_insert_ne by done. intros El.
      destruct (Hrepr _ _ _ El) as (L & EL & Hc & Hs).
      exists L. simpl. rewrite lookup_insert_ne by done.
      split; [done | split; [| done]].
      eapply is_seg_ext; [| exact Hc].
      intros a Ha. destruct (Hother l cs n a Hne El Ha). auto.
  - intros l1 l2 cs1 n1 cs2 n2 Hne.
    destruct (decide (l1 = this)) as [->|H1]; destruct (decide (l2 = this)) as [->|H2];
      try done.
    + rewrite lookup_insert_eq, lookup_insert_ne by done.
      intros [= <- <-] E2 a Ha Ha2.
      destruct (Hother l2 cs2 n2 a H2 E2 Ha2) as [Hn [x Hx]].
      destruct (Hnew a Ha) as [?|?]; [done | congruence].
    + rewrite lookup_insert_eq, lookup_insert_ne by done.
      intros E1 [= <- <-] a Ha Ha2.
      destruct (Hother l1 cs1 n1 a H1 E1 Ha) as [Hn [x Hx]].
      destruct (Hnew a Ha2) as [?|?]; [done | congruence].
    + rewrite !lookup_insert_ne by done. apply Hsep. done.
Qed.

Lemma cells_of_lookup σ l cs n : σ !! l = Some (cs, n) → cells_of σ l = cs.
Proof. unfold cells_of. by intros ->. Qed.

Lemma wrap_small z : (0 ≤ z ≤ SIZE_MAX)%Z → wrap z = z.
Proof. intros H. unfold wrap. apply Z.mod_small. unfold SIZE_MAX in *. lia. Qed.

(** ** The member functions, one by one *)

Ltac lookup_now :=
  simpl; first [ eassumption | apply lookup_insert_eq
               | rewrite lookup_insert_ne by done; lookup_now ].

Ltac wp_head :=
  first [ eapply wp_get_next_head; [lookup_now |]
        | eapply wp_set_next_head; [lookup_now |]
        | eapply wp_get_size; [lookup_now |]
        | eapply wp_set_size; [lookup_now |] ].

Lemma PushFront_spec σ m this cs n v :
  models σ m → σ !! this = Some (cs, n) →
  wp 1 (PushFront this v) m (fun _ m' =>
    ∃ a, heap m !! a = None ∧
         models (<[this := ((a, v) :: cs, wrap (n + 1))]> σ) m').
Proof.
  intros Hm E. destruct (models_lookup _ _ _ _ _ Hm E) as (L & EL & Hc & Hs).
  unfold PushFront.
  apply wp_bind0. wp_head.
  apply wp_bind1. apply wp_new_Node. intros a Ha.
  apply wp_bind0. wp_head.
  apply wp_bind0. wp_head.
  wp_head. simpl.
  exists a. split; [done|]. rewrite insert_insert_eq.
  apply models_update; simpl; try done.
  - intros b _ [x Hx]. rewrite lookup_insert_ne; [done | congruence].
  - split; [done|]. eexists. rewrite lookup_insert_eq. split; [done|].
    eapply is_seg_ext; [| exact Hc].
    intros b Hb. rewrite lookup_insert_ne; [done|].
    intros ->. destruct (is_seg_lookup _ _ _ _ _ Hc Hb). congruence.
  - by rewrite Hs.
  - rewrite (cells_of_lookup _ _ _ _ E).
    intros b [->|Hb]%elem_of_cons; auto.
Qed.

Lemma is_chain_head h p cs : is_chain h p cs → p = chain_head cs.
Proof. destruct cs as [|[a v] cs]; simpl; [done | by intros [-> _]]. Qed.

Lemma is_seg_snoc h p cs b w r :
  is_seg h p (cs ++ [(b, w)]) r ↔
  is_seg h p cs (on_heap b) ∧ h !! b = Some (mkNode (Some w) r).
Proof.
  rewrite is_seg_app. simpl. split.
  - intros (r1 & H1 & -> & nxt & E & ->). done.
  - intros (H1 & E). exists (on_heap b). eauto.
Qed.

Lemma NoDup_snoc_app {A} (xs ys : list A) (b : A) :
  NoDup ((xs ++ [b]) ++ ys) → (b ∉ xs) ∧ (b ∉ ys) ∧ NoDup (xs ++ ys).
Proof.
  rewrite <- app_assoc. simpl. intros H.
  apply NoDup_app in H as (H1 & H2 & H3).
  apply NoDup_cons in H3 as (H3 & H4).
  split; [| split; [done |]].
  - intros Hb. apply (H2 b Hb). left.
  - apply NoDup_app. split; [done | split; [| done]].
    intros x Hx Hy. apply (H2 x Hx). by right.
Qed.

Lemma InsertAfter_spec σ m this pos cs_pre cs_post n v :
  models σ m → σ !! this = Some (cs_pre ++ cs_post, n) → anchored this pos cs_pre →
  wp 1 (InsertAfter this pos v) m (fun it m' =>
    ∃ a, heap m !! a = None ∧ it = Iterator (on_heap a) ∧
         models (<[this := (cs_pre ++ (a, v) :: cs_post, wrap (n + 1))]> σ) m').
Proof.
  intros Hm E Hpos. destruct (models_lookup _ _ _ _ _ Hm E) as (L & EL & Hc & Hs).
  unfold InsertAfter.
  destruct Hpos as [[-> ->] | (cs1 & b & w & -> & ->)].
  - simpl in *.
    apply wp_bind0. wp_head.
    apply wp_bind1. apply wp_new_Node. intros a Ha.
    apply wp_bind0. wp_head.
    apply wp_bind0. wp_head.
    apply wp_bind0. wp_head.
    apply wp_bind0. wp_head.
    apply wp_ret. simpl.
    exists a. split; [done | split; [done |]]. rewrite insert_insert_eq.
    apply models_update; simpl; try done.
    + intros b _ [x Hx]. rewrite lookup_insert_ne; [done | congruence].
    + split; [done|]. eexists. rewrite lookup_insert_eq. split; [done|].
      eapply is_seg_ext; [| exact Hc].
      intros b Hb. rewrite lookup_insert_ne; [done|].
      intros ->. destruct (is_seg_lookup _ _ _ _ _ Hc Hb). congruence.
    + by rewrite Hs.
    + rewrite (cells_of_lookup _ _ _ _ E).
      intros b [->|Hb]%elem_of_cons; auto.
  - pose proof (is_chain_NoDup _ _ _ Hc) as Hnd.
    rewrite !fmap_app in Hnd. simpl in Hnd.
    apply NoDup_snoc_app in Hnd as (Hb1 & Hb2 & _).
    pose proof Hc as Hc'. apply is_seg_app in Hc' as (r & Hpre & Hpost).
    apply is_seg_snoc in Hpre as (Hcs1 & Eb).
    apply wp_bind0. eapply wp_get_next_heap; [exact Eb |]. simpl.
    apply wp_bind1. apply wp_new_Node. intros a Ha.
    assert (a ≠ b) as Hab by congruence.
    apply wp_bind0. eapply wp_set_next_heap.
    { simpl. rewrite lookup_insert_ne by done. exact Eb. }
    simpl.
    apply wp_bind0. wp_head.
    apply wp_bind0. wp_head.
    apply wp_bind0. eapply wp_get_next_heap.
    { simpl. apply lookup_insert_eq. }
    apply wp_ret. simpl.
    exists a. split; [done | split; [done |]].
    assert (∀ x, x ∈ (cs1 ++ [(b, w)] ++ cs_post).*1 → x ≠ a) as Hfresh.
    { intros x Hx ->. rewrite app_assoc in Hx.
      destruct (is_seg_lookup _ _ _ _ _ Hc Hx). congruence. }
    apply models_update; simpl; try done.
    + rewrite (cells_of_lookup _ _ _ _ E).
      intros x Hx [y Hy]. rewrite !lookup_insert_ne; [done | congruence |].
      intros <-. apply Hx. rewrite !fmap_app. simpl.
      apply elem_of_app. left. apply elem_of_app. right. left.
    + unfold is_chain. apply is_seg_app. exists (on_heap a). split.
      * apply is_seg_snoc. split.
        -- eapply is_seg_ext; [| exact Hcs1].
           intros x Hx. rewrite !lookup_insert_ne; [done | |].
           ++ intros <-. apply (Hfresh a); [| done].
              rewrite fmap_app. apply elem_of_app. by left.
           ++ intros <-. done.
        -- apply lookup_insert_eq.
      * simpl. split; [done|]. exists r. split.
        -- rewrite lookup_insert_ne by done. apply lookup_insert_eq.
        -- eapply is_seg_ext; [| exact Hpost].
           intros x Hx. rewrite !lookup_insert_ne; [done | |].
           ++ intros <-. apply (Hfresh a); [| done].
              rewrite !fmap_app. apply elem_of_app. right. apply elem_of_app. by right.
           ++ intros <-. done.
    + by rewrite Hs.
    + rewrite (cells_of_lookup _ _ _ _ E). rewrite !fmap_app. simpl.
      intros x Hx. rewrite !elem_of_app in Hx. rewrite !elem_of_app.
      destruct Hx as [[Hx|Hx]|Hx]; auto.
      apply elem_of_cons in Hx as [->|Hx]; auto.
Qed.

Lemma EraseAfter_spec σ m this pos cs_pre c u cs_post n :
  models σ m → σ !! this = Some (cs_pre ++ (c, u) :: cs_post, n) →
  anchored this pos cs_pre →
  wp 0 (EraseAfter this pos) m (fun it m' =>
    it = Iterator (chain_head cs_post) ∧
    models (<[this := (cs_pre ++ cs_post, wrap (n - 1))]> σ) m').
Proof.
  intros Hm E Hpos. destruct (models_lookup _ _ _ _ _ Hm E) as (L & EL & Hc & Hs).
  unfold EraseAfter.
  pose proof (is_chain_NoDup _ _ _ Hc) as Hnd.
  destruct Hpos as [[-> ->] | (cs1 & b & w & -> & ->)].
  - simpl in *. destruct Hc as (Ehd & r & Ec & Hpost).
    apply NoDup_cons in Hnd as (Hc1 & _).
    apply wp_bind0. wp_head. rewrite Ehd.
    apply wp_bind0. eapply wp_get_next_heap; [exact Ec |]. simpl.
    apply wp_bind0. wp_head.
    apply wp_bind0. eapply wp_delete_Node; [exact Ec |]. simpl.
    apply wp_bind0. wp_head.
    apply wp_bind0. wp_head.
    apply wp_bind0. wp_head.
    apply wp_ret. simpl.
    split; [by rewrite (is_chain_head _ _ _ Hpost) |].
    rewrite insert_insert_eq.
    apply models_update; simpl; try done.
    + rewrite (cells_of_lookup _ _ _ _ E). simpl.
      intros x Hx _. rewrite lookup_delete_ne; [done|].
      intros <-. apply Hx. left.
    + eapply is_seg_ext; [| exact Hpost].
      intros x Hx. rewrite lookup_delete_ne; [done|]. by intros <-.
    + by rewrite Hs.
    + rewrite (cells_of_lookup _ _ _ _ E). simpl. intros x Hx. left. by right.
  - rewrite !fmap_app in Hnd. simpl in Hnd.
    pose proof Hnd as Hnd'.
    apply NoDup_snoc_app in Hnd' as (Hb1 & Hb2 & Hnd').
    apply NoDup_app in Hnd' as (_ & Hc1 & Hnd').
    apply NoDup_cons in Hnd' as (Hc2 & _).
    assert (b ≠ c) as Hbc. { intros ->. apply Hb2. left. }
    assert (c ∉ cs1.*1) as Hc1'. { intros Hin. apply (Hc1 c Hin). left. }
    assert (b ∉ cs_post.*1) as Hb3. { intros Hin. apply Hb2. by right. }
    pose proof Hc as Hc'. apply is_seg_app in Hc' as (r0 & Hpre & Hrest).
    apply is_seg_snoc in Hpre as (Hcs1 & Eb).
    simpl in Hrest. destruct Hrest as (-> & r & Ec & Hpost).
    apply wp_bind0. eapply wp_get_next_heap; [exact Eb |]. simpl.
    apply wp_bind0. eapply wp_get_next_heap; [exact Ec |]. simpl.
    apply wp_bind0. eapply wp_set_next_heap; [exact Eb |]. simpl.
    apply wp_bind0. eapply wp_delete_Node.
    { simpl. rewrite lookup_insert_ne by done. exact Ec. }
    simpl.
    apply wp_bind0. wp_head.
    apply wp_bind0. wp_head.
    apply wp_bind0. eapply wp_get_next_heap.
    { simpl. rewrite lookup_delete_ne by done. apply lookup_insert_eq. }
    apply wp_ret. simpl.
    split; [by rewrite (is_chain_head _ _ _ Hpost) |].
    apply models_update; simpl; try done.
    + rewrite (cells_of_lookup _ _ _ _ E). rewrite !fmap_app. simpl.
      intros x Hx _.
      rewrite lookup_delete_ne, lookup_insert_ne; [done | |].
      * intros <-. apply Hx. apply elem_of_app. left. apply elem_of_app. right. left.
      * intros <-. apply Hx. apply elem_of_app. right. left.
    + unfold is_chain. apply is_seg_app. exists r. split.
      * apply is_seg_snoc. split.
        -- eapply is_seg_ext; [| exact Hcs1].
           intros x Hx. rewrite lookup_delete_ne, lookup_insert_ne; [done | |].
           ++ by intros <-.
           ++ by intros <-.
        -- rewrite lookup_delete_ne by done. apply lookup_insert_eq.
      * eapply is_seg_ext; [| exact Hpost].
        intros x Hx. rewrite lookup_delete_ne, lookup_insert_ne; [done | |].
        -- by intros <-.
        -- by intros <-.
    + by rewrite Hs.
    + rewrite (cells_of_lookup _ _ _ _ E). rewrite !fmap_app. simpl.
      intros x Hx. left. rewrite !elem_of_app in Hx. rewrite !elem_of_app.
      destruct Hx as [[Hx|Hx]|Hx]; auto. right. by right.
Qed.

Lemma PopFront_spec σ m this cs n :
  models σ m → σ !! this = Some (cs, n) →
  wp 0 (PopFront this) m (fun _ m' =>
    match cs with
    | [] => m' = m
    | _ :: cs' => models (<[this := (cs', wrap (n - 1))]> σ) m'
    end).
Proof.
  intros Hm E. destruct (models_lookup _ _ _ _ _ Hm E) as (L & EL & Hc & Hs).
  unfold PopFront.
  pose proof (is_chain_NoDup _ _ _ Hc) as Hnd.
  destruct cs as [|[c u] cs']; simpl in *.
  - apply wp_bind0. wp_head. rewrite Hc. simpl. by apply wp_ret.
  - destruct Hc as (Ehd & r & Ec & Hpost).
    apply NoDup_cons in Hnd as (Hc1 & _).
    apply wp_bind0. wp_head. rewrite Ehd. simpl.
    apply wp_bind0. eapply wp_get_next_heap; [exact Ec |]. simpl.
    apply wp_bind0. wp_head.
    apply wp_bind0. eapply wp_delete_Node; [exact Ec |]. simpl.
    apply wp_bind0. wp_head.
    wp_head. simpl.
    rewrite insert_insert_eq.
    apply models_update; simpl; try done.
    + rewrite (cells_of_lookup _ _ _ _ E). simpl.
      intros x Hx _. rewrite lookup_delete_ne; [done|].
      intros <-. apply Hx. left.
    + eapply is_seg_ext; [| exact Hpost].
      intros x Hx. rewrite lookup_delete_ne; [done|]. by intros <-.
    + by rewrite Hs.
    + rewrite (cells_of_lookup _ _ _ _ E). simpl. intros x Hx. left. by right.
Qed.

Lemma Clear_loop_spec this cs : ∀ fuel σ m n,
  length cs ≤ fuel → models σ m → σ !! this = Some (cs, n) →
  wp 0 (Clear_loop fuel this) m (fun _ m' => models (<[this := ([], n)]> σ) m').
Proof.
  induction cs as [|[c u] cs' IH]; intros fuel σ m n Hfuel Hm E;
    destruct (models_lookup _ _ _ _ _ Hm E) as (L & EL & Hc & Hs).
  - assert (Clear_loop fuel this m = Ok (tt, m)) as Hrun.
    { destruct fuel; simpl; unfold bind, get_next; rewrite EL;
        simpl in Hc; rewrite Hc; done. }
    eapply wp_read; [exact Hrun |].
    rewrite insert_id; done.
  - pose proof (is_chain_NoDup _ _ _ Hc) as Hnd.
    simpl in *. destruct Hc as (Ehd & r & Ec & Hpost).
    apply NoDup_cons in Hnd as (Hc1 & _).
    destruct fuel as [|fuel]; [lia|]. simpl.
    apply wp_bind0. wp_head. rewrite Ehd. simpl.
    apply wp_bind0. eapply wp_get_next_heap; [exact Ec |]. simpl.
    apply wp_bind0. eapply wp_delete_Node; [exact Ec |]. simpl.
    apply wp_bind0. wp_head.
    eapply wp_mono; [done | | eapply (IH fuel (<[this := (cs', n)]> σ))].
    + intros ? m'. simpl. by rewrite insert_insert_eq.
    + lia.
    + apply (models_update σ m); simpl; try done.
      * rewrite (cells_of_lookup _ _ _ _ E). simpl.
        intros x Hx _. rewrite lookup_delete_ne; [done|].
        intros <-. apply Hx. left.
      * eapply is_seg_ext; [| exact Hpost].
        intros x Hx. rewrite lookup_delete_ne; [done|]. by intros <-.
      * rewrite (cells_of_lookup _ _ _ _ E). simpl. intros x Hx. left. by right.
    + apply lookup_insert_eq.
Qed.

Lemma Clear_spec σ m this cs n :
  models σ m → σ !! this = Some (cs, n) →
  wp 0 (Clear this) m (fun _ m' => models (<[this := ([], 0%Z)]> σ) m').
Proof.
  intros Hm E. destruct (models_lookup _ _ _ _ _ Hm E) as (L & EL & Hc & Hs).
  unfold Clear. apply wp_bind0.
  eapply wp_mono; [done | | eapply (Clear_loop_spec this cs); try done].
  - intros ? m' Hm'. simpl in Hm'.
    destruct (models_lookup _ _ _ _ _ Hm' (lookup_insert_eq _ _ _)) as (L' & EL' & Hc' & Hs').
    wp_head. simpl.
    replace (<[this := ([], 0%Z)]> σ) with (<[this := ([], 0%Z)]> (<[this := ([], n)]> σ))
      by apply insert_insert_eq.
    apply (models_update (<[this := ([], n)]> σ) m'); simpl; try done.
    intros a Ha. by apply elem_of_nil in Ha.
  - pose proof (is_chain_length _ _ _ Hc). lia.
Qed.

(** [Clear] needs no assumption to terminate: whatever the memory, its loop
    stops, normally or on an invalid pointer. *)
Lemma get_next_error p m e : get_next p m = Err e → e = undefined_behaviour.
Proof.
  unfold get_next. destruct p as [|l|a]; [by intros [= <-] | |].
  - destruct (objects m !! l); [done | by intros [= <-]].
  - destruct (heap m !! a); [done | by intros [= <-]].
Qed.

Lemma Clear_loop_halts : ∀ fuel this m,
  size (heap m) < fuel → Clear_loop fuel this m ≠ Err nontermination.
Proof.
  induction fuel as [|fuel IH]; intros this m Hlt; [lia|].
  simpl. unfold bind at 1.
  destruct (get_next (head_of this) m) as [[p m1]|e] eqn:E1.
  2: { apply get_next_error in E1 as ->. done. }
  assert (m1 = m) as -> by (unfold get_next in E1; destruct (objects m !! this); congruence).
  case_decide as Hp; [done|].
  unfold bind at 1.
  destruct (get_next p m) as [[q m2]|e] eqn:E2.
  2: { apply get_next_error in E2 as ->. done. }
  assert (m2 = m) as ->.
  { unfold get_next in E2. destruct p as [|l|a]; [done | |].
    - destruct (objects m !! l); congruence.
    - destruct (heap m !! a); congruence. }
  unfold bind at 1. unfold delete_Node.
  destruct p as [|l|a]; [done | done |].
  destruct (heap m !! a) as [n|] eqn:Ea; [| done].
  unfold bind at 1. unfold set_next. cbn [heap objects].
  destruct (objects m !! this) as [L|]; [| done].
  apply IH. cbn [heap]. rewrite map_size_delete, Ea.
  destruct (size (heap m)) eqn:Es; [| simpl; lia].
  apply map_size_empty_iff in Es. rewrite Es in Ea. by rewrite lookup_empty in Ea.
Qed.

Lemma Clear_halts this m : Clear this m ≠ Err nontermination.
Proof.
  unfold Clear, bind.
  pose proof (Clear_loop_halts (S (size (heap m))) this m (Nat.lt_succ_diag_r _)) as H.
  destruct (Clear_loop (S (size (heap m))) this m) as [[[] m1]|e]; [| congruence].
  unfold set_size. destruct (objects m1 !! this); done.
Qed.

(** Two list objects are rewritten and the heap is left alone: the two may
    exchange what they own. *)
Lemma models_exchange σ m l1 l2 L1 L2 cs1 n1 cs2 n2 :
  models σ m → l1 ≠ l2 →
  σ !! l1 = Some (cs1, n1) → σ !! l2 = Some (cs2, n2) →
  is_chain (heap m) (next_node (head_ L1)) cs2 → size_ L1 = n2 →
  is_chain (heap m) (next_node (head_ L2)) cs1 → size_ L2 = n1 →
  models (<[l1 := (cs2, n2)]> (<[l2 := (cs1, n1)]> σ))
         (mkMem (heap m) (<[l1 := L1]> (<[l2 := L2]> (objects m)))).
Proof.
  intros (Hdom & Hrepr & Hsep) Hne E1 E2 Hc1 Hs1 Hc2 Hs2.
  split; [| split].
  - intros l. simpl.
    destruct (decide (l = l1)) as [->|N1]; [rewrite !lookup_insert_eq; eauto |].
    rewrite !(lookup_insert_ne _ l1) by done.
    destruct (decide (l = l2)) as [->|N2]; [rewrite !lookup_insert_eq; eauto |].
    rewrite !lookup_insert_ne by done. apply Hdom.
  - intros l cs n. unfold repr. simpl.
    destruct (decide (l = l1)) as [->|N1].
    { rewrite !lookup_insert_eq. intros [= <- <-]. eauto. }
    rewrite !(lookup_insert_ne _ l1) by done.
    destruct (decide (l = l2)) as [->|N2].
    { rewrite !lookup_insert_eq. intros [= <- <-]. eauto. }
    rewrite !lookup_insert_ne by done. apply Hrepr.
  - assert (∀ l cs n, <[l1 := (cs2, n2)]> (<[l2 := (cs1, n1)]> σ) !! l = Some (cs, n) →
              ∃ l' n', σ !! l' = Some (cs, n') ∧
                       (l = l1 ∧ l' = l2 ∨ l = l2 ∧ l' = l1 ∨ l ≠ l1 ∧ l ≠ l2 ∧ l' = l))
      as Hback.
    { intros l cs n.
      destruct (decide (l = l1)) as [->|N1].
      { rewrite lookup_insert_eq. intros [= <- <-]. exists l2, n2. auto. }
      rewrite (lookup_insert_ne _ l1) by done.
      destruct (decide (l = l2)) as [->|N2].
      { rewrite lookup_insert_eq. intros [= <- <-]. exists l1, n1. auto. }
      rewrite lookup_insert_ne by done. intros El. exists l, n. eauto 10. }
    intros a b csa na csb nb Hab Ea Eb.
    destruct (Hback _ _ _ Ea) as (a' & na' & Ea' & Ha).
    destruct (Hback _ _ _ Eb) as (b' & nb' & Eb' & Hb).
    apply (Hsep a' b' csa na' csb nb'); [| done | done].
    intros Heq. destruct Ha as [[? ?]|[[? ?]|(? & ? & ?)]];
      destruct Hb as [[? ?]|[[? ?]|(? & ? & ?)]]; congruence.
Qed.

Lemma insert_twice_each {V} (o : gmap positive V) a b (x4 y3 x2 y1 : V) :
  a ≠ b →
  <[a := x4]> (<[b := y3]> (<[a := x2]> (<[b := y1]> o))) = <[a := x4]> (<[b := y3]> o).
Proof.
  intros Hab. apply map_eq. intros k.
  destruct (decide (k = a)) as [->|Ha]; [by rewrite !lookup_insert_eq |].
  rewrite !(lookup_insert_ne _ a) by done.
  destruct (decide (k = b)) as [->|Hb]; [by rewrite !lookup_insert_eq |].
  by rewrite !lookup_insert_ne.
Qed.

Lemma swap_spec σ m this other cs1 n1 cs2 n2 :
  models σ m → σ !! this = Some (cs1, n1) → σ !! other = Some (cs2, n2) →
  wp 0 (swap this other) m (fun _ m' =>
    heap m' = heap m ∧
    models (<[this := (cs2, n2)]> (<[other := (cs1, n1)]> σ)) m').
Proof.
  intros Hm E1 E2.
  destruct (models_lookup _ _ _ _ _ Hm E1) as (L1 & EL1 & Hc1 & Hs1).
  destruct (models_lookup _ _ _ _ _ Hm E2) as (L2 & EL2 & Hc2 & Hs2).
  unfold swap. destruct (decide (this = other)) as [->|Hne].
  - assert (L2 = L1) as -> by congruence.
    assert (cs2 = cs1 ∧ n2 = n1) as [-> ->] by (split; congruence).
    do 2 (apply wp_bind0; wp_head).
    do 2 (apply wp_bind0; wp_head).
    do 2 (apply wp_bind0; wp_head).
    apply wp_bind0; wp_head. wp_head. simpl.
    split; [done|]. rewrite !insert_insert_eq.
    apply (models_update σ m); simpl; try done.
    rewrite (cells_of_lookup _ _ _ _ E1). auto.
  - do 2 (apply wp_bind0; wp_head).
    do 2 (apply wp_bind0; wp_head).
    do 2 (apply wp_bind0; wp_head).
    apply wp_bind0; wp_head. wp_head. simpl.
    split; [done|].
    rewrite insert_twice_each by done.
    apply (models_exchange σ m); simpl; try done.
Qed.

Lemma storage_spec σ m junk :
  models σ m →
  wp 0 (storage junk) m (fun l m' =>
    objects m !! l = None ∧ heap m' = heap m ∧ models (<[l := ([], junk)]> σ) m').
Proof.
  intros Hm. unfold wp, storage. simpl.
  assert (objects m !! fresh (dom (objects m)) = None) as Hfresh.
  { apply not_elem_of_dom, is_fresh. }
  split; [lia | split; [done |]]. split; [done | split; [done |]].
  apply (models_update σ m); simpl; try done.
  intros a Ha. by apply elem_of_nil in Ha.
Qed.

Lemma release_spec σ m l cs n :
  models σ m → σ !! l = Some (cs, n) →
  wp 0 (release l) m (fun _ m' => heap m' = heap m ∧ models (delete l σ) m').
Proof.
  intros Hm E. destruct (models_lookup _ _ _ _ _ Hm E) as (L & EL & Hc & Hs).
  destruct Hm as (Hdom & Hrepr & Hsep).
  unfold wp, release. rewrite EL. simpl.
  split; [lia | split; [done |]]. split; [done |].
  split; [| split].
  - intros l'. simpl. destruct (decide (l' = l)) as [->|Hne].
    + rewrite lookup_delete_eq. by intros [? ?].
    + rewrite !lookup_delete_ne by done. apply Hdom.
  - intros l' cs' n'. destruct (decide (l' = l)) as [->|Hne].
    + by rewrite lookup_delete_eq.
    + rewrite lookup_delete_ne by done. intros El.
      destruct (Hrepr _ _ _ El) as (L' & EL' & ? & ?).
      exists L'. simpl. by rewrite lookup_delete_ne.
  - intros l1 l2 c1 k1 c2 k2 Hne E1 E2.
    apply lookup_delete_Some in E1 as [_ E1].
    apply lookup_delete_Some in E2 as [_ E2].
    by apply (Hsep l1 l2 c1 k1 c2 k2).
Qed.

Lemma SingleLinkedList_default_spec σ m junk :
  models σ m →
  wp 0 (SingleLinkedList_default junk) m (fun l m' =>
    objects m !! l = None ∧ heap m' = heap m ∧ models (<[l := ([], 0%Z)]> σ) m').
Proof.
  intros Hm. unfold SingleLinkedList_default.
  apply wp_bind0. eapply wp_mono; [done | | by apply storage_spec].
  intros l m1 (Hfresh & Hheap & Hm1). simpl in *.
  destruct (models_lookup _ _ _ _ _ Hm1 (lookup_insert_eq _ _ _)) as (L & EL & Hc & Hs).
  apply wp_bind0. wp_head. apply wp_ret. simpl.
  split; [done | split; [done |]].
  replace (<[l := ([], 0%Z)]> σ) with (<[l := ([], 0%Z)]> (<[l := ([], junk)]> σ))
    by apply insert_insert_eq.
  apply (models_update _ m1); simpl; try done.
  intros a Ha. by apply elem_of_nil in Ha.
Qed.

Lemma destroy_spec σ m this cs n :
  models σ m → σ !! this = Some (cs, n) →
  wp 0 (destroy this) m (fun _ m' => models (delete this σ) m').
Proof.
  intros Hm E. unfold destroy.
  apply wp_bind0. eapply wp_mono; [done | | by eapply Clear_spec].
  intros ? m1 Hm1. simpl in Hm1.
  eapply wp_mono; [done | | eapply release_spec; [exact Hm1 | apply lookup_insert_eq]].
  intros ? m2 [_ Hm2]. simpl in Hm2. by rewrite delete_insert_eq in Hm2.
Qed.

(** ** Copying a collection *)

Lemma count_from_small k : ∀ z,
  (0 ≤ z)%Z → (z + Z.of_nat k ≤ SIZE_MAX)%Z → count_from z k = (z + Z.of_nat k)%Z.
Proof.
  induction k as [|k IH]; intros z Hz Hk; simpl; [lia|].
  rewrite wrap_small by lia. rewrite IH by lia. lia.
Qed.

Section CopyLoop.
(** The collection is abstracted by [src it vs m]: iterating from [it] in
    memory [m] yields the values [vs] and then meets [end_it].  It may
    depend on the heap at the addresses [untouched] only. *)
Context {C : Type} {HC : @Collection Type_ C}.
Variable end_it : coll_iter.
Variable untouched : list positive.
Variable src : coll_iter → list Type_ → @Memory Type_ → Prop.
Hypothesis src_nil : ∀ it m, src it [] m → coll_ne it end_it = false.
Hypothesis src_cons : ∀ it v vs m, src it (v :: vs) m →
  coll_ne it end_it = true ∧ coll_deref it m = Ok (v, m) ∧
  ∃ it', coll_incr it m = Ok (it', m) ∧ src it' vs m.
Hypothesis src_stable : ∀ it vs m m',
  src it vs m → (∀ x, x ∈ untouched → heap m' !! x = heap m !! x) → src it vs m'.

Lemma MakeCopy_loop_spec res : ∀ vs fuel it built last v0 size m σ nr,
  length vs ≤ fuel → src it vs m → models σ m →
  σ !! res = Some (built ++ [(last, v0)], nr) →
  (∀ x, x ∈ untouched → is_Some (heap m !! x) ∧ (x ∉ (built ++ [(last, v0)]).*1)) →
  wp (length vs) (MakeCopy_loop fuel it end_it (on_heap last) size) m (fun size' m' =>
    size' = count_from size (length vs) ∧
    ∃ copy, copy.*2 = vs ∧ (∀ a, a ∈ copy.*1 → heap m !! a = None) ∧
            models (<[res := ((built ++ [(last, v0)]) ++ copy, nr)]> σ) m').
Proof.
  induction vs as [|v vs IH]; intros fuel it built last v0 size m σ nr Hfuel Hsrc Hm E Hun.
  - assert (MakeCopy_loop fuel it end_it (on_heap last) size m = Ok (size, m)) as Hrun.
    { destruct fuel; simpl; rewrite (src_nil _ _ Hsrc); done. }
    eapply wp_read; [exact Hrun |]. simpl. split; [done|].
    exists []. rewrite app_nil_r. split; [done | split].
    + intros a Ha. by apply elem_of_nil in Ha.
    + by rewrite insert_id.
  - destruct (src_cons _ _ _ _ Hsrc) as (Hne & Hderef & _).
    destruct (models_lookup _ _ _ _ _ Hm E) as (L & EL & Hc & Hs).
    pose proof Hc as Hc'. apply is_seg_snoc in Hc' as (Hbuilt & Elast).
    destruct fuel as [|fuel]; [simpl in Hfuel; lia|].
    simpl MakeCopy_loop. rewrite Hne. simpl length.
    apply wp_bind0. eapply wp_read; [exact Hderef |].
    apply wp_bind1. apply wp_new_Node. intros a Ha.
    assert (a ≠ last) as Hal by congruence.
    apply wp_bind0. eapply wp_set_next_heap.
    { simpl. rewrite lookup_insert_ne by done. exact Elast. }
    simpl.
    apply wp_bind0. eapply wp_get_next_heap; [simpl; apply lookup_insert_eq |]. simpl.
    set (m2 := mkMem (<[last := mkNode (Some v0) (on_heap a)]>
                        (<[a := mkNode (Some v) nullptr]> (heap m))) (objects m)).
    assert (∀ x, x ∈ untouched → heap m2 !! x = heap m !! x) as Hsame.
    { intros x Hx. destruct (Hun x Hx) as [[y Hy] Hnot]. simpl.
      rewrite !lookup_insert_ne; [done | congruence |].
      intros <-. apply Hnot. rewrite fmap_app. apply elem_of_app. right. left. }
    pose proof (src_stable _ _ _ m2 Hsrc Hsame) as Hsrc2.
    destruct (src_cons _ _ _ _ Hsrc2) as (_ & _ & it' & Hincr & Hsrc').
    apply wp_bind0. eapply wp_read; [exact Hincr |].
    assert (models (<[res := ((built ++ [(last, v0)]) ++ [(a, v)], nr)]> σ) m2) as Hm2.
    { pose proof (is_chain_NoDup _ _ _ Hc) as Hnd. rewrite fmap_app in Hnd.
      apply NoDup_app in Hnd as (_ & Hlast & _).
      assert (<[res := L]> (objects m) = objects m) as Hobj by (by apply insert_id).
      unfold m2. rewrite <- Hobj.
      apply (models_update σ m); simpl; try done.
      - rewrite (cells_of_lookup _ _ _ _ E). intros x Hx [y Hy].
        rewrite !lookup_insert_ne; [done | congruence |].
        intros <-. apply Hx. rewrite fmap_app. apply elem_of_app. right. left.
      - unfold is_chain. apply is_seg_snoc. split.
        + apply is_seg_snoc. split; [| apply lookup_insert_eq].
          eapply is_seg_ext; [| exact Hbuilt].
          intros x Hx. rewrite !lookup_insert_ne; [done | |].
          * intros <-. destruct (is_seg_lookup _ _ _ _ _ Hbuilt Hx). congruence.
          * intros <-. apply (Hlast last Hx). left.
        + rewrite lookup_insert_ne by done. apply lookup_insert_eq.
      - rewrite (cells_of_lookup _ _ _ _ E). rewrite !fmap_app. simpl.
        intros x Hx. rewrite !elem_of_app in Hx. rewrite !elem_of_app.
        destruct Hx as [[Hx|Hx]|Hx]; auto.
        apply elem_of_cons in Hx as [->|Hx]; auto. by apply elem_of_nil in Hx. }
    eapply wp_mono; [done | |
      eapply (IH fuel it' (built ++ [(last, v0)]) a v (wrap (size + 1)) m2 _ nr);
        [simpl in Hfuel; lia | exact Hsrc' | exact Hm2 | apply lookup_insert_eq |]].
    + intros size' m' (Hsize & copy & Hvals & Hfresh & Hm').
      split; [done|]. exists ((a, v) :: copy). split; [rewrite fmap_cons; simpl; by f_equal | split].
      * intros x [->|Hx]%elem_of_cons; [done|].
        specialize (Hfresh x Hx). simpl in Hfresh.
        destruct (decide (x = last)) as [->|Hxl]; [by rewrite lookup_insert_eq in Hfresh |].
        rewrite lookup_insert_ne in Hfresh by done.
        destruct (decide (x = a)) as [->|Hxa]; [done|].
        by rewrite lookup_insert_ne in Hfresh.
      * rewrite insert_insert_eq in Hm'. by rewrite <- app_assoc in Hm'.
    + intros x Hx. destruct (Hun x Hx) as [[y Hy] Hnot]. split.
      * rewrite Hsame by done. eauto.
      * rewrite fmap_app. simpl. intros [Hin|Hin]%elem_of_app; [done|].
        apply elem_of_cons in Hin as [->|Hin]; [congruence | by apply elem_of_nil in Hin].
Qed.

Lemma MakeCopy_generic res (c : C) it0 vs m σ nr :
  (∀ it vs' m', src it vs' m' → length vs' ≤ coll_steps c m') →
  coll_begin c m = Ok (it0, m) → coll_end c m = Ok (end_it, m) →
  src it0 vs m → models σ m → σ !! res = Some ([], nr) →
  (∀ x, x ∈ untouched → is_Some (heap m !! x)) →
  wp (length vs) (MakeCopy res c) m (fun _ m' =>
    ∃ copy, copy.*2 = vs ∧ (∀ a, a ∈ copy.*1 → heap m !! a = None) ∧
            models (<[res := (copy, match vs with
                                    | [] => nr
                                    | _ => count_from 0 (length vs)
                                    end)]> σ) m').
Proof.
  intros src_steps Hbegin Hend Hsrc Hm E Hun.
  destruct (models_lookup _ _ _ _ _ Hm E) as (L & EL & Hc & Hs).
  unfold MakeCopy.
  apply wp_bind0. eapply wp_read; [exact Hbegin |].
  apply wp_bind0. eapply wp_read; [exact Hend |].
  destruct vs as [|v vs].
  - rewrite (src_nil _ _ Hsrc). apply wp_ret.
    exists []. split; [done | split].
    + intros a Ha. by apply elem_of_nil in Ha.
    + by rewrite insert_id.
  - destruct (src_cons _ _ _ _ Hsrc) as (Hne & Hderef & _).
    rewrite Hne. simpl length.
    apply wp_bind0. eapply wp_read; [exact Hderef |].
    apply wp_bind1. apply wp_new_Node. intros a Ha.
    apply wp_bind0. wp_head.
    set (m2 := mkMem (<[a := mkNode (Some v) nullptr]> (heap m))
                 (<[res := mkList (mkNode (value (head_ L)) (on_heap a)) (size_ L)]>
                    (objects m))).
    assert (∀ x, x ∈ untouched → heap m2 !! x = heap m !! x) as Hsame.
    { intros x Hx. destruct (Hun x Hx) as [y Hy]. simpl.
      rewrite lookup_insert_ne; [done | congruence]. }
    pose proof (src_stable _ _ _ m2 Hsrc Hsame) as Hsrc2.
    destruct (src_cons _ _ _ _ Hsrc2) as (_ & _ & it' & Hincr & Hsrc').
    apply wp_bind0. eapply wp_read; [exact Hincr |].
    apply wp_bind0. eapply wp_get_next_head; [simpl; apply lookup_insert_eq |]. simpl.
    assert (models (<[res := ([] ++ [(a, v)], nr)]> σ) m2) as Hm2.
    { unfold m2. apply (models_update σ m); simpl; try done.
      - intros x _ [y Hy]. rewrite lookup_insert_ne; [done | congruence].
      - split; [done|]. exists nullptr. by rewrite lookup_insert_eq.
      - intros x [->|Hx]%elem_of_cons; [auto | by apply elem_of_nil in Hx]. }
    apply wp_bind_last.
    apply (wp_at _ (fun m0 => MakeCopy_loop (coll_steps c m0) it' end_it (on_heap a)
                                (wrap (0 + 1)))).
    eapply wp_mono; [done | |
      eapply (MakeCopy_loop_spec res vs (coll_steps c m2) it' [] a v (wrap (0 + 1)) m2 _ nr
                (src_steps _ _ _ Hsrc') Hsrc' Hm2 (lookup_insert_eq _ _ _))].
    + intros size' m3 (-> & copy & Hvals & Hfresh & Hm3).
      destruct (models_lookup _ _ _ _ _ Hm3 (lookup_insert_eq _ _ _)) as (L3 & EL3 & Hc3 & Hs3).
      wp_head. simpl.
      exists ((a, v) :: copy). split; [rewrite fmap_cons; simpl; by f_equal | split].
      * intros x [->|Hx]%elem_of_cons; [done|].
        specialize (Hfresh x Hx). simpl in Hfresh.
        destruct (decide (x = a)) as [->|Hxa]; [by rewrite lookup_insert_eq in Hfresh |].
        by rewrite lookup_insert_ne in Hfresh.
      * rewrite insert_insert_eq in Hm3. simpl in Hm3.
        replace (<[res := ((a, v) :: copy, count_from (wrap (0 + 1)) (length vs))]> σ)
          with (<[res := ((a, v) :: copy, count_from (wrap (0 + 1)) (length vs))]>
                  (<[res := ((a, v) :: copy, nr)]> σ)) by apply insert_insert_eq.
        apply (models_update _ m3); simpl; try done.
        rewrite (cells_of_lookup _ _ _ _ (lookup_insert_eq _ _ _)). auto.
    + intros x Hx. split; [rewrite Hsame by done; auto |].
      simpl. intros [->|Hin]%elem_of_cons; [| by apply elem_of_nil in Hin].
      destruct (Hun _ Hx). congruence.
Qed.

End CopyLoop.

(** The two collections [MakeCopy] is instantiated with. *)

Lemma MakeCopy_list_spec σ m res other cs n nr :
  models σ m → σ !! res = Some ([], nr) → σ !! other = Some (cs, n) →
  wp (length cs) (MakeCopy res other) m (fun _ m' =>
    ∃ copy, copy.*2 = cs.*2 ∧ (∀ a, a ∈ copy.*1 → heap m !! a = None) ∧
            models (<[res := (copy, match cs with
                                    | [] => nr
                                    | _ => count_from 0 (length cs)
                                    end)]> σ) m').
Proof.
  intros Hm Er Eo.
  destruct (models_lookup _ _ _ _ _ Hm Eo) as (L & EL & Hc & Hs).
  pose (src := fun (it : BasicIterator) (vs : list Type_) (m0 : @Memory Type_) =>
          ∃ cs0, cs0.*2 = vs ∧ is_chain (heap m0) (node_ it) cs0 ∧
                 ∀ x, x ∈ cs0.*1 → x ∈ cs.*1).
  assert (wp (length cs.*2) (MakeCopy res other) m (fun _ m' =>
    ∃ copy, copy.*2 = cs.*2 ∧ (∀ a, a ∈ copy.*1 → heap m !! a = None) ∧
            models (<[res := (copy, match cs.*2 with
                                    | [] => nr
                                    | _ => count_from 0 (length cs.*2)
                                    end)]> σ) m')) as H.
  { eapply (MakeCopy_generic (HC := List_Collection) (cend other) (cs.*1) src) with
      (it0 := Iterator (next_node (head_ L))); try done.
    - intros it m0 (cs0 & Hvs & Hch & _).
      destruct cs0; [| done]. unfold is_chain in Hch. simpl in Hch.
      unfold coll_ne, List_Collection, iter_ne, cend, Iterator_default.
      rewrite Hch. done.
    - intros it v vs m0 (cs0 & Hvs & Hch & Hsub).
      destruct cs0 as [|[a w] cs0]; [done|].
      rewrite fmap_cons in Hvs. simpl in Hvs. injection Hvs as -> <-.
      unfold is_chain in Hch. simpl in Hch. destruct Hch as (Hit & nxt & Ea & Hrest).
      split; [| split].
      + unfold coll_ne, List_Collection, iter_ne, cend, Iterator_default.
        rewrite Hit. done.
      + unfold coll_deref, List_Collection, deref, get_value. rewrite Hit, Ea. done.
      + exists (Iterator nxt). split.
        * unfold coll_incr, List_Collection, pre_incr, bind, get_next. rewrite Hit, Ea. done.
        * exists cs0. split; [done | split; [done |]].
          intros x Hx. apply Hsub. by right.
    - intros it vs m0 m' (cs0 & Hvs & Hch & Hsub) Hsame.
      exists cs0. split; [done | split; [| done]].
      eapply is_seg_ext; [| exact Hch]. intros x Hx. apply Hsame. auto.
    - intros it vs m0 (cs0 & <- & Hch & _). rewrite length_fmap.
      simpl. unfold walk_bound. pose proof (is_chain_length _ _ _ Hch). lia.
    - simpl. unfold cbegin, bind, get_next. by rewrite EL.
    - exists cs. done.
    - intros x Hx. by eapply is_seg_lookup. }
  rewrite length_fmap in H. destruct cs; exact H.
Qed.

Lemma MakeCopy_init_spec σ m res (values : list Type_) nr :
  models σ m → σ !! res = Some ([], nr) →
  wp (length values) (MakeCopy res values) m (fun _ m' =>
    ∃ copy, copy.*2 = values ∧ (∀ a, a ∈ copy.*1 → heap m !! a = None) ∧
            models (<[res := (copy, match values with
                                    | [] => nr
                                    | _ => count_from 0 (length values)
                                    end)]> σ) m').
Proof.
  intros Hm Er.
  pose (src := fun (it : ArrayPtr) (vs : list Type_) (m0 : @Memory Type_) =>
          base it = values ∧ vs = drop (offset it) values ∧ offset it ≤ length values).
  eapply (MakeCopy_generic (HC := initializer_list_Collection)
            (mkArrayPtr values (length values)) [] src) with
    (it0 := mkArrayPtr values 0); try done.
  - intros it m0 (Hb & Hvs & Hle). simpl.
    symmetry in Hvs. apply (f_equal length) in Hvs. rewrite length_drop in Hvs.
    simpl in Hvs. assert (offset it = length values) as -> by lia.
    by rewrite Nat.eqb_refl.
  - intros it v vs m0 (Hb & Hvs & Hle).
    assert (values !! offset it = Some v) as Hv.
    { rewrite <- (Nat.add_0_r (offset it)), <- lookup_drop, <- Hvs. done. }
    pose proof (lookup_lt_Some _ _ _ Hv) as Hlt.
    split; [| split].
    + simpl. apply negb_true_iff, Nat.eqb_neq. lia.
    + simpl. rewrite Hb, Hv. done.
    + exists (mkArrayPtr (base it) (S (offset it))). split; [done|].
      split; [done | split; [| simpl; lia]]. simpl.
      replace (S (offset it)) with (offset it + 1) by lia.
      rewrite <- drop_drop, <- Hvs. done.
  - intros it vs m0 (Hb & -> & Hle). simpl. rewrite length_drop. lia.
  - split; [done | split; [done | simpl; lia]].
  - intros x Hx. by apply elem_of_nil in Hx.
Qed.

Ltac same_map :=
  apply map_eq; intros ?;
  repeat first [rewrite lookup_delete | rewrite lookup_insert];
  repeat case_decide; simplify_eq; try done; congruence.

Lemma count_from_nil_or (cs : list (positive * Type_)) :
  match cs with [] => 0%Z | _ => count_from 0 (length cs) end = count_from 0 (length cs).
Proof. by destruct cs. Qed.

Lemma assign_spec σ m junk this rhs ct nt cr nr :
  models σ m → this ≠ rhs →
  σ !! this = Some (ct, nt) → σ !! rhs = Some (cr, nr) →
  wp (length cr) (assign junk this rhs) m (fun _ m' =>
    ∃ copy, copy.*2 = cr.*2 ∧ (∀ a, a ∈ copy.*1 → heap m !! a = None) ∧
            models (<[this := (copy, count_from 0 (length cr))]> σ) m').
Proof.
  intros Hm Hne Et Er. unfold assign. rewrite decide_True by done.
  apply wp_bind0. eapply wp_mono; [done | | by apply SingleLinkedList_default_spec].
  intros l m1 (Hfresh & Hheap & Hm1). simpl in *.
  pose proof (models_fresh _ _ _ Hm Hfresh) as Hl.
  assert (l ≠ this) as Hlt by congruence.
  assert (l ≠ rhs) as Hlr by congruence.
  apply wp_bind_last.
  eapply wp_mono; [done | | eapply (MakeCopy_list_spec _ m1 l rhs cr nr 0%Z Hm1)].
  - intros ? m2 (copy & Hvals & Hnew & Hm2). simpl in Hm2.
    rewrite count_from_nil_or in Hm2.
    apply wp_bind0.
    eapply wp_mono; [done | | eapply (swap_spec _ m2 this l ct nt _ _ Hm2)].
    + intros ? m3 (_ & Hm3). simpl in Hm3.
      eapply wp_mono; [done | | eapply (destroy_spec _ m3 l ct nt Hm3)].
      * intros ? m4 Hm4. simpl in Hm4.
        exists copy. split; [done | split; [by rewrite <- Hheap |]].
        replace (<[this := (copy, count_from 0 (length cr))]> σ) with
          (delete l (<[this := (copy, count_from 0 (length cr))]>
                       (<[l := (ct, nt)]>
                          (<[l := (copy, count_from 0 (length cr))]>
                             (<[l := ([], 0%Z)]> σ))))); [done|].
        same_map.
      * rewrite lookup_insert_ne by done. apply lookup_insert_eq.
    + rewrite !lookup_insert_ne by done. exact Et.
    + apply lookup_insert_eq.
  - apply lookup_insert_eq.
  - rewrite lookup_insert_ne by done. exact Er.
Qed.

Lemma assign_self junk this m : assign junk this this m = Ok (tt, m).
Proof. unfold assign. by rewrite decide_False by auto. Qed.

Lemma SingleLinkedList_init_spec σ m junk (values : list Type_) :
  models σ m →
  wp (length values) (SingleLinkedList_init junk values) m (fun this m' =>
    objects m !! this = None ∧
    ∃ copy, copy.*2 = values ∧ (∀ a, a ∈ copy.*1 → heap m !! a = None) ∧
            models (<[this := (copy, count_from 0 (length values))]> σ) m').
Proof.
  intros Hm. unfold SingleLinkedList_init.
  apply wp_bind0. eapply wp_mono; [done | | by apply storage_spec].
  intros this m0 (Hthis & Hheap0 & Hm0). simpl in *.
  apply wp_bind0. eapply wp_mono; [done | | by apply SingleLinkedList_default_spec].
  intros l m1 (Hfresh & Hheap & Hm1). simpl in *.
  pose proof (models_fresh _ _ _ Hm0 Hfresh) as Hl.
  assert (l ≠ this) as Hlt. { intros ->. by rewrite lookup_insert_eq in Hl. }
  rewrite lookup_insert_ne in Hl by done.
  pose proof (models_fresh _ _ _ Hm Hthis) as Hthis'.
  apply wp_bind_last.
  eapply wp_mono; [done | | eapply (MakeCopy_init_spec _ m1 l values 0%Z Hm1)].
  - intros ? m2 (copy & Hvals & Hnew & Hm2). simpl in Hm2.
    assert (match values with [] => 0%Z | _ => count_from 0 (length values) end
            = count_from 0 (length values)) as Hk by (by destruct values).
    rewrite Hk in Hm2.
    apply wp_bind0.
    eapply wp_mono; [done | | eapply (swap_spec _ m2 this l [] junk _ _ Hm2)].
    + intros ? m3 (_ & Hm3). simpl in Hm3.
      apply wp_bind0.
      eapply wp_mono; [done | | eapply (destroy_spec _ m3 l [] junk Hm3)].
      * intros ? m4 Hm4. simpl in Hm4. apply wp_ret.
        split; [done|].
        exists copy. split; [done | split; [by rewrite <- Hheap0, <- Hheap |]].
        replace (<[this := (copy, count_from 0 (length values))]> σ) with
          (delete l (<[this := (copy, count_from 0 (length values))]>
                       (<[l := ([], junk)]>
                          (<[l := (copy, count_from 0 (length values))]>
                             (<[l := ([], 0%Z)]> (<[this := ([], junk)]> σ)))))); [done|].
        same_map.
      * rewrite lookup_insert_ne by done. apply lookup_insert_eq.
    + rewrite !lookup_insert_ne by done. apply lookup_insert_eq.
    + apply lookup_insert_eq.
  - apply lookup_insert_eq.
Qed.

Lemma SingleLinkedList_copy_spec σ m junk other cr nr :
  models σ m → σ !! other = Some (cr, nr) →
  wp (length cr) (SingleLinkedList_copy junk other) m (fun this m' =>
    objects m !! this = None ∧
    ∃ copy, copy.*2 = cr.*2 ∧ (∀ a, a ∈ copy.*1 → heap m !! a = None) ∧
            models (<[this := (copy, count_from 0 (length cr))]> σ) m').
Proof.
  intros Hm Eo. unfold SingleLinkedList_copy.
  apply wp_bind0. eapply wp_mono; [done | | by apply storage_spec].
  intros this m0 (Hthis & Hheap0 & Hm0). simpl in *.
  apply wp_bind0. eapply wp_mono; [done | | by apply SingleLinkedList_default_spec].
  intros l m1 (Hfresh & Hheap & Hm1). simpl in *.
  pose proof (models_fresh _ _ _ Hm0 Hfresh) as Hl.
  assert (l ≠ this) as Hlt. { intros ->. by rewrite lookup_insert_eq in Hl. }
  rewrite lookup_insert_ne in Hl by done.
  pose proof (models_fresh _ _ _ Hm Hthis) as Hthis'.
  assert (other ≠ this) as Hot by congruence.
  assert (l ≠ other) as Hlo by congruence.
  apply wp_bind_last.
  eapply wp_mono; [done | | eapply (assign_spec _ m1 junk l other [] 0%Z cr nr Hm1 Hlo)].
  - intros ? m2 (copy & Hvals & Hnew & Hm2). simpl in Hm2.
    apply wp_bind0.
    eapply wp_mono; [done | | eapply (swap_spec _ m2 this l [] junk _ _ Hm2)].
    + intros ? m3 (_ & Hm3). simpl in Hm3.
      apply wp_bind0.
      eapply wp_mono; [done | | eapply (destroy_spec _ m3 l [] junk Hm3)].
      * intros ? m4 Hm4. simpl in Hm4. apply wp_ret.
        split; [done|].
        exists copy. split; [done | split; [by rewrite <- Hheap0, <- Hheap |]].
        replace (<[this := (copy, count_from 0 (length cr))]> σ) with
          (delete l (<[this := (copy, count_from 0 (length cr))]>
                       (<[l := ([], junk)]>
                          (<[l := (copy, count_from 0 (length cr))]>
                             (<[l := ([], 0%Z)]> (<[this := ([], junk)]> σ)))))); [done|].
        same_map.
      * rewrite lookup_insert_ne by done. apply lookup_insert_eq.
    + rewrite !lookup_insert_ne by done. apply lookup_insert_eq.
    + apply lookup_insert_eq.
  - apply lookup_insert_eq.
  - rewrite !lookup_insert_ne by done. exact Eo.
Qed.

(** ** Walking a chain *)

Lemma nodes_from_chain m cs : ∀ fuel p,
  is_chain (heap m) p cs → length cs ≤ fuel →
  nodes_from fuel p m = Ok (on_heap <$> cs.*1, m).
Proof.
  unfold is_chain. induction cs as [|[a v] cs IH]; intros fuel p Hc Hfuel; simpl in *.
  - subst p. by destruct fuel.
  - destruct Hc as (-> & nxt & Ea & Hrest).
    destruct fuel as [|fuel]; [lia|]. simpl.
    unfold bind, get_next. rewrite Ea. simpl.
    rewrite (IH fuel nxt) by (done || lia). done.
Qed.

Lemma traverse_from_chain m cs : ∀ fuel p,
  is_chain (heap m) p cs → length cs ≤ fuel →
  traverse_from fuel (Iterator p) Iterator_default m = Ok (cs.*2, m).
Proof.
  unfold is_chain. induction cs as [|[a v] cs IH]; intros fuel p Hc Hfuel; simpl in *.
  - subst p. by destruct fuel.
  - destruct Hc as (-> & nxt & Ea & Hrest).
    destruct fuel as [|fuel]; [lia|]. simpl.
    unfold bind, deref, pre_incr, bind, get_value, get_next, ret. simpl.
    repeat (rewrite Ea; simpl).
    rewrite (IH fuel nxt) by (done || lia). done.
Qed.

Lemma models_walk_bound σ m l cs n :
  models σ m → σ !! l = Some (cs, n) → length cs ≤ walk_bound m.
Proof.
  intros Hm E. destruct (models_lookup _ _ _ _ _ Hm E) as (L & EL & Hc & Hs).
  pose proof (is_chain_length _ _ _ Hc). unfold walk_bound. lia.
Qed.

Lemma models_traversal σ m l cs n :
  models σ m → σ !! l = Some (cs, n) → traversal l m = Ok (cs.*2, m).
Proof.
  intros Hm E. destruct (models_lookup _ _ _ _ _ Hm E) as (L & EL & Hc & Hs).
  unfold traversal, begin, bind, get_next, ret, end_. rewrite EL.
  apply traverse_from_chain; [done | by eapply models_walk_bound].
Qed.

Lemma models_nodes_reached σ m l cs n :
  models σ m → σ !! l = Some (cs, n) →
  nodes_reached l m = Ok (on_heap <$> cs.*1, m).
Proof.
  intros Hm E. destruct (models_lookup _ _ _ _ _ Hm E) as (L & EL & Hc & Hs).
  unfold nodes_reached, bind, get_next. rewrite EL.
  apply nodes_from_chain; [done | by eapply models_walk_bound].
Qed.

Lemma models_GetSize σ m l cs n :
  models σ m → σ !! l = Some (cs, n) → GetSize l m = Ok (n, m).
Proof.
  intros Hm E. destruct (models_lookup _ _ _ _ _ Hm E) as (L & EL & Hc & Hs).
  unfold GetSize, get_size. by rewrite EL, Hs.
Qed.

Lemma models_begin σ m l cs n :
  models σ m → σ !! l = Some (cs, n) → begin l m = Ok (Iterator (chain_head cs), m).
Proof.
  intros Hm E. destruct (models_lookup _ _ _ _ _ Hm E) as (L & EL & Hc & Hs).
  unfold begin, bind, get_next, ret. rewrite EL. by rewrite (is_chain_head _ _ _ Hc).
Qed.

Lemma models_alive σ m l : models σ m → is_Some (objects m !! l) → is_Some (σ !! l).
Proof. intros (H & _). apply H. Qed.

(** An iterator at a real node splits the list around that node. *)
Lemma at_node_anchored σ m this pos cs n :
  models σ m → σ !! this = Some (cs, n) → at_node m this pos →
  ∃ cs1 b w cs_post, cs = (cs1 ++ [(b, w)]) ++ cs_post ∧ node_ pos = on_heap b.
Proof.
  intros Hm E (ns & Hns & Hin).
  rewrite (models_nodes_reached _ _ _ _ _ Hm E) in Hns. injection Hns as <-.
  apply list_elem_of_fmap in Hin as (b & Hb & Hin).
  apply list_elem_of_fmap in Hin as ([b' w] & Hb' & Hin). simpl in Hb'. subst b'.
  apply list_elem_of_split in Hin as (cs1 & cs_post & ->).
  exists cs1, b, w, cs_post. split; [by rewrite <- app_assoc | done].
Qed.

Lemma pos_anchored σ m this pos cs n :
  models σ m → σ !! this = Some (cs, n) →
  pos = before_begin this ∨ at_node m this pos →
  ∃ cs_pre cs_post, cs = cs_pre ++ cs_post ∧ anchored this pos cs_pre.
Proof.
  intros Hm E [-> | Hat].
  - exists [], cs. split; [done|]. by left.
  - destruct (at_node_anchored _ _ _ _ _ _ Hm E Hat) as (cs1 & b & w & cs_post & -> & Hb).
    exists (cs1 ++ [(b, w)]), cs_post. split; [done|]. right. eauto.
Qed.

(** Erasing after the last node (or in an empty list) is undefined. *)
Lemma EraseAfter_last σ m this pos cs_pre n :
  models σ m → σ !! this = Some (cs_pre, n) → anchored this pos cs_pre →
  EraseAfter this pos m = Err undefined_behaviour.
Proof.
  intros Hm E Hpos. destruct (models_lookup _ _ _ _ _ Hm E) as (L & EL & Hc & Hs).
  unfold EraseAfter, bind.
  destruct Hpos as [[-> ->] | (cs1 & b & w & -> & ->)].
  - unfold get_next. rewrite EL. unfold is_chain in Hc. simpl in Hc. by rewrite Hc.
  - apply is_seg_snoc in Hc as (_ & Eb).
    unfold get_next. rewrite Eb. done.
Qed.

Lemma set_value_spec σ m this pos cs1 b w cs_post n v :
  models σ m → σ !! this = Some ((cs1 ++ [(b, w)]) ++ cs_post, n) → node_ pos = on_heap b →
  wp 0 (set_value (node_ pos) v) m (fun _ m' =>
    models (<[this := ((cs1 ++ [(b, v)]) ++ cs_post, n)]> σ) m').
Proof.
  intros Hm E ->. destruct (models_lookup _ _ _ _ _ Hm E) as (L & EL & Hc & Hs).
  pose proof (is_chain_NoDup _ _ _ Hc) as Hnd.
  rewrite !fmap_app in Hnd. simpl in Hnd.
  apply NoDup_snoc_app in Hnd as (Hb1 & Hb2 & _).
  pose proof Hc as Hc'. apply is_seg_app in Hc' as (r & Hpre & Hpost).
  apply is_seg_snoc in Hpre as (Hcs1 & Eb).
  unfold wp, set_value, heap_bounded. rewrite Eb. simpl.
  rewrite map_size_insert_Some by eauto.
  split; [lia | split; [done |]].
  assert (<[this := L]> (objects m) = objects m) as Hobj by (by apply insert_id).
  rewrite <- Hobj.
  apply (models_update σ m); simpl; try done.
  - rewrite (cells_of_lookup _ _ _ _ E). rewrite !fmap_app. simpl.
    intros x Hx _. rewrite lookup_insert_ne; [done|].
    intros <-. apply Hx. apply elem_of_app. left. apply elem_of_app. right. left.
  - unfold is_chain. apply is_seg_app. exists r. split.
    + apply is_seg_snoc. split; [| apply lookup_insert_eq].
      eapply is_seg_ext; [| exact Hcs1].
      intros x Hx. rewrite lookup_insert_ne; [done|]. by intros <-.
    + eapply is_seg_ext; [| exact Hpost].
      intros x Hx. rewrite lookup_insert_ne; [done|]. by intros <-.
  - rewrite (cells_of_lookup _ _ _ _ E). rewrite !fmap_app. simpl. auto.
Qed.

(** ** Every call keeps the invariant *)

Lemma wp_inv k {A} (c : M A) m post x m' :
  wp k c m post → c m = Ok (x, m') → heap_bounded m → heap_bounded m' ∧ post x m'.
Proof. unfold wp. intros H E. rewrite E in H. tauto. Qed.

Lemma bind_ret_tt_inv {A} (c : M A) m m' :
  (c ;; ret tt) m = Ok (tt, m') → ∃ x, c m = Ok (x, m').
Proof.
  unfold bind, ret. destruct (c m) as [[x m1]|]; [| done].
  intros [= ->]. eauto.
Qed.

Lemma models_length_bound σ m l cs n :
  models σ m → heap_bounded m → σ !! l = Some (cs, n) →
  (Z.of_nat (length cs) ≤ SIZE_MAX)%Z.
Proof.
  intros Hm Hb E. destruct (models_lookup _ _ _ _ _ Hm E) as (L & EL & Hc & Hs).
  pose proof (is_chain_length _ _ _ Hc). unfold heap_bounded in Hb. lia.
Qed.

Lemma counted_insert σ m' this cs' n' :
  models (<[this := (cs', n')]> σ) m' → heap_bounded m' → counted σ →
  ((Z.of_nat (length cs') ≤ SIZE_MAX)%Z → n' = Z.of_nat (length cs')) →
  counted (<[this := (cs', n')]> σ).
Proof.
  intros Hm Hb Hcnt Hn l cs n. destruct (decide (l = this)) as [->|Hne].
  - rewrite lookup_insert_eq. intros [= <- <-]. apply Hn.
    eapply models_length_bound; [exact Hm | done | apply lookup_insert_eq].
  - rewrite lookup_insert_ne by done. apply Hcnt.
Qed.

Lemma count_from_length k :
  (Z.of_nat k ≤ SIZE_MAX)%Z → count_from 0 k = Z.of_nat k.
Proof. intros H. rewrite count_from_small; lia. Qed.

Lemma frame_insert (σ : gmap positive (list (positive * Type_) * Z)) this x (ts : list positive) :
  this ∈ ts →
  ∀ l, l ∉ ts → is_Some (σ !! l) → <[this := x]> σ !! l = σ !! l.
Proof. intros Hin l Hl _. rewrite lookup_insert_ne; [done|]. by intros <-. Qed.

Lemma frame_insert_fresh (σ : gmap positive (list (positive * Type_) * Z)) this x
    (ts : list positive) :
  σ !! this = None →
  ∀ l, l ∉ ts → is_Some (σ !! l) → <[this := x]> σ !! l = σ !! l.
Proof.
  intros Hnone l _ [y Hy]. rewrite lookup_insert_ne; [done|]. intros <-. congruence.
Qed.

Lemma step_models σ m c m' :
  heap_bounded m → models σ m → counted σ → allowed m c → run c m = Ok (tt, m') →
  heap_bounded m' ∧
  ∃ σ', models σ' m' ∧ counted σ' ∧
        ∀ l, l ∉ targets c → is_Some (σ !! l) → σ' !! l = σ !! l.
Proof.
  intros Hb Hm Hcnt [Halive Hpre] Hrun.
  assert (∀ l, l ∈ operands c → ∃ cs, σ !! l = Some (cs, Z.of_nat (length cs))) as Hops.
  { intros l Hl. destruct (models_alive _ _ _ Hm (Halive l Hl)) as [[cs n] E].
    exists cs. by rewrite (Hcnt _ _ _ E) in E. }
  destruct c as [junk | junk values | junk other | junk this rhs | this | this v | this
                | this | this pos v | this pos | this other | this other | this pos v];
    simpl in *.
  - (* SingleLinkedList() *)
    apply bind_ret_tt_inv in Hrun as (l & Hrun).
    destruct (wp_inv _ _ _ _ _ _ (SingleLinkedList_default_spec σ m junk Hm) Hrun Hb)
      as (Hb' & Hfresh & _ & Hm').
    split; [done|]. eexists. split; [exact Hm' | split].
    + eapply counted_insert; eauto.
    + apply frame_insert_fresh. by eapply models_fresh.
  - (* SingleLinkedList(values) *)
    apply bind_ret_tt_inv in Hrun as (l & Hrun).
    destruct (wp_inv _ _ _ _ _ _ (SingleLinkedList_init_spec σ m junk values Hm) Hrun Hb)
      as (Hb' & Hfresh & copy & Hvals & _ & Hm').
    split; [done|]. eexists. split; [exact Hm' | split].
    + eapply counted_insert; eauto.
      rewrite <- Hvals, length_fmap. apply count_from_length.
    + apply frame_insert_fresh. by eapply models_fresh.
  - (* SingleLinkedList(other) *)
    apply bind_ret_tt_inv in Hrun as (l & Hrun).
    destruct (Hops other) as (cr & Eo); [left|].
    destruct (wp_inv _ _ _ _ _ _ (SingleLinkedList_copy_spec σ m junk other _ _ Hm Eo) Hrun Hb)
      as (Hb' & Hfresh & copy & Hvals & _ & Hm').
    split; [done|]. eexists. split; [exact Hm' | split].
    + eapply counted_insert; eauto.
      apply (f_equal length) in Hvals. rewrite !length_fmap in Hvals. rewrite <- Hvals.
      apply count_from_length.
    + apply frame_insert_fresh. by eapply models_fresh.
  - (* operator= *)
    destruct (decide (this = rhs)) as [->|Hne].
    + rewrite assign_self in Hrun. injection Hrun as <-.
      split; [done|]. exists σ. auto.
    + destruct (Hops this) as (ct & Et); [left|].
      destruct (Hops rhs) as (cr & Er); [right; left|].
      destruct (wp_inv _ _ _ _ _ _ (assign_spec σ m junk this rhs _ _ _ _ Hm Hne Et Er) Hrun Hb)
        as (Hb' & copy & Hvals & _ & Hm').
      split; [done|]. eexists. split; [exact Hm' | split].
      * eapply counted_insert; eauto.
        apply (f_equal length) in Hvals. rewrite !length_fmap in Hvals. rewrite <- Hvals.
        apply count_from_length.
      * apply frame_insert. left.
  - (* destructor *)
    destruct (Hops this) as (ct & Et); [left|].
    destruct (wp_inv _ _ _ _ _ _ (destroy_spec σ m this _ _ Hm Et) Hrun Hb) as (Hb' & Hm').
    split; [done|]. eexists. split; [exact Hm' | split].
    + intros l cs n [_ E]%lookup_delete_Some. by apply Hcnt in E.
    + intros l Hl _. rewrite lookup_delete_ne; [done|]. intros <-. apply Hl. left.
  - (* PushFront *)
    destruct (Hops this) as (ct & Et); [left|].
    destruct (wp_inv _ _ _ _ _ _ (PushFront_spec σ m this _ _ v Hm Et) Hrun Hb)
      as (Hb' & a & _ & Hm').
    split; [done|]. eexists. split; [exact Hm' | split].
    + eapply counted_insert; eauto. simpl. intros Hlen. rewrite wrap_small; lia.
    + apply frame_insert. left.
  - (* PopFront *)
    destruct (Hops this) as (ct & Et); [left|].
    destruct (wp_inv _ _ _ _ _ _ (PopFront_spec σ m this _ _ Hm Et) Hrun Hb) as (Hb' & Hm').
    split; [done|]. destruct ct as [|x ct].
    + subst m'. exists σ. auto.
    + eexists. split; [exact Hm' | split].
      * eapply counted_insert; eauto. simpl. intros Hlen. rewrite wrap_small; lia.
      * apply frame_insert. left.
  - (* Clear *)
    destruct (Hops this) as (ct & Et); [left|].
    destruct (wp_inv _ _ _ _ _ _ (Clear_spec σ m this _ _ Hm Et) Hrun Hb) as (Hb' & Hm').
    split; [done|]. eexists. split; [exact Hm' | split].
    + eapply counted_insert; eauto.
    + apply frame_insert. left.
  - (* InsertAfter *)
    apply bind_ret_tt_inv in Hrun as (it & Hrun).
    destruct (Hops this) as (ct & Et); [left|].
    destruct (pos_anchored _ _ _ _ _ _ Hm Et Hpre) as (cs_pre & cs_post & -> & Hanch).
    destruct (wp_inv _ _ _ _ _ _ (InsertAfter_spec σ m this pos _ _ _ v Hm Et Hanch) Hrun Hb)
      as (Hb' & a & _ & _ & Hm').
    split; [done|]. eexists. split; [exact Hm' | split].
    + eapply counted_insert; eauto. rewrite !length_app. simpl.
      intros Hlen. rewrite wrap_small; lia.
    + apply frame_insert. left.
  - (* EraseAfter *)
    apply bind_ret_tt_inv in Hrun as (it & Hrun).
    destruct (Hops this) as (ct & Et); [left|].
    destruct (pos_anchored _ _ _ _ _ _ Hm Et Hpre) as (cs_pre & cs_post & -> & Hanch).
    destruct cs_post as [|[c u] cs_post].
    { rewrite app_nil_r in Et.
      rewrite (EraseAfter_last _ _ _ _ _ _ Hm Et Hanch) in Hrun. done. }
    destruct (wp_inv _ _ _ _ _ _ (EraseAfter_spec σ m this pos _ _ _ _ _ Hm Et Hanch) Hrun Hb)
      as (Hb' & _ & Hm').
    split; [done|]. eexists. split; [exact Hm' | split].
    + eapply counted_insert; eauto. rewrite !length_app. simpl.
      intros Hlen. rewrite wrap_small; lia.
    + apply frame_insert. left.
  - (* swap *)
    destruct (Hops this) as (ct & Et); [left|].
    destruct (Hops other) as (co & Eo); [right; left|].
    destruct (wp_inv _ _ _ _ _ _ (swap_spec σ m this other _ _ _ _ Hm Et Eo) Hrun Hb)
      as (Hb' & _ & Hm').
    split; [done|]. eexists. split; [exact Hm' | split].
    + intros l cs n. destruct (decide (l = this)) as [->|N1].
      { rewrite lookup_insert_eq. by intros [= <- <-]. }
      rewrite lookup_insert_ne by done.
      destruct (decide (l = other)) as [->|N2].
      { rewrite lookup_insert_eq. by intros [= <- <-]. }
      rewrite lookup_insert_ne by done. apply Hcnt.
    + intros l Hl _. rewrite !lookup_insert_ne; [done | |].
      * intros <-. apply Hl. right. left.
      * intros <-. apply Hl. left.
  - (* free swap *)
    unfold free_swap in Hrun.
    destruct (Hops this) as (ct & Et); [left|].
    destruct (Hops other) as (co & Eo); [right; left|].
    destruct (wp_inv _ _ _ _ _ _ (swap_spec σ m this other _ _ _ _ Hm Et Eo) Hrun Hb)
      as (Hb' & _ & Hm').
    split; [done|]. eexists. split; [exact Hm' | split].
    + intros l cs n. destruct (decide (l = this)) as [->|N1].
      { rewrite lookup_insert_eq. by intros [= <- <-]. }
      rewrite lookup_insert_ne by done.
      destruct (decide (l = other)) as [->|N2].
      { rewrite lookup_insert_eq. by intros [= <- <-]. }
      rewrite lookup_insert_ne by done. apply Hcnt.
    + intros l Hl _. rewrite !lookup_insert_ne; [done | |].
      * intros <-. apply Hl. right. left.
      * intros <-. apply Hl. left.
  - (* store through an iterator *)
    destruct (Hops this) as (ct & Et); [left|].
    destruct (at_node_anchored _ _ _ _ _ _ Hm Et Hpre) as (cs1 & b & w & cs_post & -> & Hnode).
    destruct (wp_inv _ _ _ _ _ _ (set_value_spec σ m this pos _ _ _ _ _ v Hm Et Hnode) Hrun Hb)
      as (Hb' & Hm').
    split; [done|]. eexists. split; [exact Hm' | split].
    + eapply counted_insert; eauto. intros _.
      rewrite !length_app. simpl. done.
    + apply frame_insert. left.
Qed.

Lemma wf_empty : wf (@empty_memory Type_).
Proof.
  split; [unfold heap_bounded; simpl; rewrite map_size_empty; unfold SIZE_MAX; lia |].
  exists ∅. split; [| by intros l cs n; rewrite lookup_empty].
  split; [| split].
  - intros l. simpl. rewrite lookup_empty. by intros [? ?].
  - intros l cs n. by rewrite lookup_empty.
  - intros l1 l2 cs1 n1 cs2 n2 _. by rewrite lookup_empty.
Qed.

Lemma reachable_wf m : reachable m → wf m.
Proof.
  induction 1 as [|m c m' _ IH Hall Hrun]; [apply wf_empty |].
  destruct IH as (Hb & σ & Hm & Hcnt).
  destruct (step_models σ m c m' Hb Hm Hcnt Hall Hrun) as (Hb' & σ' & Hm' & Hcnt' & _).
  split; [done|]. eauto.
Qed.

(** ** Comparing two lists *)

Lemma get_next_read p m q m' : get_next p m = Ok (q, m') → m' = m.
Proof.
  unfold get_next. destruct p as [|l|a]; [done | |].
  - destruct (objects m !! l); [| done]. by intros [= _ <-].
  - destruct (heap m !! a); [| done]. by intros [= _ <-].
Qed.

Lemma get_value_read p m v m' : get_value p m = Ok (v, m') → m' = m.
Proof.
  unfold get_value. destruct p as [|l|a]; [done | |].
  - destruct (objects m !! l) as [L|]; [| done]. destruct (value (head_ L)); [| done].
    by intros [= _ <-].
  - destruct (heap m !! a) as [n|]; [| done]. destruct (value n); [| done].
    by intros [= _ <-].
Qed.

Lemma iter_ne_null p : iter_ne (Iterator p) Iterator_default = negb (bool_decide (p = nullptr)).
Proof. done. Qed.

Lemma iter_eq_null p : iter_eq (Iterator p) Iterator_default = bool_decide (p = nullptr).
Proof. done. Qed.

Lemma traverse_from_walks fuel : ∀ p m vs m',
  traverse_from fuel (Iterator p) Iterator_default m = Ok (vs, m') →
  m' = m ∧ walks m p vs ∧ length vs ≤ fuel.
Proof.
  induction fuel as [|fuel IH]; intros p m vs m'; simpl; rewrite iter_ne_null;
    case_bool_decide as Hp; simpl; try done.
  - intros [= <- <-]. simpl. auto with lia.
  - intros [= <- <-]. simpl. auto with lia.
  - unfold bind at 1. unfold deref. simpl.
    destruct (get_value p m) as [[v m1]|] eqn:Ev; [| done].
    pose proof (get_value_read _ _ _ _ Ev) as ->.
    unfold bind at 1. unfold pre_incr, bind at 1. simpl.
    destruct (get_next p m) as [[q m1]|] eqn:Eq; [| done].
    pose proof (get_next_read _ _ _ _ Eq) as ->.
    unfold ret at 1. unfold bind.
    destruct (traverse_from fuel (Iterator q) Iterator_default m) as [[rest m1]|] eqn:Er;
      [| done].
    apply IH in Er as (-> & Hw & Hlen).
    unfold ret. intros [= <- <-]. simpl. split; [done | split; [eauto 10 | lia]].
Qed.

Lemma traversal_inv l m vs m' :
  traversal l m = Ok (vs, m') →
  m' = m ∧ ∃ p, cbegin l m = Ok (Iterator p, m) ∧ walks m p vs ∧ length vs ≤ walk_bound m.
Proof.
  unfold traversal, begin, cbegin. unfold bind at 1. unfold bind at 1.
  destruct (get_next (head_of l) m) as [[p m1]|] eqn:Ep; [| done].
  pose proof (get_next_read _ _ _ _ Ep) as ->. unfold ret at 1.
  intros H. apply traverse_from_walks in H as (-> & Hw & Hlen).
  split; [done|]. exists p. unfold bind. rewrite Ep. done.
Qed.

Section Comparing.
Context (Type_eq Type_lt : Type_ → Type_ → bool).

Lemma std_equal_unfold fuel first1 last1 first2 last2 :
  std_equal Type_eq fuel first1 last1 first2 last2 =
  if iter_ne first1 last1 && iter_ne first2 last2 then
    match fuel with
    | O => fail nontermination
    | S fuel' =>
        do a <- deref first1;
        do b <- deref first2;
        if negb (Type_eq a b) then ret false
        else
          do first1 <- pre_incr first1;
          do first2 <- pre_incr first2;
          std_equal Type_eq fuel' first1 last1 first2 last2
    end
  else ret (iter_eq first1 last1 && iter_eq first2 last2).
Proof. by destruct fuel. Qed.

Lemma std_lexicographical_compare_unfold fuel first1 last1 first2 last2 :
  std_lexicographical_compare Type_lt fuel first1 last1 first2 last2 =
  if iter_ne first1 last1 && iter_ne first2 last2 then
    match fuel with
    | O => fail nontermination
    | S fuel' =>
        do a <- deref first1;
        do b <- deref first2;
        if Type_lt a b then ret true
        else if Type_lt b a then ret false
        else
          do first1 <- pre_incr first1;
          do first2 <- pre_incr first2;
          std_lexicographical_compare Type_lt fuel' first1 last1 first2 last2
    end
  else ret (iter_eq first1 last1 && iter_ne first2 last2).
Proof. by destruct fuel. Qed.

Lemma walks_null_iff m p vs : walks m p vs → bool_decide (p = nullptr) = bool_decide (vs = []).
Proof.
  destruct vs; simpl.
  - intros ->. done.
  - intros (Hp & _). by rewrite !bool_decide_eq_false_2.
Qed.

Lemma std_equal_walks m : ∀ xs ys fuel p q,
  walks m p xs → walks m q ys → length xs ≤ fuel →
  std_equal Type_eq fuel (Iterator p) Iterator_default (Iterator q) Iterator_default m
  = Ok (elements_equal Type_eq xs ys, m).
Proof.
  induction xs as [|x xs IH]; intros ys fuel p q Hx Hy Hfuel;
    rewrite std_equal_unfold, !iter_ne_null, !iter_eq_null;
    rewrite (walks_null_iff _ _ _ Hx), (walks_null_iff _ _ _ Hy).
  - destruct ys; done.
  - destruct ys as [|y ys]; [done|].
    simpl in Hx, Hy. destruct Hx as (Hp & Evx & p' & Enx & Hx).
    destruct Hy as (Hq & Evy & q' & Eny & Hy).
    destruct fuel as [|fuel]; [simpl in Hfuel; lia |].
    rewrite !bool_decide_eq_false_2 by done. cbn [negb andb].
    unfold bind at 1. unfold deref at 1. cbn [node_]. rewrite Evx.
    unfold bind at 1. unfold deref at 1. cbn [node_]. rewrite Evy.
    simpl elements_equal.
    destruct (Type_eq x y); simpl; [| done].
    unfold bind at 1. unfold pre_incr at 1, bind at 1. cbn [node_]. rewrite Enx.
    unfold ret at 1.
    unfold bind at 1. unfold pre_incr at 1, bind at 1. cbn [node_]. rewrite Eny.
    unfold ret at 1.
    apply IH; [done | done | simpl in Hfuel; lia].
Qed.

Lemma std_lexicographical_compare_walks m : ∀ xs ys fuel p q,
  walks m p xs → walks m q ys → length xs ≤ fuel →
  std_lexicographical_compare Type_lt fuel
    (Iterator p) Iterator_default (Iterator q) Iterator_default m
  = Ok (lex_compare Type_lt xs ys, m).
Proof.
  induction xs as [|x xs IH]; intros ys fuel p q Hx Hy Hfuel;
    rewrite std_lexicographical_compare_unfold, !iter_ne_null, !iter_eq_null;
    rewrite (walks_null_iff _ _ _ Hx), (walks_null_iff _ _ _ Hy).
  - destruct ys; done.
  - destruct ys as [|y ys]; [done|].
    simpl in Hx, Hy. destruct Hx as (Hp & Evx & p' & Enx & Hx).
    destruct Hy as (Hq & Evy & q' & Eny & Hy).
    destruct fuel as [|fuel]; [simpl in Hfuel; lia |].
    rewrite !bool_decide_eq_false_2 by done. cbn [negb andb].
    unfold bind at 1. unfold deref at 1. cbn [node_]. rewrite Evx.
    unfold bind at 1. unfold deref at 1. cbn [node_]. rewrite Evy.
    simpl lex_compare.
    destruct (Type_lt x y); simpl; [done |].
    destruct (Type_lt y x); simpl; [done |].
    unfold bind at 1. unfold pre_incr at 1, bind at 1. cbn [node_]. rewrite Enx.
    unfold ret at 1.
    unfold bind at 1. unfold pre_incr at 1, bind at 1. cbn [node_]. rewrite Eny.
    unfold ret at 1.
    apply IH; [done | done | simpl in Hfuel; lia].
Qed.

Lemma elements_equal_spec xs ys :
  elements_equal Type_eq xs ys = true ↔ same_elements Type_eq xs ys.
Proof.
  unfold same_elements. revert ys.
  induction xs as [|x xs IH]; intros [|y ys]; simpl.
  - split; [intros _; split; [done | constructor] | done].
  - split; [done | intros [? _]; done].
  - split; [done | intros [? _]; done].
  - rewrite andb_true_iff, IH. split.
    + intros (Hxy & Hlen & Hall). split; [by f_equal | by constructor].
    + intros (Hlen & Hall). apply Forall2_cons in Hall as [Hxy Hall].
      split; [done | split; [by injection Hlen | done]].
Qed.

Lemma lex_compare_spec xs ys :
  lex_compare Type_lt xs ys = true ↔ lex_less Type_lt xs ys.
Proof.
  revert ys. induction xs as [|x xs IH]; intros [|y ys]; simpl.
  - split; [done | inversion 1].
  - split; [intros _; constructor | done].
  - split; [done | inversion 1].
  - destruct (Type_lt x y) eqn:Exy.
    + split; [intros _; by apply lex_head | done].
    + destruct (Type_lt y x) eqn:Eyx.
      * split; [done |]. inversion 1; congruence.
      * rewrite IH. split; [intros H; by apply lex_tail |].
        inversion 1; [congruence | done].
Qed.

Lemma operators_on_walks lhs rhs m xs ys :
  traversal lhs m = Ok (xs, m) → traversal rhs m = Ok (ys, m) →
  operator_eq Type_eq lhs rhs m = Ok (elements_equal Type_eq xs ys, m) ∧
  operator_ne Type_eq lhs rhs m = Ok (negb (elements_equal Type_eq xs ys), m) ∧
  operator_lt Type_lt lhs rhs m = Ok (lex_compare Type_lt xs ys, m).
Proof.
  intros (_ & p & Hp & Hwx & Hlx)%traversal_inv (_ & q & Hq & Hwy & Hly)%traversal_inv.
  unfold operator_eq, operator_ne, operator_lt, bind, cend. rewrite Hp, Hq.
  rewrite (std_equal_walks m xs ys) by done.
  rewrite (std_lexicographical_compare_walks m xs ys) by done.
  done.
Qed.

End Comparing.

(** ** From the invariant to what a client observes *)

Lemma wp_cases k {A} (c : M A) m post :
  wp k c m post →
  ((Z.of_nat (size (heap m) + k) ≤ SIZE_MAX)%Z → ∃ x m', c m = Ok (x, m') ∧ post x m') ∧
  (∀ x m', c m = Ok (x, m') → post x m') ∧
  (∀ e, c m = Err e → e = bad_alloc ∧ (SIZE_MAX < Z.of_nat (size (heap m) + k))%Z).
Proof.
  intros H. split; [intros Hroom; by eapply wp_room | split].
  - intros x m' E. by eapply wp_ok.
  - intros e E. unfold wp in H. rewrite E in H. by destruct e.
Qed.

Lemma Ok_inj {A} (x y : A) m1 m2 : @Ok (A * @Memory Type_) (x, m1) = Ok (y, m2) → x = y ∧ m1 = m2.
Proof. by intros [= -> ->]. Qed.

(** What a successful traversal says about a live list of a modelled memory. *)
Lemma traversal_models σ m l vs m' :
  models σ m → traversal l m = Ok (vs, m') →
  ∃ cs n, σ !! l = Some (cs, n) ∧ cs.*2 = vs.
Proof.
  intros Hm Ht.
  assert (is_Some (objects m !! l)) as Halive.
  { unfold traversal, begin, bind, get_next in Ht.
    destruct (objects m !! l); [eauto | done]. }
  destruct (models_alive _ _ _ Hm Halive) as [[cs n] E].
  rewrite (models_traversal _ _ _ _ _ Hm E) in Ht.
  apply Ok_inj in Ht as [<- _]. eauto.
Qed.

Lemma GetSize_models σ m l n cs k m' :
  models σ m → σ !! l = Some (cs, k) → GetSize l m = Ok (n, m') → n = k.
Proof.
  intros Hm E Hs. rewrite (models_GetSize _ _ _ _ _ Hm E) in Hs.
  by apply Ok_inj in Hs as [<- _].
Qed.

Lemma sparing_models σ m l x m' :
  heap_bounded m → models σ m → counted σ → σ !! l = Some x →
  reaches_sparing l m m' →
  ∃ σ', heap_bounded m' ∧ models σ' m' ∧ counted σ' ∧ σ' !! l = Some x.
Proof.
  intros Hb Hm Hcnt E Hreach.
  induction Hreach as [m | m m1 c m2 _ IH Hall Hspare Hrun]; [eauto |].
  destruct (IH Hb Hm) as (σ1 & Hb1 & Hm1 & Hcnt1 & E1).
  destruct (step_models σ1 m1 c m2 Hb1 Hm1 Hcnt1 Hall Hrun) as (Hb2 & σ2 & Hm2 & Hcnt2 & Hframe).
  exists σ2. split; [done | split; [done | split; [done |]]].
  rewrite Hframe; eauto.
Qed.

Lemma PushFront_all_spec this vs : ∀ σ m cs n,
  models σ m → σ !! this = Some (cs, n) →
  wp (length vs) (PushFront_all this vs) m (fun _ m' =>
    ∃ new, new.*2 = rev vs ∧
           models (<[this := (new ++ cs, count_from n (length vs))]> σ) m').
Proof.
  induction vs as [|v vs IH]; intros σ m cs n Hm E; simpl.
  - apply wp_ret. exists []. split; [done|]. simpl. by rewrite insert_id.
  - apply wp_bind1. eapply wp_mono; [done | | by apply PushFront_spec].
    intros ? m1 (a & _ & Hm1). simpl in Hm1.
    eapply wp_mono; [done | | eapply (IH _ m1 _ _ Hm1); apply lookup_insert_eq].
    intros ? m2 (new & Hvals & Hm2). simpl in Hm2.
    exists (new ++ [(a, v)]). rewrite fmap_app, Hvals. split; [done|].
    rewrite insert_insert_eq in Hm2. by rewrite <- app_assoc.
Qed.

(** The memory [swap] leaves: only the links of the two sentinels and the
    two counters are exchanged (nothing changes when the two lists are the
    same object). *)
Lemma swap_memory m A B LA LB :
  objects m !! A = Some LA → objects m !! B = Some LB →
  swap A B m = Ok (tt, mkMem (heap m)
    (<[A := mkList (mkNode (value (head_ LA)) (next_node (head_ LB))) (size_ LB)]>
       (<[B := mkList (mkNode (value (head_ LB)) (next_node (head_ LA))) (size_ LA)]>
          (objects m)))).
Proof.
  intros EA EB.
  unfold swap, bind, get_next, set_next, get_size, set_size, ret.
  destruct (decide (A = B)) as [->|Hne].
  - assert (LA = LB) as -> by congruence.
    repeat (progress (cbn [heap objects head_ next_node size_ value];
                      rewrite ?EB, ?lookup_insert_eq)).
    do 2 f_equal. f_equal. same_map.
  - repeat (progress (cbn [heap objects head_ next_node size_ value];
                      rewrite ?EA, ?EB, ?lookup_insert_eq,
                              ?(lookup_insert_ne _ B A), ?(lookup_insert_ne _ A B) by done)).
    do 2 f_equal. f_equal. same_map.
Qed.

(** ** The claims *)

Lemma wf_size_agrees m this : wf m → is_Some (objects m !! this) → size_agrees m this.
Proof.
  intros (Hb & σ & Hm & Hcnt) Halive.
  destruct (models_alive _ _ _ Hm Halive) as [[cs n] E].
  exists (on_heap <$> cs.*1), cs.*2.
  rewrite !length_fmap.
  split; [by eapply models_nodes_reached |].
  split; [by eapply models_traversal |].
  split; [| done].
  rewrite <- (Hcnt _ _ _ E). by eapply models_GetSize.
Qed.

(** C1. In every memory a program can reach by calls made within the
    contract of the interface, the counter returned by
    [GetSize()] of every live list equals the number of real nodes reached
    from the sentinel's link to null, which is the number of elements of a
    full traversal from [begin()] to [end()]; and every public call made
    within its contract (constructors, assignment, destructor, [PushFront],
    [PopFront], [InsertAfter], [EraseAfter], [Clear], both [swap]s, a store
    through an iterator) leads to a memory where this still holds. *)
Theorem size_counts_real_nodes m :
  reachable m →
  (∀ this, is_Some (objects m !! this) → size_agrees m this) ∧
  (∀ c m', allowed m c → run c m = Ok (tt, m') →
     ∀ this, is_Some (objects m' !! this) → size_agrees m' this).
Proof.
  intros Hr. split.
  - intros this. apply wf_size_agrees. by apply reachable_wf.
  - intros c m' Hall Hrun this. apply wf_size_agrees.
    apply reachable_wf. by eapply reach_step.
Qed.

(** C9. For every live list of a reachable memory, [IsEmpty()] is true iff
    [GetSize()] is 0 iff [begin()] compares equal to [end()]. *)
Theorem empty_iff_size_zero_iff_begin_is_end m this :
  reachable m → is_Some (objects m !! this) →
  ∃ e n b, IsEmpty this m = Ok (e, m) ∧ GetSize this m = Ok (n, m) ∧
           begin this m = Ok (b, m) ∧
           (e = true ↔ n = 0%Z) ∧
           (n = 0%Z ↔ iter_eq b (end_ this) = true) ∧
           (e = true ↔ iter_eq b (end_ this) = true).
Proof.
  intros Hr Halive. destruct (reachable_wf _ Hr) as (Hb & σ & Hm & Hcnt).
  destruct (models_alive _ _ _ Hm Halive) as [[cs n] E].
  pose proof (Hcnt _ _ _ E) as Hn.
  pose proof (models_GetSize _ _ _ _ _ Hm E) as Hsize.
  exists (if decide (n = 0%Z) then true else false), n, (Iterator (chain_head cs)).
  split.
  { unfold IsEmpty, bind, ret. unfold GetSize in Hsize. by rewrite Hsize. }
  split; [done|]. split; [by eapply models_begin |].
  assert (n = 0%Z ↔ iter_eq (Iterator (chain_head cs)) (end_ this) = true) as Hiff.
  { unfold iter_eq, end_, Iterator_default. simpl. rewrite bool_decide_eq_true.
    destruct cs as [|[a v] cs]; simpl in *; split; intros; (done || lia). }
  assert ((if decide (n = 0%Z) then true else false) = true ↔ n = 0%Z) as Hiff'.
  { case_decide; split; intros; done. }
  split; [done|]. split; [done|]. by rewrite Hiff'.
Qed.

(** C10. [end()] and [cend()] of every list are the default-constructed
    iterator, whose [node_] is null: the end iterators of any two lists
    compare equal, and [begin()] of an empty list compares equal to the
    [end()] of any other list. *)
Theorem end_is_shared_null_iterator (l1 l2 : positive) :
  end_ l1 = Iterator_default ∧ cend l1 = Iterator_default ∧
  node_ (end_ l1) = nullptr ∧
  iter_eq (end_ l1) (end_ l2) = true ∧ iter_ne (end_ l1) (end_ l2) = false ∧
  iter_eq (cend l1) (cend l2) = true ∧ iter_eq (end_ l1) (cend l2) = true ∧
  (∀ m : @Memory Type_, reachable m → IsEmpty l1 m = Ok (true, m) →
     ∃ b, begin l1 m = Ok (b, m) ∧ cbegin l1 m = Ok (b, m) ∧
          iter_eq b (end_ l2) = true ∧ iter_eq b (cend l2) = true).
Proof.
  repeat (split; [done|]).
  intros m Hr Hempty.
  destruct (reachable_wf _ Hr) as (Hb & σ & Hm & Hcnt).
  assert (is_Some (objects m !! l1)) as Halive.
  { unfold IsEmpty, bind, get_size in Hempty.
    destruct (objects m !! l1); [eauto | done]. }
  destruct (models_alive _ _ _ Hm Halive) as [[cs n] E].
  pose proof (Hcnt _ _ _ E) as Hn.
  pose proof (models_GetSize _ _ _ _ _ Hm E) as Hsize.
  unfold IsEmpty, bind, ret in Hempty. unfold GetSize in Hsize.
  rewrite Hsize in Hempty. case_decide as Hz; [| done].
  assert (cs = []) as -> by (destruct cs; [done | simpl in Hn; lia]).
  exists (Iterator nullptr).
  pose proof (models_begin _ _ _ _ _ Hm E) as Hbegin. simpl in Hbegin.
  split; [done|]. split; [exact Hbegin |]. done.
Qed.

(** C2. Calling [PushFront(v1)], ..., [PushFront(vn)] on an empty list of a
    reachable memory yields a list whose traversal reads [vn, ..., v1]: the
    calls return whenever the heap has room for [n] more nodes, whenever
    they return the traversal is the reversed sequence, and the only way
    for them not to return is [std::bad_alloc] on a heap without that room. *)
Theorem PushFront_reverses_call_order (vs : list Type_) m this :
  reachable m → IsEmpty this m = Ok (true, m) →
  ((Z.of_nat (size (heap m) + length vs) ≤ SIZE_MAX)%Z →
     ∃ m', PushFront_all this vs m = Ok (tt, m') ∧ traversal this m' = Ok (rev vs, m')) ∧
  (∀ m', PushFront_all this vs m = Ok (tt, m') → traversal this m' = Ok (rev vs, m')) ∧
  (∀ e, PushFront_all this vs m = Err e →
     e = bad_alloc ∧ (SIZE_MAX < Z.of_nat (size (heap m) + length vs))%Z).
Proof.
  intros Hr Hempty.
  destruct (reachable_wf _ Hr) as (Hb & σ & Hm & Hcnt).
  assert (is_Some (objects m !! this)) as Halive.
  { unfold IsEmpty, bind, get_size in Hempty.
    destruct (objects m !! this); [eauto | done]. }
  destruct (models_alive _ _ _ Hm Halive) as [[cs n] E].
  pose proof (Hcnt _ _ _ E) as Hn.
  pose proof (models_GetSize _ _ _ _ _ Hm E) as Hsize.
  unfold IsEmpty, bind, ret in Hempty. unfold GetSize in Hsize.
  rewrite Hsize in Hempty. case_decide as Hz; [| done].
  assert (cs = []) as -> by (destruct cs; [done | simpl in Hn; lia]).
  pose proof (PushFront_all_spec this vs σ m [] n Hm E) as Hwp.
  assert (∀ (u : unit) m', (∃ new, new.*2 = rev vs ∧
             models (<[this := (new ++ [], count_from n (length vs))]> σ) m') →
           traversal this m' = Ok (rev vs, m')) as Hpost.
  { intros _ m' (new & Hvals & Hm'). rewrite <- Hvals, app_nil_r in *.
    eapply models_traversal; [exact Hm' | apply lookup_insert_eq]. }
  destruct (wp_cases _ _ _ _ Hwp) as (Hroom & Hok & Herr).
  split; [| split; [| done]].
  - intros Hfits. destruct (Hroom Hfits) as ([] & m' & Hrun & Hp).
    exists m'. split; [done | by apply (Hpost tt)].
  - intros m' Hrun. apply (Hpost tt). exact (Hok tt m' Hrun).
Qed.

Lemma elements_equal_self (Type_eq : Type_ → Type_ → bool) vs :
  elements_equal Type_eq vs vs = true ↔ Forall (fun x => Type_eq x x = true) vs.
Proof.
  induction vs as [|x xs IH]; simpl; [split; [constructor | done] |].
  rewrite andb_true_iff, Forall_cons, IH. done.
Qed.

(** C3, amended.  A copy-constructed list reads the same values in the same
    order as its source and has that many elements, whatever the element
    type; [operator==] finds the copy and its source equal exactly when every
    element of the source compares equal to itself, so for such lists
    [copy(L) == L].  The copy shares no node with the source; and after any
    sequence of calls that do not modify the source the source still reads
    the same, and likewise for the copy. *)
Theorem copy_is_equal_and_independent (Type_eq : Type_ → Type_ → bool) junk m L vs :
  reachable m → traversal L m = Ok (vs, m) →
  ((Z.of_nat (size (heap m) + length vs) ≤ SIZE_MAX)%Z →
     ∃ this m', SingleLinkedList_copy junk L m = Ok (this, m')) ∧
  ∀ this m', SingleLinkedList_copy junk L m = Ok (this, m') →
    this ≠ L ∧
    traversal this m' = Ok (vs, m') ∧ traversal L m' = Ok (vs, m') ∧
    GetSize this m' = Ok (Z.of_nat (length vs), m') ∧
    (∃ same, operator_eq Type_eq L this m' = Ok (same, m') ∧
             operator_eq Type_eq this L m' = Ok (same, m') ∧
             (same = true ↔ Forall (fun x => Type_eq x x = true) vs)) ∧
    (∃ ns nl, nodes_reached this m' = Ok (ns, m') ∧ nodes_reached L m' = Ok (nl, m') ∧
              ∀ p, p ∈ ns → p ∉ nl) ∧
    (∀ m'', reaches_sparing L m' m'' → traversal L m'' = Ok (vs, m'')) ∧
    (∀ m'', reaches_sparing this m' m'' → traversal this m'' = Ok (vs, m'')).
Proof.
  intros Hr Ht.
  destruct (reachable_wf _ Hr) as (Hb & σ & Hm & Hcnt).
  destruct (traversal_models _ _ _ _ _ Hm Ht) as (cs & n & E & Hvs).
  assert (length cs = length vs) as Hlen by (by rewrite <- Hvs, length_fmap).
  pose proof (SingleLinkedList_copy_spec σ m junk L cs n Hm E) as Hwp.
  rewrite Hlen in Hwp.
  destruct (wp_cases _ _ _ _ Hwp) as (Hroom & Hok & _).
  split.
  { intros Hfits. destruct (Hroom Hfits) as (this & m' & Hrun & _). eauto. }
  intros this m' Hrun.
  pose proof (wp_ok_bounded _ _ _ _ _ _ Hwp Hrun Hb) as Hb'.
  destruct (Hok _ _ Hrun) as (Hfresh & copy & Hvals & Hnew & Hm').
  pose proof (models_fresh _ _ _ Hm Hfresh) as Hnone.
  assert (this ≠ L) as Hne by congruence.
  assert (<[this := (copy, count_from 0 (length vs))]> σ !! L = Some (cs, n)) as EL'
    by (by rewrite lookup_insert_ne).
  pose proof (lookup_insert_eq σ this (copy, count_from 0 (length vs))) as Ethis.
  assert (counted (<[this := (copy, count_from 0 (length vs))]> σ)) as Hcnt'.
  { eapply counted_insert; eauto.
    apply (f_equal length) in Hvals. rewrite !length_fmap in Hvals.
    rewrite Hvals, Hlen. apply count_from_length. }
  pose proof (models_traversal _ _ _ _ _ Hm' Ethis) as Tthis.
  pose proof (models_traversal _ _ _ _ _ Hm' EL') as TL.
  rewrite Hvals, Hvs in Tthis. rewrite Hvs in TL.
  split; [done|]. split; [done|]. split; [done|]. split.
  { rewrite (models_GetSize _ _ _ _ _ Hm' Ethis). rewrite (Hcnt' _ _ _ Ethis).
    apply (f_equal length) in Hvals. rewrite !length_fmap in Hvals.
    by rewrite Hvals, Hlen. }
  split.
  { exists (elements_equal Type_eq vs vs).
    split; [by destruct (operators_on_walks Type_eq Type_eq _ _ _ _ _ TL Tthis) as (-> & _) |].
    split; [by destruct (operators_on_walks Type_eq Type_eq _ _ _ _ _ Tthis TL) as (-> & _) |].
    apply elements_equal_self. }
  split.
  { exists (on_heap <$> copy.*1), (on_heap <$> cs.*1).
    split; [by eapply models_nodes_reached |].
    split; [by eapply models_nodes_reached |].
    intros p (a & -> & Ha)%list_elem_of_fmap (b & Hb2 & Hin)%list_elem_of_fmap.
    injection Hb2 as <-.
    destruct (models_lookup _ _ _ _ _ Hm E) as (LL & _ & Hc & _).
    destruct (is_seg_lookup _ _ _ _ _ Hc Hin) as [x Hx].
    rewrite (Hnew a Ha) in Hx. done. }
  split.
  - intros m'' Hsp.
    destruct (sparing_models _ _ _ _ _ Hb' Hm' Hcnt' EL' Hsp) as (σ2 & _ & Hm2 & _ & E2).
    rewrite <- Hvs. by eapply models_traversal.
  - intros m'' Hsp.
    destruct (sparing_models _ _ _ _ _ Hb' Hm' Hcnt' Ethis Hsp) as (σ2 & _ & Hm2 & _ & E2).
    rewrite <- Hvs, <- Hvals. by eapply models_traversal.
Qed.

(** C4. [InsertAfter(before_begin(), v)] does to the memory exactly what
    [PushFront(v)] does, failing when and as it fails, and returns an
    iterator to the new first node, whose value is [v]; on a list of a
    reachable memory the new value is in front of the former elements and
    the size has grown by one. *)
Theorem InsertAfter_before_begin_is_PushFront m this (v : Type_) :
  match PushFront this v m with
  | Ok (_, m') =>
      ∃ it, InsertAfter this (before_begin this) v m = Ok (it, m') ∧
            begin this m' = Ok (it, m') ∧ deref it m' = Ok (v, m')
  | Err e => InsertAfter this (before_begin this) v m = Err e
  end ∧
  ∀ vs n, reachable m → traversal this m = Ok (vs, m) → GetSize this m = Ok (n, m) →
    ((Z.of_nat (size (heap m) + 1) ≤ SIZE_MAX)%Z →
       ∃ it m', InsertAfter this (before_begin this) v m = Ok (it, m')) ∧
    ∀ it m', InsertAfter this (before_begin this) v m = Ok (it, m') →
      PushFront this v m = Ok (tt, m') ∧
      traversal this m' = Ok (v :: vs, m') ∧
      GetSize this m' = Ok ((n + 1)%Z, m') ∧
      deref it m' = Ok (v, m') ∧
      ∃ a, it = Iterator (on_heap a) ∧ heap m !! a = None.
Proof.
  assert (match PushFront this v m with
          | Ok (_, m') =>
              ∃ it, InsertAfter this (before_begin this) v m = Ok (it, m') ∧
                    begin this m' = Ok (it, m') ∧ deref it m' = Ok (v, m')
          | Err e => InsertAfter this (before_begin this) v m = Err e
          end) as Hsame.
  { unfold PushFront, InsertAfter, before_begin, begin, deref, bind, get_next.
    cbn [node_].
    destruct (objects m !! this) as [L|] eqn:EL; [| done].
    unfold new_Node. case_decide; [| done].
    unfold set_next, get_size, set_size, get_value, ret.
    repeat (progress (cbn [heap objects head_ next_node size_ value node_];
                      rewrite ?EL, ?lookup_insert_eq)).
    eexists. split; [done|].
    split; repeat (progress (cbn [heap objects head_ next_node size_ value node_];
                             rewrite ?EL, ?lookup_insert_eq)); done. }
  split; [exact Hsame |].
  intros vs n Hr Ht Hsize.
  destruct (reachable_wf _ Hr) as (Hb & σ & Hm & Hcnt).
  destruct (traversal_models _ _ _ _ _ Hm Ht) as (cs & k & E & Hvs).
  pose proof (GetSize_models _ _ _ _ _ _ _ Hm E Hsize) as ->.
  pose proof (Hcnt _ _ _ E) as Hk.
  assert (@anchored Type_ this (before_begin this) []) as Hanch by (by left).
  pose proof (InsertAfter_spec σ m this (before_begin this) [] cs k v Hm E Hanch) as Hwp.
  destruct (wp_cases _ _ _ _ Hwp) as (Hroom & Hok & _).
  split.
  { intros Hfits. destruct (Hroom Hfits) as (it & m' & Hrun & _). eauto. }
  intros it m' Hrun.
  pose proof (wp_ok_bounded _ _ _ _ _ _ Hwp Hrun Hb) as Hb'.
  destruct (Hok _ _ Hrun) as (a & Ha & -> & Hm'). simpl in Hm'.
  pose proof (lookup_insert_eq σ this ((a, v) :: cs, wrap (k + 1))) as E'.
  destruct (PushFront this v m) as [[[] m1]|e] eqn:Epush.
  - destruct Hsame as (it' & Hrun' & _ & Hderef).
    rewrite Hrun in Hrun'. apply Ok_inj in Hrun' as [<- <-].
    split; [done|].
    split; [rewrite <- Hvs; by eapply (models_traversal _ _ _ ((a, v) :: cs)) |].
    split; [| split; [done | eauto]].
    rewrite (models_GetSize _ _ _ _ _ Hm' E').
    pose proof (models_length_bound _ _ _ _ _ Hm' Hb' E') as Hlen. simpl in Hlen.
    rewrite wrap_small; [done | lia].
  - rewrite Hrun in Hsame. done.
Qed.

(** C5. On a list that has a first element (the precondition of
    [EraseAfter]: the node after [pos] exists), [EraseAfter(before_begin())]
    does to the memory exactly what [PopFront()] does and returns the
    iterator to the node now first, which is [end()] when none is left; on a
    list of a reachable memory it removes exactly the first element and the
    size drops by one. *)
Theorem EraseAfter_before_begin_is_PopFront m this :
  (∀ b, begin this m = Ok (b, m) → iter_ne b (end_ this) = true →
     match PopFront this m with
     | Ok (_, m') =>
         ∃ it, EraseAfter this (before_begin this) m = Ok (it, m') ∧
               begin this m' = Ok (it, m')
     | Err e => EraseAfter this (before_begin this) m = Err e
     end) ∧
  ∀ (v : Type_) vs n,
    reachable m → traversal this m = Ok (v :: vs, m) → GetSize this m = Ok (n, m) →
    ∃ it m', EraseAfter this (before_begin this) m = Ok (it, m') ∧
             PopFront this m = Ok (tt, m') ∧
             traversal this m' = Ok (vs, m') ∧
             GetSize this m' = Ok ((n - 1)%Z, m') ∧
             begin this m' = Ok (it, m') ∧
             (vs = [] → it = end_ this).
Proof.
  assert (∀ b, begin this m = Ok (b, m) → iter_ne b (end_ this) = true →
     match PopFront this m with
     | Ok (_, m') =>
         ∃ it, EraseAfter this (before_begin this) m = Ok (it, m') ∧
               begin this m' = Ok (it, m')
     | Err e => EraseAfter this (before_begin this) m = Err e
     end) as Hsame.
  { intros b Hbegin Hne.
    unfold begin, bind in Hbegin. unfold get_next in Hbegin.
    destruct (objects m !! this) as [L|] eqn:EL; [| done].
    unfold ret in Hbegin. injection Hbegin as <-.
    unfold iter_ne, end_, Iterator_default in Hne. simpl in Hne.
    apply negb_true_iff, bool_decide_eq_false in Hne.
    assert (get_next (head_of this) m = Ok (next_node (head_ L), m)) as Hgn.
    { unfold get_next. by rewrite EL. }
    unfold PopFront, EraseAfter, before_begin, begin, bind. cbn [node_].
    rewrite Hgn. rewrite decide_True by done.
    destruct (get_next (next_node (head_ L)) m) as [[nxt m1]|] eqn:Enxt; [| done].
    pose proof (get_next_read _ _ _ _ Enxt) as ->.
    unfold set_next. rewrite EL.
    unfold delete_Node. destruct (next_node (head_ L)) as [|l'|a]; [done | done |].
    cbn [heap objects]. destruct (heap m !! a) as [na|]; [| done].
    unfold get_size, set_size, get_next, ret.
    repeat (progress (cbn [heap objects head_ next_node size_ value node_];
                      rewrite ?lookup_insert_eq)).
    eexists. split; [done|].
    repeat (progress (cbn [heap objects head_ next_node size_ value node_];
                      rewrite ?lookup_insert_eq)). done. }
  split; [exact Hsame |].
  intros v vs n Hr Ht Hsize.
  destruct (reachable_wf _ Hr) as (Hb & σ & Hm & Hcnt).
  destruct (traversal_models _ _ _ _ _ Hm Ht) as (cs & k & E & Hvs).
  pose proof (GetSize_models _ _ _ _ _ _ _ Hm E Hsize) as ->.
  pose proof (Hcnt _ _ _ E) as Hk.
  destruct cs as [|[c u] cs]; [done|].
  rewrite fmap_cons in Hvs. simpl in Hvs. injection Hvs as -> Hvs.
  assert (@anchored Type_ this (before_begin this) []) as Hanch by (by left).
  pose proof (EraseAfter_spec σ m this (before_begin this) [] c v cs k Hm E Hanch) as Hwp.
  destruct (wp_total _ _ _ Hb Hwp) as (it & m' & Hrun & -> & Hm'). simpl in Hm'.
  pose proof (wp_ok_bounded _ _ _ _ _ _ Hwp Hrun Hb) as Hb'.
  pose proof (lookup_insert_eq σ this (cs, wrap (k - 1))) as E'.
  pose proof (models_begin _ _ _ _ _ Hm E) as Hbegin. simpl in Hbegin.
  specialize (Hsame _ Hbegin eq_refl).
  exists (Iterator (chain_head cs)), m'. split; [done|].
  destruct (PopFront this m) as [[[] m1]|e] eqn:Epop.
  - destruct Hsame as (it' & Hrun' & Hbegin').
    rewrite Hrun in Hrun'. apply Ok_inj in Hrun' as [<- <-].
    split; [done|].
    split; [rewrite <- Hvs; by eapply models_traversal |].
    split; [| split; [done |]].
    + rewrite (models_GetSize _ _ _ _ _ Hm' E').
      simpl in Hk. unfold heap_bounded in Hb.
      pose proof (models_length_bound _ _ _ _ _ Hm Hb E) as Hlen. simpl in Hlen.
      rewrite wrap_small; [done | lia].
    + intros ->. by destruct cs.
  - rewrite Hrun in Hsame. done.
Qed.

(** C7. Copy assignment from another list makes the target read the same
    values in the same order as the source, on nodes of its own, and leaves
    the source as it was (same nodes, same values, same size); it returns
    whenever the heap has room for the copy.  Self-assignment returns the
    memory unchanged. *)
Theorem copy_assignment junk m this rhs (ts vs : list Type_) :
  reachable m → traversal this m = Ok (ts, m) → traversal rhs m = Ok (vs, m) →
  assign junk this this m = Ok (tt, m) ∧
  (this ≠ rhs →
   ((Z.of_nat (size (heap m) + length vs) ≤ SIZE_MAX)%Z →
      ∃ m', assign junk this rhs m = Ok (tt, m')) ∧
   ∀ m', assign junk this rhs m = Ok (tt, m') →
     traversal this m' = Ok (vs, m') ∧ traversal rhs m' = Ok (vs, m') ∧
     GetSize this m' = Ok (Z.of_nat (length vs), m') ∧
     GetSize rhs m' = Ok (Z.of_nat (length vs), m') ∧
     ∃ nt nr, nodes_reached this m' = Ok (nt, m') ∧
              nodes_reached rhs m' = Ok (nr, m') ∧
              nodes_reached rhs m = Ok (nr, m) ∧
              ∀ p, p ∈ nt → p ∉ nr).
Proof.
  intros Hr Ht Hv. split; [apply assign_self |]. intros Hne.
  destruct (reachable_wf _ Hr) as (Hb & σ & Hm & Hcnt).
  destruct (traversal_models _ _ _ _ _ Hm Ht) as (ct & nt & Et & Hts).
  destruct (traversal_models _ _ _ _ _ Hm Hv) as (cr & nr & Er & Hvs).
  assert (length cr = length vs) as Hlen by (by rewrite <- Hvs, length_fmap).
  pose proof (assign_spec σ m junk this rhs ct nt cr nr Hm Hne Et Er) as Hwp.
  rewrite Hlen in Hwp.
  destruct (wp_cases _ _ _ _ Hwp) as (Hroom & Hok & _).
  split.
  { intros Hfits. destruct (Hroom Hfits) as ([] & m' & Hrun & _). eauto. }
  intros m' Hrun.
  pose proof (wp_ok_bounded _ _ _ _ _ _ Hwp Hrun Hb) as Hb'.
  destruct (Hok _ _ Hrun) as (copy & Hvals & Hnew & Hm').
  assert (<[this := (copy, count_from 0 (length vs))]> σ !! rhs = Some (cr, nr)) as Er'
    by (by rewrite lookup_insert_ne).
  pose proof (lookup_insert_eq σ this (copy, count_from 0 (length vs))) as Ethis.
  assert (length copy = length vs) as Hlen'.
  { apply (f_equal length) in Hvals. rewrite !length_fmap in Hvals. by rewrite Hvals. }
  split; [rewrite <- Hvs, <- Hvals; by eapply models_traversal |].
  split; [rewrite <- Hvs; by eapply models_traversal |].
  split.
  { rewrite (models_GetSize _ _ _ _ _ Hm' Ethis).
    pose proof (models_length_bound _ _ _ _ _ Hm' Hb' Ethis) as Hbound.
    rewrite count_from_length; [done | by rewrite <- Hlen']. }
  split.
  { rewrite (models_GetSize _ _ _ _ _ Hm' Er'). by rewrite (Hcnt _ _ _ Er), Hlen. }
  exists (on_heap <$> copy.*1), (on_heap <$> cr.*1).
  split; [by eapply models_nodes_reached |].
  split; [by eapply models_nodes_reached |].
  split; [by eapply models_nodes_reached |].
  intros p (a & -> & Ha)%list_elem_of_fmap (b & Hb2 & Hin)%list_elem_of_fmap.
  injection Hb2 as <-.
  destruct (models_lookup _ _ _ _ _ Hm Er) as (LL & _ & Hc & _).
  destruct (is_seg_lookup _ _ _ _ _ Hc Hin) as [x Hx].
  rewrite (Hnew a Ha) in Hx. done.
Qed.

(** C8. [A.swap(B)], and the free [swap(A, B)], always return; afterwards
    [A] reads what [B] read and has its size, and conversely, on the very
    same nodes: the heap is untouched, no list object appears or goes, every
    other list object is as before, and in [A] and [B] only the sentinel's
    link and the counter have been exchanged. *)
Theorem swap_exchanges_contents m A B (xs ys : list Type_) na nb :
  reachable m →
  traversal A m = Ok (xs, m) → traversal B m = Ok (ys, m) →
  GetSize A m = Ok (na, m) → GetSize B m = Ok (nb, m) →
  ∃ m', swap A B m = Ok (tt, m') ∧ free_swap A B m = Ok (tt, m') ∧
        heap m' = heap m ∧
        dom (objects m') = dom (objects m) ∧
        (∀ l, l ≠ A → l ≠ B → objects m' !! l = objects m !! l) ∧
        (∀ LA LB, objects m !! A = Some LA → objects m !! B = Some LB →
           objects m' !! A =
             Some (mkList (mkNode (value (head_ LA)) (next_node (head_ LB))) (size_ LB)) ∧
           (A ≠ B → objects m' !! B =
             Some (mkList (mkNode (value (head_ LB)) (next_node (head_ LA))) (size_ LA)))) ∧
        traversal A m' = Ok (ys, m') ∧ traversal B m' = Ok (xs, m') ∧
        GetSize A m' = Ok (nb, m') ∧ GetSize B m' = Ok (na, m') ∧
        (∀ ns, nodes_reached B m = Ok (ns, m) → nodes_reached A m' = Ok (ns, m')) ∧
        (∀ ns, nodes_reached A m = Ok (ns, m) → nodes_reached B m' = Ok (ns, m')).
Proof.
  intros Hr Hta Htb Hsa Hsb.
  destruct (reachable_wf _ Hr) as (Hb & σ & Hm & Hcnt).
  destruct (traversal_models _ _ _ _ _ Hm Hta) as (ca & ka & Ea & Hxs).
  destruct (traversal_models _ _ _ _ _ Hm Htb) as (cb & kb & Eb & Hys).
  pose proof (GetSize_models _ _ _ _ _ _ _ Hm Ea Hsa) as ->.
  pose proof (GetSize_models _ _ _ _ _ _ _ Hm Eb Hsb) as ->.
  destruct (models_lookup _ _ _ _ _ Hm Ea) as (LA & ELA & _ & _).
  destruct (models_lookup _ _ _ _ _ Hm Eb) as (LB & ELB & _ & _).
  pose proof (swap_memory m A B LA LB ELA ELB) as Hrun.
  eexists. split; [exact Hrun |]. split; [exact Hrun |].
  destruct (wp_inv _ _ _ _ _ _ (swap_spec σ m A B _ _ _ _ Hm Ea Eb) Hrun Hb)
    as (Hb' & _ & Hm').
  assert (<[A := (cb, kb)]> (<[B := (ca, ka)]> σ) !! A = Some (cb, kb)) as EA'
    by apply lookup_insert_eq.
  assert (<[A := (cb, kb)]> (<[B := (ca, ka)]> σ) !! B = Some (ca, ka)) as EB'.
  { destruct (decide (A = B)) as [->|Hne].
    - rewrite lookup_insert_eq. congruence.
    - rewrite lookup_insert_ne by done. apply lookup_insert_eq. }
  cbn [heap objects].
  split; [done|]. split.
  { rewrite !dom_insert_L.
    assert (A ∈ dom (objects m)) by (apply elem_of_dom; eauto).
    assert (B ∈ dom (objects m)) by (apply elem_of_dom; eauto).
    set_solver. }
  split.
  { intros l HlA HlB. by rewrite !lookup_insert_ne. }
  split.
  { intros LA' LB' EA2 EB2.
    assert (LA' = LA) as -> by congruence. assert (LB' = LB) as -> by congruence.
    split; [apply lookup_insert_eq |].
    intros Hne. rewrite lookup_insert_ne by done. apply lookup_insert_eq. }
  split; [rewrite <- Hys; by eapply models_traversal |].
  split; [rewrite <- Hxs; by eapply models_traversal |].
  split; [by eapply models_GetSize |].
  split; [by eapply models_GetSize |].
  split.
  - intros ns Hns. rewrite (models_nodes_reached _ _ _ _ _ Hm Eb) in Hns.
    apply Ok_inj in Hns as [<- _]. by eapply models_nodes_reached.
  - intros ns Hns. rewrite (models_nodes_reached _ _ _ _ _ Hm Ea) in Hns.
    apply Ok_inj in Hns as [<- _]. by eapply models_nodes_reached.
Qed.

Lemma operators_agree (Type_eq Type_lt : Type_ → Type_ → bool) m lhs rhs xs ys :
  traversal lhs m = Ok (xs, m) → traversal rhs m = Ok (ys, m) →
  ∃ eq lt,
    operator_eq Type_eq lhs rhs m = Ok (eq, m) ∧
    operator_lt Type_lt lhs rhs m = Ok (lt, m) ∧
    (eq = true ↔ same_elements Type_eq xs ys) ∧
    (lt = true ↔ lex_less Type_lt xs ys) ∧
    operator_ne Type_eq lhs rhs m = Ok (negb eq, m) ∧
    operator_le Type_eq Type_lt lhs rhs m = Ok (lt || eq, m) ∧
    operator_gt Type_eq Type_lt lhs rhs m = Ok (negb (lt || eq), m) ∧
    operator_ge Type_lt lhs rhs m = Ok (negb lt, m).
Proof.
  intros Hx Hy.
  destruct (operators_on_walks Type_eq Type_lt _ _ _ _ _ Hx Hy) as (Heq & Hne & Hlt).
  exists (elements_equal Type_eq xs ys), (lex_compare Type_lt xs ys).
  split; [done|]. split; [done|].
  split; [apply elements_equal_spec |]. split; [apply lex_compare_spec |].
  split; [done|].
  assert (operator_le Type_eq Type_lt lhs rhs m
          = Ok (lex_compare Type_lt xs ys || elements_equal Type_eq xs ys, m)) as Hle.
  { unfold operator_le, bind. rewrite Hlt. destruct (lex_compare Type_lt xs ys); done. }
  split; [done|]. split.
  - unfold operator_gt, bind. by rewrite Hle.
  - unfold operator_ge, bind. by rewrite Hlt.
Qed.

(** * Further properties of the code *)

(** ** Lists a call does not name *)

Lemma reachable_models m :
  reachable m → heap_bounded m ∧ ∃ σ, models σ m ∧ counted σ.
Proof. intros Hr. exact (reachable_wf _ Hr). Qed.

Lemma nodes_reached_models σ m l ns m' :
  models σ m → nodes_reached l m = Ok (ns, m') →
  ∃ cs n, σ !! l = Some (cs, n) ∧ ns = on_heap <$> cs.*1.
Proof.
  intros Hm Hn.
  assert (is_Some (objects m !! l)) as Halive.
  { unfold nodes_reached, bind, get_next in Hn.
    destruct (objects m !! l); [eauto | done]. }
  destruct (models_alive _ _ _ Hm Halive) as [[cs n] E].
  rewrite (models_nodes_reached _ _ _ _ _ Hm E) in Hn.
  apply Ok_inj in Hn as [<- _]. eauto.
Qed.

(** X1. A call made within the contract leaves every list it does not
    modify exactly as it was: the same nodes at the same addresses, the same
    values in the same order, the same size. *)
Theorem other_lists_are_untouched m c m' l (vs : list Type_) ns n :
  reachable m → allowed m c → run c m = Ok (tt, m') → l ∉ targets c →
  traversal l m = Ok (vs, m) → nodes_reached l m = Ok (ns, m) →
  GetSize l m = Ok (n, m) →
  traversal l m' = Ok (vs, m') ∧ nodes_reached l m' = Ok (ns, m') ∧
  GetSize l m' = Ok (n, m').
Proof.
  intros Hr Hall Hrun Hl Ht Hn Hs.
  destruct (reachable_wf _ Hr) as (Hb & σ & Hm & Hcnt).
  destruct (traversal_models _ _ _ _ _ Hm Ht) as (cs & k & E & Hvs).
  destruct (nodes_reached_models _ _ _ _ _ Hm Hn) as (cs' & k' & E' & ->).
  rewrite E in E'. injection E' as <- <-.
  pose proof (GetSize_models _ _ _ _ _ _ _ Hm E Hs) as ->.
  destruct (step_models σ m c m' Hb Hm Hcnt Hall Hrun) as (_ & σ' & Hm' & _ & Hframe).
  assert (σ' !! l = Some (cs, k)) as El by (rewrite Hframe; eauto).
  split; [rewrite <- Hvs; by eapply models_traversal |].
  split; [by eapply models_nodes_reached | by eapply models_GetSize].
Qed.

(** ** Constructors *)

(** X2. The default constructor always returns; it makes a new list object
    that is empty (size 0, [IsEmpty()], [begin() == end()], nothing to
    traverse) and does not touch the heap. *)
Theorem default_constructor_makes_empty_list junk m :
  reachable m →
  ∃ this m', SingleLinkedList_default (Type_:=Type_) junk m = Ok (this, m') ∧
    objects m !! this = None ∧ heap m' = heap m ∧
    GetSize this m' = Ok (0%Z, m') ∧ IsEmpty this m' = Ok (true, m') ∧
    traversal this m' = Ok ([], m') ∧ nodes_reached this m' = Ok ([], m') ∧
    begin this m' = Ok (end_ this, m').
Proof.
  intros Hr. destruct (reachable_wf _ Hr) as (Hb & σ & Hm & Hcnt).
  destruct (wp_total _ _ _ Hb (SingleLinkedList_default_spec σ m junk Hm))
    as (this & m' & Hrun & Hfresh & Hheap & Hm').
  pose proof (lookup_insert_eq σ this ([], 0%Z)) as E.
  exists this, m'. split; [done|]. split; [done|]. split; [done|].
  pose proof (models_GetSize _ _ _ _ _ Hm' E) as Hsize.
  split; [done|]. split.
  { unfold IsEmpty, bind, ret. unfold GetSize in Hsize. by rewrite Hsize. }
  split; [exact (models_traversal _ _ _ _ _ Hm' E) |].
  split; [exact (models_nodes_reached _ _ _ _ _ Hm' E) |].
  exact (models_begin _ _ _ _ _ Hm' E).
Qed.

(** X3. The constructor from a sequence of values returns whenever the heap
    has room for them, whatever the uninitialised [size_] held; the new list
    reads the values in the order given, its size is their number, and its
    nodes are all newly allocated. *)
Theorem initializer_list_constructor junk (values : list Type_) m :
  reachable m →
  ((Z.of_nat (size (heap m) + length values) ≤ SIZE_MAX)%Z →
     ∃ this m', SingleLinkedList_init junk values m = Ok (this, m')) ∧
  ∀ this m', SingleLinkedList_init junk values m = Ok (this, m') →
    objects m !! this = None ∧
    traversal this m' = Ok (values, m') ∧
    GetSize this m' = Ok (Z.of_nat (length values), m') ∧
    IsEmpty this m' = Ok (bool_decide (values = []), m') ∧
    ∃ ns, nodes_reached this m' = Ok (ns, m') ∧ length ns = length values ∧
          ∀ p, p ∈ ns → get_next p m = Err undefined_behaviour.
Proof.
  intros Hr. destruct (reachable_wf _ Hr) as (Hb & σ & Hm & Hcnt).
  pose proof (SingleLinkedList_init_spec σ m junk values Hm) as Hwp.
  destruct (wp_cases _ _ _ _ Hwp) as (Hroom & Hok & _).
  split.
  { intros Hfits. destruct (Hroom Hfits) as (this & m' & Hrun & _). eauto. }
  intros this m' Hrun.
  pose proof (wp_ok_bounded _ _ _ _ _ _ Hwp Hrun Hb) as Hb'.
  destruct (Hok _ _ Hrun) as (Hfresh & copy & Hvals & Hnew & Hm').
  pose proof (lookup_insert_eq σ this (copy, count_from 0 (length values))) as E.
  assert (length copy = length values) as Hlen by (by rewrite <- Hvals, length_fmap).
  pose proof (models_length_bound _ _ _ _ _ Hm' Hb' E) as Hbound.
  assert (count_from 0 (length values) = Z.of_nat (length values)) as Hcount.
  { apply count_from_length. by rewrite <- Hlen. }
  rewrite Hcount in *.
  pose proof (models_GetSize _ _ _ _ _ Hm' E) as Hsize.
  split; [done|].
  split; [rewrite <- Hvals; exact (models_traversal _ _ _ _ _ Hm' E) |].
  split; [done|]. split.
  { unfold IsEmpty, bind, ret. unfold GetSize in Hsize. rewrite Hsize.
    f_equal. f_equal. by destruct values. }
  exists (on_heap <$> copy.*1). rewrite !length_fmap.
  split; [exact (models_nodes_reached _ _ _ _ _ Hm' E) |]. split; [done|].
  intros p (a & -> & Ha)%list_elem_of_fmap.
  unfold get_next. by rewrite (Hnew a Ha).
Qed.

(** ** What each primitive does to the set of live heap addresses *)

Lemma bind_inv {A B} (c : M A) (k : A → M B) m r :
  bind c k m = Ok r → ∃ x m1, c m = Ok (x, m1) ∧ k x m1 = Ok r.
Proof. unfold bind. destruct (c m) as [[x m1]|]; [eauto | done]. Qed.

Lemma get_size_read l m z m' : get_size l m = Ok (z, m') → m' = m.
Proof. unfold get_size. destruct (objects m !! l); [| done]. by intros [= _ <-]. Qed.

Lemma set_size_dom l z m x m' : set_size l z m = Ok (x, m') → heap m' = heap m.
Proof. unfold set_size. destruct (objects m !! l); [| done]. by intros [= _ <-]. Qed.

Lemma set_next_dom p q m x m' :
  set_next p q m = Ok (x, m') → dom (heap m') = dom (heap m).
Proof.
  unfold set_next. destruct p as [|l|a]; [done | |].
  - destruct (objects m !! l); [| done]. by intros [= _ <-].
  - destruct (heap m !! a) as [n|] eqn:Ea; [| done]. intros [= _ <-]. simpl.
    rewrite dom_insert_L. apply (elem_of_dom_2 (heap m)) in Ea. set_solver.
Qed.

Lemma delete_Node_dom p m x m' :
  delete_Node p m = Ok (x, m') →
  (p = nullptr ∧ m' = m) ∨
  ∃ c, p = on_heap c ∧ c ∈ dom (heap m) ∧ dom (heap m') = dom (heap m) ∖ {[c]}.
Proof.
  unfold delete_Node. destruct p as [|l|c]; [intros [= _ <-]; auto | done |].
  destruct (heap m !! c) as [n|] eqn:Ec; [| done]. intros [= _ <-]. right.
  exists c. split; [done|]. split; [by apply (elem_of_dom_2 (heap m)) in Ec |].
  simpl. by rewrite dom_delete_L.
Qed.

Lemma new_Node_dom v q m p m' :
  new_Node v q m = Ok (p, m') →
  ∃ a, p = on_heap a ∧ (a ∉ dom (heap m)) ∧ dom (heap m') = {[a]} ∪ dom (heap m).
Proof.
  unfold new_Node. case_decide; [| done]. intros [= <- <-].
  eexists. split; [done|]. split; [apply is_fresh |]. simpl. by rewrite dom_insert_L.
Qed.

(** [EraseAfter], when it returns, has deleted the node that followed
    [pos] and no other. *)
Lemma EraseAfter_dom this pos m it m' :
  EraseAfter (Type_:=Type_) this pos m = Ok (it, m') →
  ∃ c, get_next (node_ pos) m = Ok (on_heap c, m) ∧
       dom (heap m') = dom (heap m) ∖ {[c]}.
Proof.
  unfold EraseAfter. intros H.
  apply bind_inv in H as (curr & m1 & H1 & H).
  pose proof (get_next_read _ _ _ _ H1) as ->.
  apply bind_inv in H as (nxt & m1 & H2 & H).
  pose proof (get_next_read _ _ _ _ H2) as ->.
  apply bind_inv in H as ([] & m1 & H3 & H). apply set_next_dom in H3.
  apply bind_inv in H as ([] & m2 & H4 & H).
  apply bind_inv in H as (s & m3 & H5 & H).
  pose proof (get_size_read _ _ _ _ H5) as ->.
  apply bind_inv in H as ([] & m3 & H6 & H). apply set_size_dom in H6.
  apply bind_inv in H as (r & m4 & H7 & H).
  pose proof (get_next_read _ _ _ _ H7) as ->.
  unfold ret in H. injection H as _ <-.
  apply delete_Node_dom in H4 as [[-> _] | (c & -> & _ & Hdom)].
  { by unfold get_next in H2. }
  exists c. split; [done|]. rewrite H6, Hdom, H3. done.
Qed.

(** [PopFront], when it returns, has deleted the first node, if any. *)
Lemma PopFront_dom this m m' :
  PopFront (Type_:=Type_) this m = Ok (tt, m') →
  (get_next (head_of this) m = Ok (nullptr, m) ∧ m' = m) ∨
  ∃ c, get_next (head_of this) m = Ok (on_heap c, m) ∧
       dom (heap m') = dom (heap m) ∖ {[c]}.
Proof.
  unfold PopFront. intros H.
  apply bind_inv in H as (p & m1 & H1 & H).
  pose proof (get_next_read _ _ _ _ H1) as ->.
  case_decide as Hp.
  - apply bind_inv in H as (nxt & m1 & H2 & H).
    pose proof (get_next_read _ _ _ _ H2) as ->.
    apply bind_inv in H as ([] & m1 & H3 & H). apply set_next_dom in H3.
    apply bind_inv in H as ([] & m2 & H4 & H).
    apply bind_inv in H as (s & m3 & H5 & H).
    pose proof (get_size_read _ _ _ _ H5) as ->.
    apply set_size_dom in H.
    apply delete_Node_dom in H4 as [[-> _] | (c & -> & _ & Hdom)]; [done|].
    right. exists c. split; [done|]. rewrite H, Hdom, H3. done.
  - left. subst p. unfold ret in H. by injection H as <-.
Qed.

(** ** Cells of a chain *)

Lemma is_chain_drop h p cs i :
  is_chain h p cs → is_chain h (chain_head (drop i cs)) (drop i cs).
Proof.
  intros Hc. rewrite <- (take_drop i cs) in Hc.
  apply is_seg_app in Hc as (r & _ & Hd).
  by rewrite <- (is_chain_head _ _ _ Hd).
Qed.

Lemma models_cell σ m l cs_pre a v cs_post n :
  models σ m → σ !! l = Some (cs_pre ++ (a, v) :: cs_post, n) →
  heap m !! a = Some (mkNode (Some v) (chain_head cs_post)).
Proof.
  intros Hm E. destruct (models_lookup _ _ _ _ _ Hm E) as (L & _ & Hc & _).
  apply is_seg_app in Hc as (r & _ & Hc). simpl in Hc.
  destruct Hc as (_ & nxt & Ea & Hpost).
  by rewrite (is_chain_head _ _ _ Hpost) in Ea.
Qed.

Lemma advance_chain m cs : ∀ i p,
  is_chain (heap m) p cs → i ≤ length cs →
  advance i (Iterator p) m = Ok (Iterator (chain_head (drop i cs)), m).
Proof.
  unfold is_chain. induction cs as [|[a v] cs IH]; intros i p Hc Hi; simpl in *.
  - assert (i = 0) as -> by lia. subst p. done.
  - destruct Hc as (-> & nxt & Ea & Hrest). destruct i as [|i]; [done|].
    simpl. unfold bind, pre_incr, bind, get_next, ret. simpl. rewrite Ea. simpl.
    apply IH; [done | lia].
Qed.

Lemma bind_assoc {A B D} (c : M A) (f : A → M B) (g : B → M D) (m : @Memory Type_) :
  bind (bind c f) g m = bind c (fun x => bind (f x) g) m.
Proof. unfold bind. by destruct (c m) as [[x m1]|]. Qed.

Lemma bind_ext {A B} (c : M A) (f g : A → M B) (m : @Memory Type_) :
  (∀ x m1, f x m1 = g x m1) → bind c f m = bind c g m.
Proof. intros H. unfold bind. destruct (c m) as [[x m1]|]; [apply H | done]. Qed.

Lemma advance_succ n : ∀ it (m : @Memory Type_),
  advance (S n) it m = bind (advance n it) pre_incr m.
Proof.
  induction n as [|n IH]; intros it m.
  - simpl. unfold bind, ret. by destruct (pre_incr it m) as [[? ?]|].
  - transitivity (bind (pre_incr it) (fun it1 => bind (advance n it1) pre_incr) m).
    + apply (bind_ext (pre_incr it) (fun it' => advance (S n) it')). intros x m1. apply IH.
    + symmetry. apply (bind_assoc (pre_incr it) (fun it1 => advance n it1) pre_incr).
Qed.

(** An iterator obtained from [begin()] by [i] increments, [i] below the
    length, references the cell of index [i]. *)
Lemma advance_models σ m this cs n b i pos m' :
  models σ m → σ !! this = Some (cs, n) →
  begin this m = Ok (b, m) → advance i b m = Ok (pos, m') → i < length cs →
  ∃ a w, cs !! i = Some (a, w) ∧ pos = Iterator (on_heap a) ∧
         cs = (take i cs ++ [(a, w)]) ++ drop (S i) cs.
Proof.
  intros Hm E Hb Ha Hi.
  destruct (models_lookup _ _ _ _ _ Hm E) as (L & EL & Hc & Hs).
  rewrite (models_begin _ _ _ _ _ Hm E) in Hb. apply Ok_inj in Hb as [<- _].
  rewrite (advance_chain m cs i) in Ha.
  2: { by rewrite <- (is_chain_head _ _ _ Hc). }
  2: lia.
  apply Ok_inj in Ha as [<- _].
  destruct (lookup_lt_is_Some_2 cs i Hi) as [[a w] Hl].
  exists a, w. split; [done|].
  rewrite (drop_S _ _ _ Hl). split; [done|].
  rewrite <- app_assoc. simpl. by rewrite take_drop_middle.
Qed.

Lemma fmap_lookup_snd cs i (v : Type_) :
  cs.*2 !! i = Some v → ∃ a, cs !! i = Some (a, v).
Proof.
  rewrite list_lookup_fmap. destruct (cs !! i) as [[a w]|]; [| done].
  simpl. intros [= <-]. eauto.
Qed.

(** ** Iterators *)

(** X4. Walking a list with iterators: [++before_begin()] is [begin()];
    [begin()] advanced [i] times references the element of index [i], which
    [*] reads, and differs from [end()]; advanced as many times as the list
    is long it is [end()]; one more [++], or [*end()], is undefined. *)
Theorem iterator_walk m this (vs : list Type_) :
  reachable m → traversal this m = Ok (vs, m) →
  ∃ b, begin this m = Ok (b, m) ∧
       pre_incr (before_begin this) m = Ok (b, m) ∧
       (∀ i v, vs !! i = Some v →
          ∃ it, advance i b m = Ok (it, m) ∧ deref it m = Ok (v, m) ∧
                iter_ne it (end_ this) = true ∧
                post_incr it m = (do next <- pre_incr it; ret (it, next)) m) ∧
       advance (length vs) b m = Ok (end_ this, m) ∧
       advance (S (length vs)) b m = Err undefined_behaviour ∧
       deref (end_ this) m = Err undefined_behaviour.
Proof.
  intros Hr Ht. destruct (reachable_wf _ Hr) as (Hb & σ & Hm & Hcnt).
  destruct (traversal_models _ _ _ _ _ Hm Ht) as (cs & n & E & Hvs).
  destruct (models_lookup _ _ _ _ _ Hm E) as (L & EL & Hc & Hs).
  pose proof (models_begin _ _ _ _ _ Hm E) as Hbegin.
  assert (is_chain (heap m) (chain_head cs) cs) as Hc'
    by (by rewrite <- (is_chain_head _ _ _ Hc)).
  exists (Iterator (chain_head cs)). split; [done|]. split; [exact Hbegin |].
  assert (length vs = length cs) as Hlen by (by rewrite <- Hvs, length_fmap).
  assert (advance (length vs) (Iterator (chain_head cs)) m = Ok (end_ this, m)) as Hend.
  { rewrite (advance_chain m cs (length vs) _ Hc') by lia.
    rewrite Hlen, drop_all. done. }
  split; [| split; [done | split; [| done]]].
  - intros i v Hv. rewrite <- Hvs in Hv.
    destruct (fmap_lookup_snd _ _ _ Hv) as (a & Ha).
    pose proof (lookup_lt_Some _ _ _ Ha) as Hi.
    exists (Iterator (on_heap a)).
    rewrite (advance_chain m cs i _ Hc') by lia.
    rewrite (drop_S _ _ _ Ha). simpl.
    split; [done|].
    assert (cs = take i cs ++ (a, v) :: drop (S i) cs) as Hsplit
      by (by rewrite take_drop_middle).
    rewrite Hsplit in E.
    pose proof (models_cell _ _ _ _ _ _ _ _ Hm E) as Ea.
    split; [| split; [done |]].
    + unfold deref, get_value. simpl. by rewrite Ea.
    + unfold post_incr, pre_incr, bind, get_next, ret. simpl. by rewrite Ea.
  - rewrite advance_succ. unfold bind. by rewrite Hend.
Qed.

(** ** Positional operations in the middle of a list *)

Lemma take_S_fmap_snd cs i a (w : Type_) :
  cs !! i = Some (a, w) → (take i cs ++ [(a, w)]).*2 = take (S i) cs.*2.
Proof. intros Hl. by rewrite <- fmap_take, (take_S_r _ _ _ Hl). Qed.

Lemma take_S_fmap_fst cs i a (w : Type_) :
  cs !! i = Some (a, w) → (take i cs ++ [(a, w)]).*1 = take (S i) cs.*1.
Proof. intros Hl. by rewrite <- fmap_take, (take_S_r _ _ _ Hl). Qed.

(** X5. [InsertAfter(pos, v)] with [pos] at the element of index [i]
    returns whenever the heap has room for one node; the new value sits
    right after that element, the elements before and after keep their
    order, the size grows by one, the returned iterator is [++pos] and reads
    [v], and every node the list had is still a node of it, at the same
    address. *)
Theorem InsertAfter_at_index m this (vs : list Type_) n ns b i pos v :
  reachable m → traversal this m = Ok (vs, m) → GetSize this m = Ok (n, m) →
  nodes_reached this m = Ok (ns, m) →
  begin this m = Ok (b, m) → advance i b m = Ok (pos, m) → i < length vs →
  ((Z.of_nat (size (heap m) + 1) ≤ SIZE_MAX)%Z →
     ∃ it m', InsertAfter this pos v m = Ok (it, m')) ∧
  ∀ it m', InsertAfter this pos v m = Ok (it, m') →
    traversal this m' = Ok (take (S i) vs ++ v :: drop (S i) vs, m') ∧
    GetSize this m' = Ok ((n + 1)%Z, m') ∧
    deref it m' = Ok (v, m') ∧
    pre_incr pos m' = Ok (it, m') ∧
    nodes_reached this m' = Ok (take (S i) ns ++ node_ it :: drop (S i) ns, m') ∧
    get_next (node_ it) m = Err undefined_behaviour.
Proof.
  intros Hr Ht Hsize Hnodes Hbegin Hadv Hi.
  destruct (reachable_wf _ Hr) as (Hb & σ & Hm & Hcnt).
  destruct (traversal_models _ _ _ _ _ Hm Ht) as (cs & k & E & Hvs).
  pose proof (GetSize_models _ _ _ _ _ _ _ Hm E Hsize) as ->.
  rewrite (models_nodes_reached _ _ _ _ _ Hm E) in Hnodes.
  apply Ok_inj in Hnodes as [<- _].
  pose proof (Hcnt _ _ _ E) as Hk.
  assert (length vs = length cs) as Hlen by (by rewrite <- Hvs, length_fmap).
  destruct (advance_models _ _ _ _ _ _ _ _ _ Hm E Hbegin Hadv) as (a & w & Hl & -> & Hsplit);
    [lia |].
  set (cs_pre := take i cs ++ [(a, w)]) in *. set (cs_post := drop (S i) cs) in *.
  assert (σ !! this = Some (cs_pre ++ cs_post, k)) as E2 by (by rewrite <- Hsplit).
  assert (anchored this (Iterator (on_heap a)) cs_pre) as Hanch.
  { right. exists (take i cs), a, w. done. }
  pose proof (InsertAfter_spec σ m this _ _ _ k v Hm E2 Hanch) as Hwp.
  destruct (wp_cases _ _ _ _ Hwp) as (Hroom & Hok & _).
  split.
  { intros Hfits. destruct (Hroom Hfits) as (it & m' & Hrun & _). eauto. }
  intros it m' Hrun.
  pose proof (wp_ok_bounded _ _ _ _ _ _ Hwp Hrun Hb) as Hb'.
  destruct (Hok _ _ Hrun) as (a' & Ha' & -> & Hm').
  pose proof (lookup_insert_eq σ this (cs_pre ++ (a', v) :: cs_post, wrap (k + 1))) as E'.
  pose proof (models_cell _ _ _ _ _ _ _ _ Hm' E') as Ecell.
  assert (<[this := (cs_pre ++ (a', v) :: cs_post, wrap (k + 1))]> σ !! this
          = Some (take i cs ++ (a, w) :: (a', v) :: cs_post, wrap (k + 1))) as E''.
  { rewrite E'. unfold cs_pre. by rewrite <- app_assoc. }
  pose proof (models_cell _ _ _ _ _ _ _ _ Hm' E'') as Ecell'.
  split.
  { rewrite (models_traversal _ _ _ _ _ Hm' E'). rewrite fmap_app, fmap_cons. simpl.
    unfold cs_pre, cs_post. rewrite (take_S_fmap_snd _ _ _ _ Hl), fmap_drop, Hvs. done. }
  split.
  { rewrite (models_GetSize _ _ _ _ _ Hm' E').
    pose proof (models_length_bound _ _ _ _ _ Hm' Hb' E') as Hbound.
    rewrite length_app in Hbound. simpl in Hbound.
    rewrite Hsplit, length_app in Hk. fold cs_pre cs_post in Hk.
    rewrite wrap_small; [done | lia]. }
  split; [unfold deref, get_value; simpl; by rewrite Ecell |].
  split; [unfold pre_incr, bind, get_next, ret; simpl; by rewrite Ecell' |].
  split.
  { rewrite (models_nodes_reached _ _ _ _ _ Hm' E'). rewrite !fmap_app, !fmap_cons. simpl.
    unfold cs_pre, cs_post.
    by rewrite (take_S_fmap_fst _ _ _ _ Hl), !fmap_take, !fmap_drop. }
  unfold get_next. simpl. by rewrite Ha'.
Qed.

(** X6. [EraseAfter(pos)] with [pos] at the element of index [i], when an
    element of index [i + 1] exists, always returns: exactly that next
    element is removed, the others keep their order and their nodes, the
    size drops by one, the returned iterator is [++pos] in the new list, and
    the node of the erased element is deallocated, it alone. *)
Theorem EraseAfter_at_index m this (vs : list Type_) n ns b i pos :
  reachable m → traversal this m = Ok (vs, m) → GetSize this m = Ok (n, m) →
  nodes_reached this m = Ok (ns, m) →
  begin this m = Ok (b, m) → advance i b m = Ok (pos, m) → S i < length vs →
  ∃ it m', EraseAfter this pos m = Ok (it, m') ∧
    traversal this m' = Ok (take (S i) vs ++ drop (S (S i)) vs, m') ∧
    GetSize this m' = Ok ((n - 1)%Z, m') ∧
    pre_incr pos m' = Ok (it, m') ∧
    nodes_reached this m' = Ok (take (S i) ns ++ drop (S (S i)) ns, m') ∧
    (∀ p, ns !! S i = Some p →
       get_next p m' = Err undefined_behaviour ∧
       ∀ q, q ≠ p → get_next q m' = Err undefined_behaviour →
            get_next q m = Err undefined_behaviour).
Proof.
  intros Hr Ht Hsize Hnodes Hbegin Hadv Hi.
  destruct (reachable_wf _ Hr) as (Hb & σ & Hm & Hcnt).
  destruct (traversal_models _ _ _ _ _ Hm Ht) as (cs & k & E & Hvs).
  pose proof (GetSize_models _ _ _ _ _ _ _ Hm E Hsize) as ->.
  rewrite (models_nodes_reached _ _ _ _ _ Hm E) in Hnodes.
  apply Ok_inj in Hnodes as [<- _].
  pose proof (Hcnt _ _ _ E) as Hk.
  assert (length vs = length cs) as Hlen by (by rewrite <- Hvs, length_fmap).
  destruct (advance_models _ _ _ _ _ _ _ _ _ Hm E Hbegin Hadv) as (a & w & Hl & -> & Hsplit);
    [lia |].
  destruct (lookup_lt_is_Some_2 cs (S i)) as [[c u] Hc]; [lia |].
  rewrite (drop_S _ _ _ Hc) in Hsplit.
  set (cs_pre := take i cs ++ [(a, w)]) in *. set (cs_post := drop (S (S i)) cs) in *.
  assert (σ !! this = Some (cs_pre ++ (c, u) :: cs_post, k)) as E2 by (by rewrite <- Hsplit).
  assert (anchored this (Iterator (on_heap a)) cs_pre) as Hanch.
  { right. exists (take i cs), a, w. done. }
  pose proof (EraseAfter_spec σ m this _ _ _ _ _ k Hm E2 Hanch) as Hwp.
  destruct (wp_total _ _ _ Hb Hwp) as (it & m' & Hrun & -> & Hm').
  pose proof (wp_ok_bounded _ _ _ _ _ _ Hwp Hrun Hb) as Hb'.
  pose proof (lookup_insert_eq σ this (cs_pre ++ cs_post, wrap (k - 1))) as E'.
  assert (<[this := (cs_pre ++ cs_post, wrap (k - 1))]> σ !! this
          = Some (take i cs ++ (a, w) :: cs_post, wrap (k - 1))) as E''.
  { rewrite E'. unfold cs_pre. by rewrite <- app_assoc. }
  pose proof (models_cell _ _ _ _ _ _ _ _ Hm' E'') as Ecell.
  exists (Iterator (chain_head cs_post)), m'. split; [done|].
  split.
  { rewrite (models_traversal _ _ _ _ _ Hm' E'). rewrite fmap_app.
    unfold cs_pre, cs_post. rewrite (take_S_fmap_snd _ _ _ _ Hl), fmap_drop, Hvs. done. }
  split.
  { rewrite (models_GetSize _ _ _ _ _ Hm' E').
    rewrite Hsplit, length_app in Hk. simpl in Hk.
    pose proof (models_length_bound _ _ _ _ _ Hm Hb E2) as Hbound.
    rewrite length_app in Hbound. simpl in Hbound.
    rewrite wrap_small; [done | lia]. }
  split; [unfold pre_incr, bind, get_next, ret; simpl; by rewrite Ecell |].
  split.
  { rewrite (models_nodes_reached _ _ _ _ _ Hm' E'). rewrite !fmap_app.
    unfold cs_pre, cs_post.
    by rewrite (take_S_fmap_fst _ _ _ _ Hl), !fmap_take, !fmap_drop. }
  intros p Hp. rewrite !list_lookup_fmap, Hc in Hp. simpl in Hp. injection Hp as <-.
  destruct (EraseAfter_dom _ _ _ _ _ Hrun) as (c' & Hnext & Hdom).
  assert (get_next (on_heap a) m = Ok (on_heap c, m)) as Hnext'.
  { assert (σ !! this = Some (take i cs ++ (a, w) :: (c, u) :: cs_post, k)) as E3.
    { rewrite E2. unfold cs_pre. by rewrite <- app_assoc. }
    unfold get_next. by rewrite (models_cell _ _ _ _ _ _ _ _ Hm E3). }
  cbn [node_] in Hnext. rewrite Hnext' in Hnext. injection Hnext as <-.
  assert (∀ x, heap m' !! x = None ↔ x = c ∨ heap m !! x = None) as Hdead.
  { intros x. rewrite <- !not_elem_of_dom, Hdom.
    destruct (decide (x = c)) as [->|Hx]; set_solver. }
  split.
  { unfold get_next. destruct (heap m' !! c) eqn:Ec; [| done].
    assert (heap m' !! c = None) as Hn by (apply Hdead; auto). congruence. }
  intros q Hq Hgone.
  destruct q as [|l|x]; [done | |].
  - unfold get_next in *.
    destruct (wp_inv _ _ _ _ _ _ Hwp Hrun Hb) as (_ & _ & Hm'').
    destruct (objects m' !! l) as [L'|] eqn:EL'; [done|].
    destruct (objects m !! l) as [L|] eqn:EL; [| done].
    destruct (models_alive _ _ _ Hm (ltac:(eauto) : is_Some (objects m !! l))) as [[cl kl] El].
    destruct (decide (l = this)) as [->|Hne].
    + destruct (models_lookup _ _ _ _ _ Hm' E') as (? & ? & _). congruence.
    + assert (<[this := (cs_pre ++ cs_post, wrap (k - 1))]> σ !! l = Some (cl, kl)) as El'
        by (by rewrite lookup_insert_ne).
      destruct (models_lookup _ _ _ _ _ Hm' El') as (? & ? & _). congruence.
  - unfold get_next in *. destruct (heap m' !! x) eqn:Ex; [done|].
    apply Hdead in Ex as [->|Ex]; [done|]. by rewrite Ex.
Qed.

(** ** Round trips *)

Lemma wrap_succ_pred s : (0 ≤ s ≤ SIZE_MAX)%Z → wrap (wrap (s + 1) - 1) = s.
Proof.
  intros H. destruct (decide (s = SIZE_MAX)) as [-> | Hne]; [reflexivity |].
  rewrite (wrap_small (s + 1)) by lia.
  replace (s + 1 - 1)%Z with s by lia. by apply wrap_small.
Qed.

Lemma wrap_pred_succ s : (0 ≤ s ≤ SIZE_MAX)%Z → wrap (wrap (s - 1) + 1) = s.
Proof.
  intros H. destruct (decide (s = 0%Z)) as [-> | Hne]; [reflexivity |].
  rewrite (wrap_small (s - 1)) by lia.
  replace (s - 1 + 1)%Z with s by lia. by apply wrap_small.
Qed.

Lemma reachable_size_range m this L :
  reachable m → objects m !! this = Some L → (0 ≤ size_ L ≤ SIZE_MAX)%Z.
Proof.
  intros Hr EL. destruct (reachable_wf _ Hr) as (Hb & σ & Hm & Hcnt).
  destruct (models_alive _ _ _ Hm (mk_is_Some _ _ EL)) as [[cs k] E].
  destruct (models_lookup _ _ _ _ _ Hm E) as (L' & EL' & Hc & Hs).
  rewrite EL in EL'. injection EL' as <-.
  pose proof (Hcnt _ _ _ E). pose proof (models_length_bound _ _ _ _ _ Hm Hb E). lia.
Qed.

Lemma fresh_free (m : @Memory Type_) : heap m !! fresh (dom (heap m)) = None.
Proof. apply not_elem_of_dom, is_fresh. Qed.

Lemma Memory_eq (m : @Memory Type_) h o : h = heap m → o = objects m → mkMem h o = m.
Proof. intros -> ->. by destruct m. Qed.

(** X8. Inserting after any position that can be advanced and at once
    erasing after the same position gives back exactly the memory there was
    before, the counter included, and [EraseAfter] returns the iterator that
    followed the position before. *)
Theorem InsertAfter_then_EraseAfter m this pos nxt (v : Type_) :
  reachable m → is_Some (objects m !! this) → pre_incr pos m = Ok (nxt, m) →
  (Z.of_nat (size (heap m) + 1) ≤ SIZE_MAX)%Z →
  ∃ it m1, InsertAfter this pos v m = Ok (it, m1) ∧
           deref it m1 = Ok (v, m1) ∧
           EraseAfter this pos m1 = Ok (nxt, m).
Proof.
  intros Hr [L EL] Hnext Hroom.
  pose proof (reachable_size_range _ _ _ Hr EL) as Hrange.
  pose proof (fresh_free m) as Hfree.
  destruct pos as [p]. unfold pre_incr, bind, ret in Hnext. cbn [node_] in Hnext.
  unfold InsertAfter, EraseAfter, deref, bind. cbn [node_].
  destruct (get_next p m) as [[old m0]|] eqn:Eold; [| done].
  injection Hnext as <- ->.
  unfold new_Node. rewrite decide_True by lia.
  set (a := fresh (dom (heap m))) in *.
  unfold set_next, get_size, set_size, get_value, delete_Node, ret.
  destruct p as [|l|b]; [done | |].
  - unfold get_next in *.
    destruct (objects m !! l) as [Ll|] eqn:Ell; [| done]. injection Eold as <-.
    destruct (decide (l = this)) as [-> | Hne].
    + rewrite EL in Ell. injection Ell as <-.
      repeat (progress (cbn [heap objects head_ next_node size_ value node_];
                        rewrite ?EL, ?lookup_insert_eq)).
      eexists _, _. split; [done|].
      repeat (progress (cbn [heap objects head_ next_node size_ value node_];
                        rewrite ?EL, ?lookup_insert_eq)).
      split; [done|]. f_equal. f_equal. apply Memory_eq.
      * apply delete_insert_id. exact Hfree.
      * rewrite wrap_succ_pred by done. rewrite !insert_insert_eq.
        apply insert_id. rewrite EL. by destruct L as [[]].
    + repeat (progress (cbn [heap objects head_ next_node size_ value node_];
                        rewrite ?EL, ?Ell, ?lookup_insert_eq, ?lookup_insert_ne by done)).
      eexists _, _. split; [done|].
      repeat (progress (cbn [heap objects head_ next_node size_ value node_];
                        rewrite ?EL, ?Ell, ?lookup_insert_eq, ?lookup_insert_ne by done)).
      split; [done|]. f_equal. f_equal. apply Memory_eq.
      * apply delete_insert_id. exact Hfree.
      * rewrite wrap_succ_pred by done.
        destruct L as [hL sL], Ll as [[vl nl] sl]. cbn [head_ size_ value next_node] in *.
        same_map.
  - unfold get_next in *.
    destruct (heap m !! b) as [nb|] eqn:Eb; [| done]. injection Eold as <-.
    assert (b ≠ a) as Hba by (intros ->; congruence).
    repeat (progress (cbn [heap objects head_ next_node size_ value node_];
                      rewrite ?EL, ?Eb, ?lookup_insert_eq, ?lookup_insert_ne, ?lookup_delete_ne by done)).
    eexists _, _. split; [done|].
    repeat (progress (cbn [heap objects head_ next_node size_ value node_];
                      rewrite ?EL, ?Eb, ?lookup_insert_eq, ?lookup_insert_ne, ?lookup_delete_ne by done)).
    split; [done|]. f_equal. f_equal. apply Memory_eq.
    + destruct nb as [vb nxb]. cbn [value next_node] in *. same_map.
    + rewrite wrap_succ_pred by done. rewrite insert_insert_eq.
      apply insert_id. rewrite EL. by destruct L.
Qed.

(** X9. [PushFront(v)] followed by [PopFront()] gives back exactly the
    memory there was before: the new node is deallocated again, the
    sentinel's link and the counter hold what they held. *)
Theorem PushFront_then_PopFront m this (v : Type_) :
  reachable m → is_Some (objects m !! this) →
  (Z.of_nat (size (heap m) + 1) ≤ SIZE_MAX)%Z →
  ∃ m1, PushFront this v m = Ok (tt, m1) ∧ PopFront this m1 = Ok (tt, m).
Proof.
  intros Hr [L EL] Hroom.
  pose proof (reachable_size_range _ _ _ Hr EL) as Hrange.
  pose proof (fresh_free m) as Hfree.
  unfold PushFront, PopFront, bind, get_next. rewrite EL.
  unfold new_Node. rewrite decide_True by lia.
  set (a := fresh (dom (heap m))) in *.
  unfold set_next, get_size, set_size, delete_Node, ret.
  repeat (progress (cbn [heap objects head_ next_node size_ value node_];
                    rewrite ?EL, ?lookup_insert_eq)).
  eexists. split; [done|].
  repeat (progress (cbn [heap objects head_ next_node size_ value node_];
                    rewrite ?EL, ?lookup_insert_eq)).
  rewrite decide_True by done.
  repeat (progress (cbn [heap objects head_ next_node size_ value node_];
                    rewrite ?EL, ?lookup_insert_eq)).
  f_equal. f_equal. apply Memory_eq.
  - apply delete_insert_id. exact Hfree.
  - rewrite wrap_succ_pred by done. rewrite !insert_insert_eq.
    apply insert_id. rewrite EL. by destruct L as [[]].
Qed.

(** ** Positions with nothing after them *)

(** X7. [EraseAfter] at a position that nothing follows (the past-the-end
    iterator, [before_begin()] of an empty list, the last element) and
    [InsertAfter] at the past-the-end iterator dereference a null pointer:
    undefined behaviour.  [PopFront] on an empty list, by contrast, returns
    and leaves the memory as it was. *)
Theorem nothing_after_the_position m this (vs : list Type_) :
  reachable m → traversal this m = Ok (vs, m) →
  (∀ pos, pos = end_ this ∨ (vs = [] ∧ pos = before_begin this) ∨
          (∃ b, begin this m = Ok (b, m) ∧ vs ≠ [] ∧
                advance (length vs - 1) b m = Ok (pos, m)) →
     EraseAfter this pos m = Err undefined_behaviour) ∧
  (∀ v, InsertAfter this (end_ this) v m = Err undefined_behaviour) ∧
  (vs = [] → PopFront this m = Ok (tt, m)).
Proof.
  intros Hr Ht. destruct (reachable_wf _ Hr) as (Hb & σ & Hm & Hcnt).
  destruct (traversal_models _ _ _ _ _ Hm Ht) as (cs & k & E & Hvs).
  assert (length vs = length cs) as Hlen by (by rewrite <- Hvs, length_fmap).
  split; [| split].
  - intros pos [-> | [[-> ->] | (b & Hbegin & Hne & Hadv)]].
    + done.
    + destruct cs; [| done]. eapply EraseAfter_last; [exact Hm | exact E | by left].
    + assert (0 < length vs) by (destruct vs; [done | simpl; lia]).
      destruct (advance_models _ _ _ _ _ _ _ _ _ Hm E Hbegin Hadv)
        as (a & w & Hl & -> & Hsplit); [lia |].
      rewrite (drop_ge cs) in Hsplit by lia. rewrite app_nil_r in Hsplit.
      rewrite Hsplit in E.
      eapply EraseAfter_last; [exact Hm | exact E | right; eauto].
  - done.
  - intros ->. destruct cs; [| done].
    pose proof (PopFront_spec σ m this [] k Hm E) as Hwp.
    destruct (wp_total _ _ _ Hb Hwp) as ([] & m' & Hrun & ->). done.
Qed.

(** ** Exchanging twice *)

(** X10. On two live list objects, whatever the memory, [swap] returns; it
    does not matter which of the two is [this]; a second [swap] gives back
    exactly the memory there was before; and swapping a list with itself
    changes nothing. *)
Theorem swap_is_its_own_inverse (m : @Memory Type_) A B :
  is_Some (objects m !! A) → is_Some (objects m !! B) →
  ∃ m', swap A B m = Ok (tt, m') ∧ swap B A m = Ok (tt, m') ∧
        free_swap A B m = Ok (tt, m') ∧
        swap A B m' = Ok (tt, m) ∧ (A = B → m' = m).
Proof.
  intros [LA EA] [LB EB].
  rewrite (swap_memory m A B LA LB EA EB), (swap_memory m B A LB LA EB EA).
  unfold free_swap. rewrite (swap_memory m A B LA LB EA EB).
  eexists. split; [done|].
  destruct (decide (A = B)) as [-> | Hne].
  - assert (LA = LB) as -> by congruence.
    assert (mkMem (heap m)
              (<[B := mkList (mkNode (value (head_ LB)) (next_node (head_ LB))) (size_ LB)]>
                 (<[B := mkList (mkNode (value (head_ LB)) (next_node (head_ LB))) (size_ LB)]>
                    (objects m))) = m) as Hsame.
    { apply Memory_eq; [done|]. rewrite insert_insert_eq. apply insert_id.
      rewrite EB. by destruct LB as [[]]. }
    rewrite Hsame. split; [done|]. split; [done|]. split; [| done].
    rewrite (swap_memory m B B LB LB EB EB). by rewrite Hsame.
  - split; [do 2 f_equal; f_equal; same_map |]. split; [done|].
    split; [| done].
    erewrite swap_memory;
      [| cbn [objects]; apply lookup_insert_eq
       | cbn [objects]; rewrite lookup_insert_ne by done; apply lookup_insert_eq].
    cbn [heap objects head_ next_node size_ value].
    do 2 f_equal. apply Memory_eq; [done|].
    destruct LA as [[va na] sa], LB as [[vb nb] sb]. cbn [head_ size_ value next_node] in *.
    same_map.
Qed.

(** ** Assigning through an iterator *)

(** X11. [*it = v] with [it] at the element of index [i] replaces that
    element and no other: the list then reads [v] at index [i], the other
    values, the size and the nodes are the same. *)
Theorem store_through_iterator m this (vs : list Type_) n ns b i pos v :
  reachable m → traversal this m = Ok (vs, m) → GetSize this m = Ok (n, m) →
  nodes_reached this m = Ok (ns, m) →
  begin this m = Ok (b, m) → advance i b m = Ok (pos, m) → i < length vs →
  ∃ m', set_value (node_ pos) v m = Ok (tt, m') ∧
        deref pos m' = Ok (v, m') ∧
        traversal this m' = Ok (<[i := v]> vs, m') ∧
        GetSize this m' = Ok (n, m') ∧
        nodes_reached this m' = Ok (ns, m').
Proof.
  intros Hr Ht Hsize Hnodes Hbegin Hadv Hi.
  destruct (reachable_wf _ Hr) as (Hb & σ & Hm & Hcnt).
  destruct (traversal_models _ _ _ _ _ Hm Ht) as (cs & k & E & Hvs).
  pose proof (GetSize_models _ _ _ _ _ _ _ Hm E Hsize) as ->.
  rewrite (models_nodes_reached _ _ _ _ _ Hm E) in Hnodes.
  apply Ok_inj in Hnodes as [<- _].
  assert (length vs = length cs) as Hlen by (by rewrite <- Hvs, length_fmap).
  destruct (advance_models _ _ _ _ _ _ _ _ _ Hm E Hbegin Hadv) as (a & w & Hl & -> & Hsplit);
    [lia |].
  assert (σ !! this = Some ((take i cs ++ [(a, w)]) ++ drop (S i) cs, k)) as E2
    by (by rewrite <- Hsplit).
  pose proof (set_value_spec σ m this (Iterator (on_heap a)) _ _ _ _ k v Hm E2 eq_refl) as Hwp.
  destruct (wp_total _ _ _ Hb Hwp) as ([] & m' & Hrun & Hm').
  pose proof (lookup_insert_eq σ this ((take i cs ++ [(a, v)]) ++ drop (S i) cs, k)) as E'.
  exists m'. split; [done|].
  split.
  { assert (<[this := ((take i cs ++ [(a, v)]) ++ drop (S i) cs, k)]> σ !! this
            = Some (take i cs ++ (a, v) :: drop (S i) cs, k)) as E''
      by (by rewrite E', <- app_assoc).
    unfold deref, get_value. cbn [node_].
    by rewrite (models_cell _ _ _ _ _ _ _ _ Hm' E''). }
  split.
  { rewrite (models_traversal _ _ _ _ _ Hm' E'). rewrite <- Hvs.
    rewrite insert_take_drop by (rewrite length_fmap; lia).
    by rewrite <- app_assoc, !fmap_app, fmap_cons, fmap_take, fmap_drop. }
  split; [by rewrite (models_GetSize _ _ _ _ _ Hm' E') |].
  rewrite (models_nodes_reached _ _ _ _ _ Hm' E'). do 3 f_equal.
  transitivity ((take i cs ++ (a, w) :: drop (S i) cs).*1);
    [| by rewrite take_drop_middle].
  by rewrite <- app_assoc, !fmap_app, !fmap_cons.
Qed.

(** ** The six comparisons of an ordered element type *)

Lemma lex_compare_converse (Type_eq Type_lt : Type_ → Type_ → bool) :
  (∀ x y : Type_, Type_lt x y = true → Type_lt y x = false) →
  (∀ x y : Type_, Type_eq x y = negb (Type_lt x y) && negb (Type_lt y x)) →
  ∀ xs ys,
    lex_compare Type_lt ys xs
      = negb (lex_compare Type_lt xs ys || elements_equal Type_eq xs ys) ∧
    elements_equal Type_eq ys xs = elements_equal Type_eq xs ys ∧
    (lex_compare Type_lt xs ys = true → elements_equal Type_eq xs ys = false).
Proof.
  intros Hasym Heq. induction xs as [|x xs IH]; intros [|y ys]; simpl; try done.
  destruct (IH ys) as (IH1 & IH2 & IH3).
  rewrite (Heq x y), (Heq y x).
  destruct (Type_lt x y) eqn:Exy.
  - by rewrite (Hasym _ _ Exy).
  - destruct (Type_lt y x) eqn:Eyx; simpl; done.
Qed.

Lemma elements_equal_refl (Type_eq Type_lt : Type_ → Type_ → bool) :
  (∀ x y : Type_, Type_lt x y = true → Type_lt y x = false) →
  (∀ x y : Type_, Type_eq x y = negb (Type_lt x y) && negb (Type_lt y x)) →
  ∀ xs, elements_equal Type_eq xs xs = true.
Proof.
  intros Hasym Heq. induction xs as [|x xs IH]; simpl; [done|].
  rewrite IH, Heq. destruct (Type_lt x x) eqn:Exx; [| done].
  by rewrite (Hasym _ _ Exx) in Exx.
Qed.

(** X12. When [<] of the element type is asymmetric and its [==] holds
    exactly of the elements neither of which is below the other, the six
    operators on lists fit together as those of a total order: [a > b] is
    [b < a], [a >= b] is [b <= a], [==] is symmetric and holds of a list and
    itself, and exactly one of [a < b], [a == b], [a > b] is true. *)
Theorem comparisons_of_an_ordered_type (Type_eq Type_lt : Type_ → Type_ → bool)
    m lhs rhs (xs ys : list Type_) :
  (∀ x y : Type_, Type_lt x y = true → Type_lt y x = false) →
  (∀ x y : Type_, Type_eq x y = negb (Type_lt x y) && negb (Type_lt y x)) →
  traversal lhs m = Ok (xs, m) → traversal rhs m = Ok (ys, m) →
  operator_gt Type_eq Type_lt lhs rhs m = operator_lt Type_lt rhs lhs m ∧
  operator_ge Type_lt lhs rhs m = operator_le Type_eq Type_lt rhs lhs m ∧
  operator_eq Type_eq lhs rhs m = operator_eq Type_eq rhs lhs m ∧
  operator_eq Type_eq lhs lhs m = Ok (true, m) ∧
  ∃ lt eq gt,
    operator_lt Type_lt lhs rhs m = Ok (lt, m) ∧
    operator_eq Type_eq lhs rhs m = Ok (eq, m) ∧
    operator_gt Type_eq Type_lt lhs rhs m = Ok (gt, m) ∧
    ((lt = true ∧ eq = false ∧ gt = false) ∨
     (lt = false ∧ eq = true ∧ gt = false) ∨
     (lt = false ∧ eq = false ∧ gt = true)).
Proof.
  intros Hasym Heq Hx Hy.
  destruct (operators_agree Type_eq Type_lt _ _ _ _ _ Hx Hy)
    as (e1 & l1 & He1 & Hl1 & _ & _ & _ & Hle1 & Hgt1 & Hge1).
  destruct (operators_agree Type_eq Type_lt _ _ _ _ _ Hy Hx)
    as (e2 & l2 & He2 & Hl2 & _ & _ & _ & Hle2 & Hgt2 & Hge2).
  destruct (operators_agree Type_eq Type_lt _ _ _ _ _ Hx Hx)
    as (e3 & l3 & He3 & _).
  destruct (operators_on_walks Type_eq Type_lt _ _ _ _ _ Hx Hy) as (He1' & _ & Hl1').
  destruct (operators_on_walks Type_eq Type_lt _ _ _ _ _ Hy Hx) as (He2' & _ & Hl2').
  destruct (operators_on_walks Type_eq Type_lt _ _ _ _ _ Hx Hx) as (He3' & _ & _).
  destruct (lex_compare_converse Type_eq Type_lt Hasym Heq xs ys) as (Hconv & Hsym & Hexcl).
  rewrite He1' in He1. apply Ok_inj in He1 as [<- _].
  rewrite Hl1' in Hl1. apply Ok_inj in Hl1 as [<- _].
  rewrite He2' in He2. apply Ok_inj in He2 as [<- _].
  rewrite Hl2' in Hl2. apply Ok_inj in Hl2 as [<- _].
  rewrite Hgt1, Hge1, Hle2, He1', He2', He3', Hl2', Hl1'.
  rewrite Hconv, Hsym, (elements_equal_refl Type_eq Type_lt Hasym Heq).
  destruct (lex_compare Type_lt xs ys) eqn:Elt.
  - rewrite (Hexcl eq_refl). simpl.
    split; [done|]. split; [done|]. split; [done|]. split; [done|].
    exists true, false, false. naive_solver.
  - destruct (elements_equal Type_eq xs ys) eqn:Eeq; simpl.
    + split; [done|]. split; [done|]. split; [done|]. split; [done|].
      exists false, true, false. naive_solver.
    + split; [done|]. split; [done|]. split; [done|]. split; [done|].
      exists false, false, true. naive_solver.
Qed.

(** ** Nothing leaks *)

Lemma wp_size k {A} (c : M A) m post x m' :
  wp k c m post → c m = Ok (x, m') → size (heap m') ≤ size (heap m) + k.
Proof. unfold wp. intros H E. rewrite E in H. tauto. Qed.

(** A memory has one abstract state only. *)
Lemma models_unique σ1 σ2 m : models σ1 m → models σ2 m → σ1 = σ2.
Proof.
  assert (∀ σ σ' l cs n, models σ m → models σ' m →
            σ !! l = Some (cs, n) → σ' !! l = Some (cs, n)) as Hone.
  { intros σ σ' l cs n Hm Hm' E.
    destruct (models_lookup _ _ _ _ _ Hm E) as (L & EL & Hc & Hs).
    destruct (models_alive _ _ _ Hm' (mk_is_Some _ _ EL)) as [[cs' n'] E'].
    destruct (models_lookup _ _ _ _ _ Hm' E') as (L' & EL' & Hc' & Hs').
    rewrite EL in EL'. injection EL' as <-.
    rewrite E'. by rewrite (is_chain_inj _ _ _ _ Hc Hc'), <- Hs, <- Hs'. }
  intros H1 H2. apply map_eq. intros l.
  destruct (σ1 !! l) as [[cs n]|] eqn:E1.
  - symmetry. exact (Hone σ1 σ2 _ _ _ H1 H2 E1).
  - destruct (σ2 !! l) as [[cs n]|] eqn:E2; [| done].
    rewrite (Hone _ _ _ _ _ H2 H1 E2) in E1. done.
Qed.

Lemma models_cells_live σ m l cs n a :
  models σ m → σ !! l = Some (cs, n) → a ∈ cs.*1 → is_Some (heap m !! a).
Proof.
  intros Hm E Ha. destruct (models_lookup _ _ _ _ _ Hm E) as (L & _ & Hc & _).
  by eapply is_seg_lookup.
Qed.

Lemma models_separate σ m l1 l2 cs1 n1 cs2 n2 a :
  models σ m → σ !! l1 = Some (cs1, n1) → σ !! l2 = Some (cs2, n2) →
  a ∈ cs1.*1 → a ∈ cs2.*1 → l1 = l2.
Proof.
  intros (_ & _ & Hsep) E1 E2 H1 H2.
  destruct (decide (l1 = l2)) as [| Hne]; [done|].
  by destruct (Hsep _ _ _ _ _ _ Hne E1 E2 a H1).
Qed.

Lemma cells_of_NoDup σ m l : models σ m → NoDup (cells_of σ l).*1.
Proof.
  intros Hm. unfold cells_of. destruct (σ !! l) as [[cs n]|] eqn:E; [| constructor].
  destruct (models_lookup _ _ _ _ _ Hm E) as (L & _ & Hc & _).
  by eapply is_chain_NoDup.
Qed.

Lemma models_begin_next σ m l cs n :
  models σ m → σ !! l = Some (cs, n) →
  get_next (head_of l) m = Ok (chain_head cs, m).
Proof.
  intros Hm E. destruct (models_lookup _ _ _ _ _ Hm E) as (L & EL & Hc & _).
  unfold get_next. rewrite EL. by rewrite (is_chain_head _ _ _ Hc).
Qed.

Lemma anchored_next σ m this pos cs_pre c u cs_post n :
  models σ m → σ !! this = Some (cs_pre ++ (c, u) :: cs_post, n) →
  anchored this pos cs_pre →
  get_next (node_ pos) m = Ok (on_heap c, m).
Proof.
  intros Hm E [[-> ->] | (cs1 & b & w & -> & ->)].
  - by rewrite (models_begin_next _ _ _ _ _ Hm E).
  - rewrite <- app_assoc in E. unfold get_next.
    by rewrite (models_cell _ _ _ _ _ _ _ _ Hm E).
Qed.

(** The heap lost nodes, or kept them all: the list [this] keeps those of
    its cells that are still allocated. *)
Lemma tidy_shrink σ m m' this cs' n' :
  tidy σ m →
  (∀ a, is_Some (heap m' !! a) →
        is_Some (heap m !! a) ∧ (a ∈ (cells_of σ this).*1 → a ∈ cs'.*1)) →
  tidy (<[this := (cs', n')]> σ) m'.
Proof.
  intros Ht H a Ha. destruct (H a Ha) as [Ha0 Hkeep].
  destruct (Ht a Ha0) as (l & cs & n & El & Hin).
  destruct (decide (l = this)) as [->|Hne].
  - exists this, cs', n'. rewrite lookup_insert_eq. split; [done|].
    apply Hkeep. by rewrite (cells_of_lookup _ _ _ _ El).
  - exists l, cs, n. by rewrite lookup_insert_ne.
Qed.

(** The list [this] gained [k] cells and the heap at most [k] nodes: the
    new nodes are the new cells. *)
Lemma tidy_grow σ m m' this cs' n' k :
  models σ m → tidy σ m → models (<[this := (cs', n')]> σ) m' →
  size (heap m') ≤ size (heap m) + k →
  (∀ a, a ∈ (cells_of σ this).*1 → a ∈ cs'.*1) →
  length (cells_of σ this) + k ≤ length cs' →
  tidy (<[this := (cs', n')]> σ) m'.
Proof.
  intros Hm Ht Hm' Hsize Hold Hlen.
  pose proof (lookup_insert_eq σ this (cs', n')) as E'.
  set (D := dom (heap m)). set (D' := dom (heap m')).
  set (C' := list_to_set cs'.*1 : gset positive).
  set (Old := list_to_set (cells_of σ this).*1 : gset positive).
  assert (∀ a, a ∈ D → ∃ l cs n, σ !! l = Some (cs, n) ∧ a ∈ cs.*1) as Hown.
  { intros a Ha. apply Ht. by apply elem_of_dom. }
  assert (D ⊆ D') as HDD'.
  { intros a Ha. destruct (Hown a Ha) as (l & cs & n & El & Hin).
    apply elem_of_dom. destruct (decide (l = this)) as [->|Hne].
    - eapply models_cells_live; [exact Hm' | exact E' |].
      apply Hold. by rewrite (cells_of_lookup _ _ _ _ El).
    - eapply (models_cells_live _ _ l cs n); [exact Hm' | | done].
      by rewrite lookup_insert_ne. }
  assert (C' ⊆ D') as HCD'.
  { intros a Ha. apply elem_of_list_to_set in Ha. apply elem_of_dom.
    eapply models_cells_live; [exact Hm' | exact E' | done]. }
  assert (C' ∩ D ⊆ Old) as Hmeet.
  { intros a [Ha1 Ha2]%elem_of_intersection. apply elem_of_list_to_set in Ha1.
    destruct (Hown a Ha2) as (l & cs & n & El & Hin).
    apply elem_of_list_to_set.
    destruct (decide (l = this)) as [->|Hne].
    - by rewrite (cells_of_lookup _ _ _ _ El).
    - assert (<[this := (cs', n')]> σ !! l = Some (cs, n)) as El'
        by (by rewrite lookup_insert_ne).
      by destruct (Hne (models_separate _ _ _ _ _ _ _ _ _ Hm' El' E' Hin Ha1)). }
  assert (size C' = length cs') as HsC.
  { unfold C'. rewrite size_list_to_set; [by rewrite length_fmap |].
    destruct (models_lookup _ _ _ _ _ Hm' E') as (L & _ & Hc & _).
    by eapply is_chain_NoDup. }
  assert (size Old = length (cells_of σ this)) as HsO.
  { unfold Old. rewrite size_list_to_set; [by rewrite length_fmap |].
    by eapply cells_of_NoDup. }
  assert (D ∪ C' = D') as Hall.
  { apply set_subseteq_size_eq; [set_solver |].
    rewrite size_union_alt, size_difference_alt.
    pose proof (subseteq_size _ _ Hmeet).
    unfold D, D'. rewrite !size_dom. fold D D'. lia. }
  intros a Ha. apply elem_of_dom in Ha. fold D' in Ha. rewrite <- Hall in Ha.
  apply elem_of_union in Ha as [Ha | Ha].
  - destruct (Hown a Ha) as (l & cs & n & El & Hin).
    destruct (decide (l = this)) as [->|Hne].
    + exists this, cs', n'. split; [done|].
      apply Hold. by rewrite (cells_of_lookup _ _ _ _ El).
    + exists l, cs, n. by rewrite lookup_insert_ne.
  - exists this, cs', n'. split; [done|]. by apply elem_of_list_to_set in Ha.
Qed.

Lemma swap_tidy σ m m' this other cs1 n1 cs2 n2 :
  tidy σ m → σ !! this = Some (cs1, n1) → σ !! other = Some (cs2, n2) →
  heap m' = heap m →
  tidy (<[this := (cs2, n2)]> (<[other := (cs1, n1)]> σ)) m'.
Proof.
  intros Ht E1 E2 Hheap a Ha. rewrite Hheap in Ha.
  destruct (Ht a Ha) as (l & cs & n & El & Hin).
  destruct (decide (l = this)) as [->|N1].
  - exists other, cs, n. split; [| done]. rewrite E1 in El. injection El as <- <-.
    destruct (decide (other = this)) as [->|N2].
    + rewrite lookup_insert_eq. congruence.
    + rewrite lookup_insert_ne by done. by rewrite lookup_insert_eq.
  - destruct (decide (l = other)) as [->|N2].
    + exists this, cs, n. split; [| done]. rewrite lookup_insert_eq. congruence.
    + exists l, cs, n. by rewrite !lookup_insert_ne.
Qed.

(** [Clear] deallocates the nodes of the list and no other. *)
Lemma Clear_loop_dom this cs : ∀ fuel σ m n m',
  models σ m → σ !! this = Some (cs, n) →
  Clear_loop fuel this m = Ok (tt, m') →
  dom (heap m') = dom (heap m) ∖ list_to_set cs.*1.
Proof.
  induction cs as [|[c u] cs' IH]; intros fuel σ m n m' Hm E Hrun;
    destruct (models_lookup _ _ _ _ _ Hm E) as (L & EL & Hc & Hs).
  - assert (Clear_loop fuel this m = Ok (tt, m)) as Hrun'.
    { destruct fuel; simpl; unfold bind, get_next; rewrite EL;
        simpl in Hc; rewrite Hc; done. }
    rewrite Hrun' in Hrun. apply Ok_inj in Hrun as [_ <-]. simpl. set_solver.
  - pose proof (is_chain_NoDup _ _ _ Hc) as Hnd.
    simpl in Hc, Hnd. destruct Hc as (Ehd & r & Ec & Hpost).
    apply NoDup_cons in Hnd as (Hc1 & _).
    destruct fuel as [|fuel].
    { simpl in Hrun. unfold bind, get_next in Hrun. rewrite EL, Ehd in Hrun. done. }
    set (m1 := mkMem (delete c (heap m))
                 (<[this := mkList (mkNode (value (head_ L)) r) (size_ L)]> (objects m))).
    assert (Clear_loop (S fuel) this m = Clear_loop fuel this m1) as Hstep.
    { simpl. unfold bind at 1. unfold get_next at 1. rewrite EL, Ehd.
      rewrite decide_False by done.
      unfold bind at 1. unfold get_next at 1. rewrite Ec. cbn [next_node].
      unfold bind at 1. unfold delete_Node. rewrite Ec.
      unfold bind at 1. unfold set_next. cbn [heap objects]. rewrite EL. done. }
    rewrite Hstep in Hrun.
    assert (models (<[this := (cs', n)]> σ) m1) as Hm1.
    { apply (models_update σ m); simpl; try done.
      - rewrite (cells_of_lookup _ _ _ _ E). simpl.
        intros x Hx _. rewrite lookup_delete_ne; [done|].
        intros <-. apply Hx. left.
      - eapply is_seg_ext; [| exact Hpost].
        intros x Hx. rewrite lookup_delete_ne; [done|]. by intros <-.
      - rewrite (cells_of_lookup _ _ _ _ E). simpl. intros x Hx. left. by right. }
    rewrite (IH fuel _ m1 n m' Hm1 (lookup_insert_eq _ _ _) Hrun).
    unfold m1. simpl. rewrite dom_delete_L. set_solver.
Qed.

Lemma Clear_dom σ m this cs n m' :
  models σ m → σ !! this = Some (cs, n) → Clear this m = Ok (tt, m') →
  dom (heap m') = dom (heap m) ∖ list_to_set cs.*1.
Proof.
  intros Hm E Hrun. unfold Clear in Hrun.
  apply bind_inv in Hrun as ([] & m1 & Hloop & Hset).
  apply set_size_dom in Hset. rewrite Hset.
  by eapply Clear_loop_dom.
Qed.

Lemma Clear_tidy σ m this cs n m' :
  models σ m → tidy σ m → σ !! this = Some (cs, n) → Clear this m = Ok (tt, m') →
  tidy (<[this := ([], 0%Z)]> σ) m'.
Proof.
  intros Hm Ht E Hrun. pose proof (Clear_dom _ _ _ _ _ _ Hm E Hrun) as Hdom.
  apply (tidy_shrink σ m); [done|]. intros a Ha.
  apply elem_of_dom in Ha. rewrite Hdom in Ha.
  apply elem_of_difference in Ha as [Ha1 Ha2]. split; [by apply elem_of_dom |].
  rewrite (cells_of_lookup _ _ _ _ E). intros Hin.
  destruct Ha2. by apply elem_of_list_to_set.
Qed.

Lemma release_tidy σ m this m' :
  tidy (<[this := ([], 0%Z)]> σ) m → release this m = Ok (tt, m') →
  tidy (delete this σ) m'.
Proof.
  intros Ht Hrun. unfold release in Hrun.
  destruct (objects m !! this); [| done]. apply Ok_inj in Hrun as [_ <-].
  intros a Ha. simpl in Ha. destruct (Ht a Ha) as (l & cs & n & El & Hin).
  destruct (decide (l = this)) as [->|Hne].
  - rewrite lookup_insert_eq in El. injection El as <- <-. by apply elem_of_nil in Hin.
  - rewrite lookup_insert_ne in El by done. exists l, cs, n.
    by rewrite lookup_delete_ne.
Qed.

Lemma destroy_tidy σ m this cs n m' :
  models σ m → tidy σ m → σ !! this = Some (cs, n) → destroy this m = Ok (tt, m') →
  tidy (delete this σ) m'.
Proof.
  intros Hm Ht E Hrun. unfold destroy in Hrun.
  apply bind_inv in Hrun as ([] & m1 & Hclear & Hrel).
  eapply release_tidy; [| exact Hrel]. by eapply Clear_tidy.
Qed.

Lemma assign_tidy σ m junk this rhs ct nt cr nr m' :
  heap_bounded m → models σ m → tidy σ m → this ≠ rhs →
  σ !! this = Some (ct, nt) → σ !! rhs = Some (cr, nr) →
  assign junk this rhs m = Ok (tt, m') →
  ∃ σ', models σ' m' ∧ tidy σ' m'.
Proof.
  intros Hb Hm Ht Hne Et Er Hrun. unfold assign in Hrun.
  rewrite decide_True in Hrun by done.
  apply bind_inv in Hrun as (tmp & m1 & Hdef & Hrun).
  apply bind_inv in Hrun as ([] & m2 & Hcopy & Hrun).
  apply bind_inv in Hrun as ([] & m3 & Hswap & Hdestroy).
  (* the temporary *)
  pose proof (SingleLinkedList_default_spec σ m junk Hm) as W1.
  destruct (wp_inv _ _ _ _ _ _ W1 Hdef Hb) as (Hb1 & Hfresh & Hheap1 & Hm1).
  pose proof (models_fresh _ _ _ Hm Hfresh) as Etmp.
  assert (tmp ≠ this) as Htt by (intros ->; congruence).
  assert (tmp ≠ rhs) as Htr by (intros ->; congruence).
  assert (tidy (<[tmp := ([], 0%Z)]> σ) m1) as Ht1.
  { apply (tidy_shrink σ m); [done|]. intros a Ha. rewrite Hheap1 in Ha.
    split; [done|]. unfold cells_of. by rewrite Etmp. }
  (* the copy *)
  set (σ1 := <[tmp := ([], 0%Z)]> σ) in *.
  assert (σ1 !! tmp = Some ([], 0%Z)) as E1tmp by apply lookup_insert_eq.
  assert (σ1 !! rhs = Some (cr, nr)) as E1r by (unfold σ1; by rewrite lookup_insert_ne).
  assert (σ1 !! this = Some (ct, nt)) as E1t by (unfold σ1; by rewrite lookup_insert_ne).
  pose proof (MakeCopy_list_spec σ1 m1 tmp rhs cr nr 0%Z Hm1 E1tmp E1r) as W2.
  destruct (wp_inv _ _ _ _ _ _ W2 Hcopy Hb1) as (Hb2 & copy & Hvals & _ & Hm2).
  pose proof (wp_size _ _ _ _ _ _ W2 Hcopy) as Hsize2.
  set (n2 := match cr with [] => 0%Z | _ :: _ => count_from 0 (length cr) end) in *.
  assert (tidy (<[tmp := (copy, n2)]> σ1) m2) as Ht2.
  { apply (tidy_grow σ1 m1 m2 tmp copy n2 (length cr)); try done.
    - rewrite (cells_of_lookup _ _ _ _ E1tmp). intros a Ha. by apply elem_of_nil in Ha.
    - rewrite (cells_of_lookup _ _ _ _ E1tmp). simpl.
      apply (f_equal length) in Hvals. rewrite !length_fmap in Hvals. lia. }
  (* the exchange *)
  set (σ2 := <[tmp := (copy, n2)]> σ1) in *.
  assert (σ2 !! tmp = Some (copy, n2)) as E2tmp by apply lookup_insert_eq.
  assert (σ2 !! this = Some (ct, nt)) as E2t by (unfold σ2; by rewrite lookup_insert_ne).
  pose proof (swap_spec σ2 m2 this tmp _ _ _ _ Hm2 E2t E2tmp) as W3.
  destruct (wp_inv _ _ _ _ _ _ W3 Hswap Hb2) as (Hb3 & Hheap3 & Hm3).
  pose proof (swap_tidy σ2 m2 m3 this tmp _ _ _ _ Ht2 E2t E2tmp Hheap3) as Ht3.
  (* the temporary goes away with the former nodes *)
  set (σ3 := <[this := (copy, n2)]> (<[tmp := (ct, nt)]> σ2)) in *.
  assert (σ3 !! tmp = Some (ct, nt)) as E3tmp.
  { unfold σ3. rewrite lookup_insert_ne by done. apply lookup_insert_eq. }
  pose proof (destroy_spec σ3 m3 tmp _ _ Hm3 E3tmp) as W4.
  destruct (wp_inv _ _ _ _ _ _ W4 Hdestroy Hb3) as (Hb4 & Hm4).
  exists (delete tmp σ3). split; [done|]. by eapply destroy_tidy.
Qed.

(** Every call keeps the heap free of nodes no list owns. *)
Lemma step_tidy σ m c m' :
  heap_bounded m → models σ m → counted σ → tidy σ m → allowed m c →
  run c m = Ok (tt, m') →
  ∃ σ', models σ' m' ∧ tidy σ' m'.
Proof.
  intros Hb Hm Hcnt Ht [Halive Hpre] Hrun.
  assert (∀ l, l ∈ operands c → ∃ cs, σ !! l = Some (cs, Z.of_nat (length cs))) as Hops.
  { intros l Hl. destruct (models_alive _ _ _ Hm (Halive l Hl)) as [[cs n] E].
    exists cs. by rewrite (Hcnt _ _ _ E) in E. }
  destruct c as [junk | junk values | junk other | junk this rhs | this | this v | this
                | this | this pos v | this pos | this other | this other | this pos v];
    simpl in *.
  - (* SingleLinkedList() *)
    apply bind_ret_tt_inv in Hrun as (l & Hrun).
    pose proof (SingleLinkedList_default_spec σ m junk Hm) as W.
    destruct (wp_inv _ _ _ _ _ _ W Hrun Hb) as (Hb' & Hfresh & Hheap & Hm').
    eexists. split; [exact Hm' |].
    apply (tidy_shrink σ m); [done|]. intros a Ha. rewrite Hheap in Ha.
    split; [done|]. unfold cells_of. by rewrite (models_fresh _ _ _ Hm Hfresh).
  - (* SingleLinkedList(values) *)
    apply bind_ret_tt_inv in Hrun as (l & Hrun).
    pose proof (SingleLinkedList_init_spec σ m junk values Hm) as W.
    destruct (wp_inv _ _ _ _ _ _ W Hrun Hb) as (Hb' & Hfresh & copy & Hvals & _ & Hm').
    eexists. split; [exact Hm' |].
    apply (tidy_grow σ m m' l copy _ (length values)); try done.
    + by eapply wp_size.
    + unfold cells_of. rewrite (models_fresh _ _ _ Hm Hfresh).
      intros a Ha. by apply elem_of_nil in Ha.
    + unfold cells_of. rewrite (models_fresh _ _ _ Hm Hfresh). simpl.
      rewrite <- Hvals, length_fmap. lia.
  - (* SingleLinkedList(other) *)
    apply bind_ret_tt_inv in Hrun as (l & Hrun).
    destruct (Hops other) as (cr & Eo); [left|].
    pose proof (SingleLinkedList_copy_spec σ m junk other _ _ Hm Eo) as W.
    destruct (wp_inv _ _ _ _ _ _ W Hrun Hb) as (Hb' & Hfresh & copy & Hvals & _ & Hm').
    eexists. split; [exact Hm' |].
    apply (tidy_grow σ m m' l copy _ (length cr)); try done.
    + by eapply wp_size.
    + unfold cells_of. rewrite (models_fresh _ _ _ Hm Hfresh).
      intros a Ha. by apply elem_of_nil in Ha.
    + unfold cells_of. rewrite (models_fresh _ _ _ Hm Hfresh). simpl.
      apply (f_equal length) in Hvals. rewrite !length_fmap in Hvals. lia.
  - (* operator= *)
    destruct (decide (this = rhs)) as [->|Hne].
    + rewrite assign_self in Hrun. apply Ok_inj in Hrun as [_ <-]. eauto.
    + destruct (Hops this) as (ct & Et); [left|].
      destruct (Hops rhs) as (cr & Er); [right; left|].
      by eapply assign_tidy.
  - (* destructor *)
    destruct (Hops this) as (ct & Et); [left|].
    pose proof (destroy_spec σ m this _ _ Hm Et) as W.
    destruct (wp_inv _ _ _ _ _ _ W Hrun Hb) as (Hb' & Hm').
    eexists. split; [exact Hm' |]. by eapply destroy_tidy.
  - (* PushFront *)
    destruct (Hops this) as (ct & Et); [left|].
    pose proof (PushFront_spec σ m this _ _ v Hm Et) as W.
    destruct (wp_inv _ _ _ _ _ _ W Hrun Hb) as (Hb' & a & _ & Hm').
    eexists. split; [exact Hm' |].
    apply (tidy_grow σ m m' this _ _ 1); try done.
    + by eapply wp_size.
    + rewrite (cells_of_lookup _ _ _ _ Et). intros x Hx. simpl. by right.
    + rewrite (cells_of_lookup _ _ _ _ Et). simpl. lia.
  - (* PopFront *)
    destruct (Hops this) as (ct & Et); [left|].
    pose proof (PopFront_spec σ m this _ _ Hm Et) as W.
    destruct (wp_inv _ _ _ _ _ _ W Hrun Hb) as (Hb' & Hm').
    destruct ct as [|[c u] ct].
    + subst m'. eauto.
    + eexists. split; [exact Hm' |].
      destruct (PopFront_dom _ _ _ Hrun) as [[Hnull _] | (c' & Hnext & Hdom)].
      * rewrite (models_begin_next _ _ _ _ _ Hm Et) in Hnull. done.
      * rewrite (models_begin_next _ _ _ _ _ Hm Et) in Hnext.
        apply Ok_inj in Hnext as [[= <-] _].
        apply (tidy_shrink σ m); [done|]. intros a Ha.
        apply elem_of_dom in Ha. rewrite Hdom in Ha.
        apply elem_of_difference in Ha as [Ha1 Ha2]. split; [by apply elem_of_dom |].
        rewrite (cells_of_lookup _ _ _ _ Et). simpl.
        intros [-> | Hin]%elem_of_cons; [set_solver | done].
  - (* Clear *)
    destruct (Hops this) as (ct & Et); [left|].
    pose proof (Clear_spec σ m this _ _ Hm Et) as W.
    destruct (wp_inv _ _ _ _ _ _ W Hrun Hb) as (Hb' & Hm').
    eexists. split; [exact Hm' |]. by eapply Clear_tidy.
  - (* InsertAfter *)
    apply bind_ret_tt_inv in Hrun as (it & Hrun).
    destruct (Hops this) as (ct & Et); [left|].
    destruct (pos_anchored _ _ _ _ _ _ Hm Et Hpre) as (cs_pre & cs_post & -> & Hanch).
    pose proof (InsertAfter_spec σ m this pos _ _ _ v Hm Et Hanch) as W.
    destruct (wp_inv _ _ _ _ _ _ W Hrun Hb) as (Hb' & a & _ & _ & Hm').
    eexists. split; [exact Hm' |].
    apply (tidy_grow σ m m' this _ _ 1); try done.
    + by eapply wp_size.
    + rewrite (cells_of_lookup _ _ _ _ Et). intros x.
      rewrite !fmap_app, fmap_cons, !elem_of_app, elem_of_cons. tauto.
    + rewrite (cells_of_lookup _ _ _ _ Et). rewrite !length_app. simpl. lia.
  - (* EraseAfter *)
    apply bind_ret_tt_inv in Hrun as (it & Hrun).
    destruct (Hops this) as (ct & Et); [left|].
    destruct (pos_anchored _ _ _ _ _ _ Hm Et Hpre) as (cs_pre & cs_post & -> & Hanch).
    destruct cs_post as [|[c u] cs_post].
    { rewrite app_nil_r in Et.
      rewrite (EraseAfter_last _ _ _ _ _ _ Hm Et Hanch) in Hrun. done. }
    pose proof (EraseAfter_spec σ m this pos _ _ _ _ _ Hm Et Hanch) as W.
    destruct (wp_inv _ _ _ _ _ _ W Hrun Hb) as (Hb' & _ & Hm').
    eexists. split; [exact Hm' |].
    destruct (EraseAfter_dom _ _ _ _ _ Hrun) as (c' & Hnext & Hdom).
    rewrite (anchored_next _ _ _ _ _ _ _ _ _ Hm Et Hanch) in Hnext.
    apply Ok_inj in Hnext as [[= <-] _].
    apply (tidy_shrink σ m); [done|]. intros a Ha.
    apply elem_of_dom in Ha. rewrite Hdom in Ha.
    apply elem_of_difference in Ha as [Ha1 Ha2]. split; [by apply elem_of_dom |].
    rewrite (cells_of_lookup _ _ _ _ Et).
    rewrite !fmap_app, fmap_cons, !elem_of_app, elem_of_cons. simpl.
    intros [? | [-> | ?]]; [auto | set_solver | auto].
  - (* swap *)
    destruct (Hops this) as (ct & Et); [left|].
    destruct (Hops other) as (co & Eo); [right; left|].
    pose proof (swap_spec σ m this other _ _ _ _ Hm Et Eo) as W.
    destruct (wp_inv _ _ _ _ _ _ W Hrun Hb) as (Hb' & Hheap & Hm').
    eexists. split; [exact Hm' |]. by eapply swap_tidy.
  - (* free swap *)
    unfold free_swap in Hrun.
    destruct (Hops this) as (ct & Et); [left|].
    destruct (Hops other) as (co & Eo); [right; left|].
    pose proof (swap_spec σ m this other _ _ _ _ Hm Et Eo) as W.
    destruct (wp_inv _ _ _ _ _ _ W Hrun Hb) as (Hb' & Hheap & Hm').
    eexists. split; [exact Hm' |]. by eapply swap_tidy.
  - (* store through an iterator *)
    destruct (Hops this) as (ct & Et); [left|].
    destruct (at_node_anchored _ _ _ _ _ _ Hm Et Hpre) as (cs1 & b & w & cs_post & -> & Hnode).
    pose proof (set_value_spec σ m this pos _ _ _ _ _ v Hm Et Hnode) as W.
    destruct (wp_inv _ _ _ _ _ _ W Hrun Hb) as (Hb' & Hm').
    eexists. split; [exact Hm' |].
    apply (tidy_grow σ m m' this _ _ 0); try done.
    + by eapply wp_size.
    + rewrite (cells_of_lookup _ _ _ _ Et). intros x.
      by rewrite !fmap_app, !fmap_cons.
    + rewrite (cells_of_lookup _ _ _ _ Et). rewrite !length_app. simpl. lia.
Qed.

Lemma reachable_tidy m :
  reachable m → heap_bounded m ∧ ∃ σ, models σ m ∧ counted σ ∧ tidy σ m.
Proof.
  induction 1 as [|m c m' _ IH Hall Hrun].
  - destruct wf_empty as (Hb & σ & Hm & Hcnt).
    split; [done|]. exists σ. split; [done|]. split; [done|].
    intros a [x Ha]. simpl in Ha. by rewrite lookup_empty in Ha.
  - destruct IH as (Hb & σ & Hm & Hcnt & Ht).
    destruct (step_models σ m c m' Hb Hm Hcnt Hall Hrun) as (Hb' & σ1 & Hm1 & Hcnt1 & _).
    destruct (step_tidy σ m c m' Hb Hm Hcnt Ht Hall Hrun) as (σ2 & Hm2 & Ht2).
    rewrite (models_unique _ _ _ Hm1 Hm2) in *. split; [done|]. eauto.
Qed.

Lemma models_dom σ m l : models σ m → is_Some (objects m !! l) ↔ is_Some (σ !! l).
Proof.
  intros Hm. split; [by apply models_alive |]. intros [[cs n] E].
  destruct (models_lookup _ _ _ _ _ Hm E) as (L & EL & _). eauto.
Qed.

Lemma in_nodes (cs : list (positive * Type_)) a :
  on_heap a ∈ (on_heap <$> cs.*1) ↔ a ∈ cs.*1.
Proof.
  rewrite list_elem_of_fmap. split; [| eauto].
  intros (b & [= <-] & Hb). done.
Qed.

(** X13. [Clear()] on a list of a reachable memory always returns.
    Afterwards the list is empty, with size zero and [begin()] equal to
    [end()]; the heap nodes deallocated are exactly the nodes the list had,
    and every list object is still there. *)
Theorem Clear_frees_every_node m this (vs : list Type_) ns :
  reachable m → traversal this m = Ok (vs, m) → nodes_reached this m = Ok (ns, m) →
  ∃ m', Clear this m = Ok (tt, m') ∧
        traversal this m' = Ok ([], m') ∧
        GetSize this m' = Ok (0%Z, m') ∧
        IsEmpty this m' = Ok (true, m') ∧
        begin this m' = Ok (end_ this, m') ∧
        nodes_reached this m' = Ok ([], m') ∧
        (∀ a, is_Some (heap m' !! a) ↔ is_Some (heap m !! a) ∧ on_heap a ∉ ns) ∧
        (∀ l, is_Some (objects m' !! l) ↔ is_Some (objects m !! l)).
Proof.
  intros Hr Ht Hnodes. destruct (reachable_wf _ Hr) as (Hb & σ & Hm & Hcnt).
  destruct (nodes_reached_models _ _ _ _ _ Hm Hnodes) as (cs & k & E & ->).
  pose proof (Clear_spec σ m this cs k Hm E) as W.
  destruct (wp_total _ _ _ Hb W) as ([] & m' & Hrun & Hm').
  pose proof (lookup_insert_eq σ this (@nil (positive * Type_), 0%Z)) as E'.
  pose proof (models_GetSize _ _ _ _ _ Hm' E') as Hsize.
  exists m'. split; [done|].
  split; [exact (models_traversal _ _ _ _ _ Hm' E') |].
  split; [done|].
  split; [unfold IsEmpty, bind, ret; unfold GetSize in Hsize; by rewrite Hsize |].
  split; [exact (models_begin _ _ _ _ _ Hm' E') |].
  split; [exact (models_nodes_reached _ _ _ _ _ Hm' E') |].
  split.
  - intros a. rewrite in_nodes, <- !elem_of_dom, (Clear_dom _ _ _ _ _ _ Hm E Hrun).
    rewrite elem_of_difference, elem_of_list_to_set. done.
  - intros l. rewrite (models_dom _ _ l Hm), (models_dom _ _ l Hm').
    destruct (decide (l = this)) as [->|Hne].
    + rewrite E, E'. split; eauto.
    + by rewrite lookup_insert_ne.
Qed.

(** X14. The destructor on a list of a reachable memory always returns.
    Afterwards the object is gone (its member functions have undefined
    behaviour), the heap nodes deallocated are exactly the nodes the list
    had, and the other list objects are still there. *)
Theorem destructor_frees_the_list m this (vs : list Type_) ns :
  reachable m → traversal this m = Ok (vs, m) → nodes_reached this m = Ok (ns, m) →
  ∃ m', destroy this m = Ok (tt, m') ∧
        GetSize this m' = Err undefined_behaviour ∧
        begin this m' = Err undefined_behaviour ∧
        (∀ a, is_Some (heap m' !! a) ↔ is_Some (heap m !! a) ∧ on_heap a ∉ ns) ∧
        (∀ l, is_Some (objects m' !! l) ↔ is_Some (objects m !! l) ∧ l ≠ this).
Proof.
  intros Hr Ht Hnodes. destruct (reachable_wf _ Hr) as (Hb & σ & Hm & Hcnt).
  destruct (nodes_reached_models _ _ _ _ _ Hm Hnodes) as (cs & k & E & ->).
  pose proof (destroy_spec σ m this cs k Hm E) as W.
  destruct (wp_total _ _ _ Hb W) as ([] & m' & Hrun & Hm').
  assert (∀ l, is_Some (objects m' !! l) ↔ is_Some (objects m !! l) ∧ l ≠ this) as Hobj.
  { intros l. rewrite (models_dom _ _ l Hm), (models_dom _ _ l Hm').
    destruct (decide (l = this)) as [->|Hne].
    - rewrite lookup_delete_eq. split; [by intros [? ?] | by intros [_ ?]].
    - rewrite lookup_delete_ne by done. tauto. }
  assert (objects m' !! this = None) as Hgone.
  { destruct (objects m' !! this) eqn:EL; [| done].
    by destruct (proj1 (Hobj this) (mk_is_Some _ _ EL)). }
  exists m'. split; [done|].
  split; [unfold GetSize, get_size; by rewrite Hgone |].
  split; [unfold begin, bind, get_next; by rewrite Hgone |].
  split; [| done].
  intros a. unfold destroy in Hrun.
  apply bind_inv in Hrun as ([] & m1 & Hclear & Hrel).
  assert (heap m' = heap m1) as ->.
  { unfold release in Hrel. destruct (objects m1 !! this); [| done].
    by apply Ok_inj in Hrel as [_ <-]. }
  rewrite in_nodes, <- !elem_of_dom, (Clear_dom _ _ _ _ _ _ Hm E Hclear).
  rewrite elem_of_difference, elem_of_list_to_set. done.
Qed.

(** X15. In every reachable memory, each allocated heap node is a node of
    exactly one live list: nothing is leaked and no two lists share a node.
    The nodes of a list are allocated and pairwise distinct (the chain has
    no cycle).  Hence once every list object has been destroyed, no node is
    left allocated. *)
Theorem every_node_belongs_to_one_list m :
  reachable m →
  (∀ a, is_Some (heap m !! a) →
     ∃ l ns, nodes_reached l m = Ok (ns, m) ∧ on_heap a ∈ ns ∧
       ∀ l' ns', nodes_reached l' m = Ok (ns', m) → on_heap a ∈ ns' → l' = l) ∧
  (∀ l ns, nodes_reached l m = Ok (ns, m) →
     NoDup ns ∧ ∀ p, p ∈ ns → ∃ a, p = on_heap a ∧ is_Some (heap m !! a)) ∧
  (objects m = ∅ → heap m = ∅).
Proof.
  intros Hr. destruct (reachable_tidy _ Hr) as (Hb & σ & Hm & Hcnt & Ht).
  assert (∀ a, is_Some (heap m !! a) →
     ∃ l ns, nodes_reached l m = Ok (ns, m) ∧ on_heap a ∈ ns ∧
       ∀ l' ns', nodes_reached l' m = Ok (ns', m) → on_heap a ∈ ns' → l' = l) as Hown.
  { intros a Ha. destruct (Ht a Ha) as (l & cs & n & E & Hin).
    exists l, (on_heap <$> cs.*1).
    split; [by eapply models_nodes_reached |]. split; [by apply in_nodes |].
    intros l' ns' Hn' Hin'.
    destruct (nodes_reached_models _ _ _ _ _ Hm Hn') as (cs' & n' & E' & ->).
    apply in_nodes in Hin'. by eapply (models_separate σ m l' l). }
  split; [exact Hown |]. split.
  - intros l ns Hn.
    destruct (nodes_reached_models _ _ _ _ _ Hm Hn) as (cs & n & E & ->).
    destruct (models_lookup _ _ _ _ _ Hm E) as (L & _ & Hc & _).
    split.
    + apply NoDup_fmap_2; [by intros ? ? [= ->] | by eapply is_chain_NoDup].
    + intros p (a & -> & Ha)%list_elem_of_fmap. exists a. split; [done|].
      by eapply is_seg_lookup.
  - intros Hnone. apply map_empty. intros a.
    destruct (heap m !! a) as [x|] eqn:Ea; [| done].
    destruct (Hown a (mk_is_Some _ _ Ea)) as (l & ns & Hn & _).
    unfold nodes_reached, bind, get_next in Hn. rewrite Hnone, lookup_empty in Hn. done.
Qed.

(** X16. Copy assignment from another list deallocates every node the
    target had: none of them is leaked, and none is reused for the copy. *)
Theorem assignment_frees_the_old_nodes junk m this rhs ns m' :
  reachable m → is_Some (objects m !! rhs) → this ≠ rhs →
  nodes_reached this m = Ok (ns, m) →
  assign junk this rhs m = Ok (tt, m') →
  (∀ p, p ∈ ns → get_next p m' = Err undefined_behaviour) ∧
  (∀ ns', nodes_reached this m' = Ok (ns', m') → ∀ p, p ∈ ns' → p ∉ ns).
Proof.
  intros Hr Hrhs Hne Hnodes Hrun.
  destruct (reachable_wf _ Hr) as (Hb & σ & Hm & Hcnt).
  destruct (nodes_reached_models _ _ _ _ _ Hm Hnodes) as (ct & nt & Et & ->).
  destruct (models_alive _ _ _ Hm Hrhs) as [[cr nr] Er].
  pose proof (assign_spec σ m junk this rhs _ _ _ _ Hm Hne Et Er) as W.
  destruct (wp_inv _ _ _ _ _ _ W Hrun Hb) as (Hb' & copy & Hvals & Hfresh & Hm').
  assert (reachable m') as Hr'.
  { eapply (reach_step m (CAssign junk this rhs)); [done | | done].
    split; [| done]. intros l. simpl. rewrite !elem_of_cons.
    intros [-> | [-> | Hl]]; [| done | by apply elem_of_nil in Hl].
    apply (models_dom _ _ _ Hm). eauto. }
  destruct (reachable_tidy _ Hr') as (_ & σ' & Hm'' & _ & Ht').
  rewrite (models_unique _ _ _ Hm'' Hm') in Ht'.
  pose proof (lookup_insert_eq σ this (copy, count_from 0 (length cr))) as E'.
  assert (∀ a, a ∈ ct.*1 → a ∉ copy.*1) as Hnew.
  { intros a Ha Hc. pose proof (Hfresh a Hc) as Hnone.
    destruct (models_cells_live _ _ _ _ _ _ Hm Et Ha) as [x Hx]. congruence. }
  split.
  - intros p (a & -> & Ha)%list_elem_of_fmap.
    unfold get_next. destruct (heap m' !! a) as [x|] eqn:Ea; [| done].
    destruct (Ht' a (mk_is_Some _ _ Ea)) as (l & cs & n & El & Hin).
    destruct (decide (l = this)) as [->|Hl].
    + rewrite E' in El. injection El as <- <-. by destruct (Hnew a Ha).
    + rewrite lookup_insert_ne in El by done.
      by destruct (Hl (models_separate _ _ _ _ _ _ _ _ _ Hm El Et Hin Ha)).
  - intros ns' Hn'. rewrite (models_nodes_reached _ _ _ _ _ Hm' E') in Hn'.
    apply Ok_inj in Hn' as [<- _].
    intros p (a & -> & Ha)%list_elem_of_fmap Hin. apply in_nodes in Hin.
    by destruct (Hnew a Hin).
Qed.

(** ** What the observers and the [noexcept] members never do *)

Lemma read_only_ret {A} (x : A) : read_only (Type_:=Type_) (ret x).
Proof. intros m y m'. unfold ret. by intros [= _ <-]. Qed.

Lemma read_only_fail {A} e : read_only (Type_:=Type_) (A:=A) (fail e).
Proof. by intros m y m'. Qed.

Lemma read_only_bind {A B} (c : M A) (k : A → M B) :
  read_only (Type_:=Type_) c → (∀ x, read_only (k x)) → read_only (bind c k).
Proof.
  intros Hc Hk m y m' H. apply bind_inv in H as (x & m1 & H1 & H2).
  rewrite (Hc _ _ _ H1) in H2. by eapply Hk.
Qed.

Lemma read_only_at {A} (F : nat → M A) (g : @Memory Type_ → nat) :
  (∀ n, read_only (F n)) → read_only (fun m => F (g m) m).
Proof. intros H m x m' E. by eapply H. Qed.

Lemma read_only_get_next p : read_only (Type_:=Type_) (get_next p).
Proof. intros m x m'. apply get_next_read. Qed.

Lemma read_only_deref it : read_only (Type_:=Type_) (deref it).
Proof. intros m x m'. apply get_value_read. Qed.

Lemma read_only_pre_incr it : read_only (Type_:=Type_) (pre_incr it).
Proof.
  apply read_only_bind; [apply read_only_get_next | intros; apply read_only_ret].
Qed.

Lemma read_only_begin this : read_only (Type_:=Type_) (begin this).
Proof.
  apply read_only_bind; [apply read_only_get_next | intros; apply read_only_ret].
Qed.

Lemma read_only_std_equal (Type_eq : Type_ → Type_ → bool) : ∀ fuel first1 last1 first2 last2,
  read_only (std_equal Type_eq fuel first1 last1 first2 last2).
Proof.
  induction fuel as [|fuel IH]; intros first1 last1 first2 last2; rewrite std_equal_unfold;
    destruct (iter_ne first1 last1 && iter_ne first2 last2); try apply read_only_ret;
    [apply read_only_fail |].
  apply read_only_bind; [apply read_only_deref | intros a].
  apply read_only_bind; [apply read_only_deref | intros b].
  destruct (negb (Type_eq a b)); [apply read_only_ret |].
  apply read_only_bind; [apply read_only_pre_incr | intros first1'].
  apply read_only_bind; [apply read_only_pre_incr | intros first2']. apply IH.
Qed.

Lemma read_only_std_lexicographical_compare (Type_lt : Type_ → Type_ → bool) :
  ∀ fuel first1 last1 first2 last2, read_only (std_lexicographical_compare Type_lt fuel first1 last1 first2 last2).
Proof.
  induction fuel as [|fuel IH]; intros first1 last1 first2 last2;
    rewrite std_lexicographical_compare_unfold;
    destruct (iter_ne first1 last1 && iter_ne first2 last2); try apply read_only_ret;
    [apply read_only_fail |].
  apply read_only_bind; [apply read_only_deref | intros a].
  apply read_only_bind; [apply read_only_deref | intros b].
  destruct (Type_lt a b); [apply read_only_ret |].
  destruct (Type_lt b a); [apply read_only_ret |].
  apply read_only_bind; [apply read_only_pre_incr | intros first1'].
  apply read_only_bind; [apply read_only_pre_incr | intros first2']. apply IH.
Qed.

(** X17. The [const] members, the iterator operations and the six
    comparison operators never modify anything: in any memory whatsoever,
    when one of them returns, the memory is the one it was given. *)
Theorem observers_change_nothing (Type_eq Type_lt : Type_ → Type_ → bool)
    (this lhs rhs : positive) (it : BasicIterator) :
  read_only (Type_:=Type_) (GetSize this) ∧ read_only (Type_:=Type_) (IsEmpty this) ∧
  read_only (begin (Type_:=Type_) this) ∧ read_only (cbegin (Type_:=Type_) this) ∧
  read_only (Type_:=Type_) (deref it) ∧ read_only (Type_:=Type_) (pre_incr it) ∧
  read_only (Type_:=Type_) (post_incr it) ∧
  read_only (operator_eq Type_eq lhs rhs) ∧ read_only (operator_ne Type_eq lhs rhs) ∧
  read_only (operator_lt Type_lt lhs rhs) ∧ read_only (operator_le Type_eq Type_lt lhs rhs) ∧
  read_only (operator_gt Type_eq Type_lt lhs rhs) ∧ read_only (operator_ge Type_lt lhs rhs).
Proof.
  assert (read_only (Type_:=Type_) (GetSize this)) as Hsize.
  { intros m x m'. apply get_size_read. }
  assert (read_only (operator_eq Type_eq lhs rhs)) as Heq.
  { apply read_only_bind; [apply read_only_begin | intros b1].
    apply read_only_bind; [apply read_only_begin | intros b2].
    apply (read_only_at (fun n => std_equal Type_eq n b1 (cend lhs) b2 (cend rhs))).
    intros n. apply read_only_std_equal. }
  assert (read_only (operator_lt Type_lt lhs rhs)) as Hlt.
  { apply read_only_bind; [apply read_only_begin | intros b1].
    apply read_only_bind; [apply read_only_begin | intros b2].
    apply (read_only_at
             (fun n => std_lexicographical_compare Type_lt n b1 (cend lhs) b2 (cend rhs))).
    intros n. apply read_only_std_lexicographical_compare. }
  assert (read_only (operator_le Type_eq Type_lt lhs rhs)) as Hle.
  { apply read_only_bind; [done | intros [|]]; [apply read_only_ret | done]. }
  split; [done|].
  split; [apply read_only_bind; [done | intros; apply read_only_ret] |].
  split; [apply read_only_begin |]. split; [apply read_only_begin |].
  split; [apply read_only_deref |]. split; [apply read_only_pre_incr |].
  split; [apply read_only_bind; [apply read_only_get_next | intros; apply read_only_ret] |].
  split; [done|].
  split.
  { apply read_only_bind; [apply read_only_begin | intros b1].
    apply read_only_bind; [apply read_only_begin | intros b2].
    apply read_only_bind; [| intros; apply read_only_ret].
    apply (read_only_at (fun n => std_equal Type_eq n b1 (cend lhs) b2 (cend rhs))).
    intros n. apply read_only_std_equal. }
  split; [done|]. split; [done|].
  split; apply read_only_bind; try done; intros; apply read_only_ret.
Qed.

Lemma fails_only_undefined_ret {A} (x : A) : fails_only_undefined (Type_:=Type_) (ret x).
Proof. by intros m e. Qed.

Lemma fails_only_undefined_bind {A B} (c : M A) (k : A → M B) :
  fails_only_undefined (Type_:=Type_) c → (∀ x, fails_only_undefined (k x)) →
  fails_only_undefined (bind c k).
Proof.
  intros Hc Hk m e. unfold bind. destruct (c m) as [[x m1]|e1] eqn:E.
  - apply Hk.
  - intros [= <-]. by eapply Hc.
Qed.

Lemma fails_only_undefined_get_next p : fails_only_undefined (Type_:=Type_) (get_next p).
Proof. intros m e. apply get_next_error. Qed.

Lemma fails_only_undefined_set_next p q : fails_only_undefined (Type_:=Type_) (set_next p q).
Proof.
  intros m e. unfold set_next. destruct p as [|l|a]; [by intros [= <-] | |].
  - destruct (objects m !! l); [done | by intros [= <-]].
  - destruct (heap m !! a); [done | by intros [= <-]].
Qed.

Lemma fails_only_undefined_get_value p : fails_only_undefined (Type_:=Type_) (get_value p).
Proof.
  intros m e. unfold get_value. destruct p as [|l|a]; [by intros [= <-] | |].
  - destruct (objects m !! l) as [L|]; [| by intros [= <-]].
    destruct (value (head_ L)); [done | by intros [= <-]].
  - destruct (heap m !! a) as [n|]; [| by intros [= <-]].
    destruct (value n); [done | by intros [= <-]].
Qed.

Lemma fails_only_undefined_get_size l : fails_only_undefined (Type_:=Type_) (get_size l).
Proof. intros m e. unfold get_size. destruct (objects m !! l); [done | by intros [= <-]]. Qed.

Lemma fails_only_undefined_set_size l z : fails_only_undefined (Type_:=Type_) (set_size l z).
Proof. intros m e. unfold set_size. destruct (objects m !! l); [done | by intros [= <-]]. Qed.

Lemma fails_only_undefined_delete_Node p :
  fails_only_undefined (Type_:=Type_) (delete_Node p).
Proof.
  intros m e. unfold delete_Node. destruct p as [|l|a]; [done | by intros [= <-] |].
  destruct (heap m !! a); [done | by intros [= <-]].
Qed.

Lemma Clear_loop_no_throw : ∀ fuel this (m : @Memory Type_),
  Clear_loop fuel this m ≠ Err bad_alloc.
Proof.
  induction fuel as [|fuel IH]; intros this m H.
  - simpl in H. unfold bind in H.
    destruct (get_next (head_of this) m) as [[p m1]|e] eqn:E1.
    + by case_decide.
    + apply get_next_error in E1. congruence.
  - simpl in H. unfold bind at 1 in H.
    destruct (get_next (head_of this) m) as [[p m1]|e] eqn:E1;
      [| apply get_next_error in E1; congruence].
    case_decide; [done|].
    unfold bind at 1 in H.
    destruct (get_next p m1) as [[q m2]|e] eqn:E2;
      [| apply get_next_error in E2; congruence].
    unfold bind at 1 in H.
    destruct (delete_Node p m2) as [[[] m3]|e] eqn:E3;
      [| apply fails_only_undefined_delete_Node in E3; congruence].
    unfold bind at 1 in H.
    destruct (set_next (head_of this) q m3) as [[[] m4]|e] eqn:E4;
      [| apply fails_only_undefined_set_next in E4; congruence].
    by apply IH in H.
Qed.

Lemma fails_only_undefined_Clear this : fails_only_undefined (Type_:=Type_) (Clear this).
Proof.
  intros m e H. pose proof (Clear_halts this m) as Hhalt.
  destruct e; [| done | congruence].
  unfold Clear, bind in H.
  destruct (Clear_loop (S (size (heap m))) this m) as [[[] m1]|e1] eqn:E1.
  - by apply fails_only_undefined_set_size in H.
  - injection H as ->. by apply Clear_loop_no_throw in E1.
Qed.

(** X18. The members declared [noexcept], the destructor and the iterator
    operations keep that promise in any memory whatsoever: they never throw
    and never run for ever.  When one of them does not return, it has used
    an invalid pointer (undefined behaviour). *)
Theorem noexcept_members_never_throw (this other : positive) (pos : BasicIterator) :
  fails_only_undefined (Type_:=Type_) (Clear this) ∧
  fails_only_undefined (Type_:=Type_) (destroy this) ∧
  fails_only_undefined (Type_:=Type_) (PopFront this) ∧
  fails_only_undefined (Type_:=Type_) (EraseAfter this pos) ∧
  fails_only_undefined (Type_:=Type_) (swap this other) ∧
  fails_only_undefined (Type_:=Type_) (free_swap this other) ∧
  fails_only_undefined (Type_:=Type_) (GetSize this) ∧
  fails_only_undefined (Type_:=Type_) (IsEmpty this) ∧
  fails_only_undefined (Type_:=Type_) (begin this) ∧
  fails_only_undefined (Type_:=Type_) (cbegin this) ∧
  fails_only_undefined (Type_:=Type_) (pre_incr pos) ∧
  fails_only_undefined (Type_:=Type_) (post_incr pos) ∧
  fails_only_undefined (Type_:=Type_) (deref pos).
Proof.
  assert (∀ p, fails_only_undefined (Type_:=Type_)
                 (do q <- get_next p; ret (Iterator q))) as Hiter.
  { intros p. apply fails_only_undefined_bind;
      [apply fails_only_undefined_get_next | intros; apply fails_only_undefined_ret]. }
  assert (fails_only_undefined (Type_:=Type_) (swap this other)) as Hswap.
  { unfold swap.
    repeat (apply fails_only_undefined_bind;
            [first [apply fails_only_undefined_get_next | apply fails_only_undefined_set_next
                   | apply fails_only_undefined_get_size | apply fails_only_undefined_set_size]
            | intros ?]).
    apply fails_only_undefined_set_size. }
  split; [apply fails_only_undefined_Clear |].
  split.
  { apply fails_only_undefined_bind; [apply fails_only_undefined_Clear | intros _].
    intros m e. unfold release. destruct (objects m !! this); [done | by intros [= <-]]. }
  split.
  { unfold PopFront.
    apply fails_only_undefined_bind; [apply fails_only_undefined_get_next | intros p].
    case_decide; [| apply fails_only_undefined_ret].
    repeat (apply fails_only_undefined_bind;
            [first [apply fails_only_undefined_get_next | apply fails_only_undefined_set_next
                   | apply fails_only_undefined_get_size | apply fails_only_undefined_delete_Node]
            | intros ?]).
    apply fails_only_undefined_set_size. }
  split.
  { unfold EraseAfter.
    repeat (apply fails_only_undefined_bind;
            [first [apply fails_only_undefined_get_next | apply fails_only_undefined_set_next
                   | apply fails_only_undefined_get_size | apply fails_only_undefined_set_size
                   | apply fails_only_undefined_delete_Node]
            | intros ?]).
    apply fails_only_undefined_ret. }
  split; [done|]. split; [done|].
  split; [apply fails_only_undefined_get_size |].
  split.
  { apply fails_only_undefined_bind;
      [apply fails_only_undefined_get_size | intros; apply fails_only_undefined_ret]. }
  split; [apply Hiter |]. split; [apply Hiter |]. split; [apply Hiter |].
  split; [| apply fails_only_undefined_get_value].
  apply fails_only_undefined_bind;
    [apply fails_only_undefined_get_next | intros; apply fails_only_undefined_ret].
Qed.

End Properties.

(** * Comparison, and the theorems on concrete lists *)

Lemma no_operands {Type_} (m : @Memory Type_) c : operands c = [] →
  match c with
  | CInsertAfter _ _ _ | CEraseAfter _ _ | CStore _ _ _ => False
  | _ => True
  end → allowed m c.
Proof.
  intros Hops Hc. split.
  - intros l Hl. rewrite Hops in Hl. by apply elem_of_nil in Hl.
  - by destruct c.
Qed.

Lemma three_lists_reachable : reachable three_lists.
Proof.
  eapply (reach_step _ (CInit 7 [4; 5]%Z)).
  - eapply (reach_step _ (CDefault 0)).
    + eapply (reach_step _ (CInit 0 [1; 2; 3]%Z)).
      * apply reach_empty.
      * by apply no_operands.
      * vm_compute. reflexivity.
    + by apply no_operands.
    + vm_compute. reflexivity.
  - by apply no_operands.
  - vm_compute. reflexivity.
Qed.

(** C6. For two lists that can be traversed: [operator==] is true iff they
    have the same length and pairwise-equal elements; [operator<] is true
    iff the first is below the second in the standard lexicographic order;
    [!=] is the negation of [==], [<=] is [<] or [==], [>] is the negation
    of [<=], [>=] is the negation of [<].  In particular an empty list is
    below any non-empty one, [1,2] < [1,2,3], [1,2,3] < [1,2,4] and
    [1,2,3] == [1,2,3]. *)
Theorem comparison_operators {Type_} (Type_eq Type_lt : Type_ → Type_ → bool)
    (m : @Memory Type_) lhs rhs xs ys :
  traversal lhs m = Ok (xs, m) → traversal rhs m = Ok (ys, m) →
  (∃ eq lt,
     operator_eq Type_eq lhs rhs m = Ok (eq, m) ∧
     operator_lt Type_lt lhs rhs m = Ok (lt, m) ∧
     (eq = true ↔ same_elements Type_eq xs ys) ∧
     (lt = true ↔ lex_less Type_lt xs ys) ∧
     operator_ne Type_eq lhs rhs m = Ok (negb eq, m) ∧
     operator_le Type_eq Type_lt lhs rhs m = Ok (lt || eq, m) ∧
     operator_gt Type_eq Type_lt lhs rhs m = Ok (negb (lt || eq), m) ∧
     operator_ge Type_lt lhs rhs m = Ok (negb lt, m)) ∧
  (xs = [] → ys ≠ [] → operator_lt Type_lt lhs rhs m = Ok (true, m)) ∧
  (∃ m0 e a b c d,
     ordering_examples empty_memory = Ok ((e, a, b, c, d), m0) ∧
     traversal e m0 = Ok ([], m0) ∧ traversal a m0 = Ok ([1; 2]%Z, m0) ∧
     traversal b m0 = Ok ([1; 2; 3]%Z, m0) ∧ traversal c m0 = Ok ([1; 2; 4]%Z, m0) ∧
     traversal d m0 = Ok ([1; 2; 3]%Z, m0) ∧
     operator_lt Z.ltb b c m0 = Ok (true, m0) ∧
     operator_lt Z.ltb a b m0 = Ok (true, m0) ∧
     operator_lt Z.ltb e a m0 = Ok (true, m0) ∧
     operator_lt Z.ltb e b m0 = Ok (true, m0) ∧
     operator_lt Z.ltb c b m0 = Ok (false, m0) ∧
     operator_eq Z.eqb b d m0 = Ok (true, m0) ∧
     operator_eq Z.eqb b c m0 = Ok (false, m0) ∧
     operator_eq Z.eqb a b m0 = Ok (false, m0)).
Proof.
  intros Hx Hy. split; [by apply operators_agree |]. split.
  - intros -> Hys.
    destruct (operators_on_walks Type_eq Type_lt _ _ _ _ _ Hx Hy) as (_ & _ & ->).
    by destruct ys.
  - vm_compute. do 6 eexists. repeat split.
Qed.

(** ** A list that does not compare equal to its copy *)

(** C3 as stated (for every list, [copy(L) == L]) fails on the list holding
    one [NaN]: the copy reads the same value, and [operator==] is false both
    ways round. *)
Lemma copy_of_NaN_list_is_not_equal :
  reachable NaN_list ∧
  traversal 1%positive NaN_list = Ok ([NaN], NaN_list) ∧
  ∃ m', SingleLinkedList_copy 0 1%positive NaN_list = Ok (2%positive, m') ∧
        traversal 2%positive m' = Ok ([NaN], m') ∧
        GetSize 2%positive m' = Ok (1%Z, m') ∧
        operator_eq number_eq 2%positive 1%positive m' = Ok (false, m') ∧
        operator_eq number_eq 1%positive 2%positive m' = Ok (false, m') ∧
        operator_ne number_eq 2%positive 1%positive m' = Ok (true, m').
Proof.
  split.
  { eapply (reach_step _ (CInit 0 [NaN])); [apply reach_empty | by apply no_operands |].
    vm_compute. reflexivity. }
  split; [vm_compute; reflexivity |].
  eexists. split; [vm_compute; reflexivity |].
  repeat split; vm_compute; reflexivity.
Qed.

(** ** The theorems at work on [three_lists] *)

Lemma size_counts_real_nodes_witness :
  reachable three_lists ∧
  ∀ this, is_Some (objects three_lists !! this) → size_agrees three_lists this.
Proof.
  split; [exact three_lists_reachable |].
  exact (proj1 (size_counts_real_nodes three_lists three_lists_reachable)).
Defined.

Lemma PushFront_reverses_call_order_witness :
  reachable three_lists ∧ IsEmpty 2%positive three_lists = Ok (true, three_lists) ∧
  ∃ m', PushFront_all 2%positive [1; 2; 3]%Z three_lists = Ok (tt, m') ∧
        traversal 2%positive m' = Ok ([3; 2; 1]%Z, m').
Proof.
  split; [exact three_lists_reachable |].
  split; [vm_compute; reflexivity |].
  apply (proj1 (PushFront_reverses_call_order [1; 2; 3]%Z three_lists 2%positive
                  three_lists_reachable eq_refl)).
  by vm_compute.
Defined.

Lemma copy_is_equal_and_independent_witness :
  reachable three_lists ∧
  traversal 1%positive three_lists = Ok ([1; 2; 3]%Z, three_lists) ∧
  ∃ this m', SingleLinkedList_copy 5 1%positive three_lists = Ok (this, m') ∧
             traversal this m' = Ok ([1; 2; 3]%Z, m') ∧
             operator_eq Z.eqb this 1%positive m' = Ok (true, m').
Proof.
  split; [exact three_lists_reachable |].
  split; [vm_compute; reflexivity |].
  destruct (copy_is_equal_and_independent Z.eqb 5 three_lists 1%positive [1; 2; 3]%Z
              three_lists_reachable eq_refl) as [Hreturns Hafter].
  destruct Hreturns as (this & m' & Hrun); [by vm_compute |].
  exists this, m'. split; [exact Hrun |].
  destruct (Hafter this m' Hrun) as (_ & Hsame & _ & _ & (same & _ & Heq & Hiff) & _).
  split; [exact Hsame |].
  assert (same = true) as Htrue.
  { apply Hiff. repeat constructor. }
  rewrite Htrue in Heq. exact Heq.
Defined.

Lemma InsertAfter_before_begin_is_PushFront_witness :
  reachable three_lists ∧
  traversal 1%positive three_lists = Ok ([1; 2; 3]%Z, three_lists) ∧
  GetSize 1%positive three_lists = Ok (3%Z, three_lists) ∧
  ∃ it m', InsertAfter 1%positive (before_begin 1%positive) 9%Z three_lists = Ok (it, m') ∧
           PushFront 1%positive 9%Z three_lists = Ok (tt, m') ∧
           traversal 1%positive m' = Ok ([9; 1; 2; 3]%Z, m') ∧
           GetSize 1%positive m' = Ok (4%Z, m') ∧
           deref it m' = Ok (9%Z, m').
Proof.
  split; [exact three_lists_reachable |].
  split; [vm_compute; reflexivity |].
  split; [vm_compute; reflexivity |].
  destruct (proj2 (InsertAfter_before_begin_is_PushFront three_lists 1%positive 9%Z)
              [1; 2; 3]%Z 3%Z three_lists_reachable eq_refl eq_refl) as [Hreturns Hafter].
  destruct Hreturns as (it & m' & Hrun); [by vm_compute |].
  exists it, m'. split; [exact Hrun |].
  destruct (Hafter it m' Hrun) as (Hpush & Htrav & Hsize & Hderef & _).
  split; [exact Hpush |]. split; [exact Htrav |]. split; [exact Hsize | exact Hderef].
Defined.

Lemma EraseAfter_before_begin_is_PopFront_witness :
  reachable three_lists ∧
  traversal 1%positive three_lists = Ok ([1; 2; 3]%Z, three_lists) ∧
  GetSize 1%positive three_lists = Ok (3%Z, three_lists) ∧
  ∃ it m', EraseAfter 1%positive (before_begin 1%positive) three_lists = Ok (it, m') ∧
           PopFront 1%positive three_lists = Ok (tt, m') ∧
           traversal 1%positive m' = Ok ([2; 3]%Z, m') ∧
           GetSize 1%positive m' = Ok (2%Z, m').
Proof.
  split; [exact three_lists_reachable |].
  split; [vm_compute; reflexivity |].
  split; [vm_compute; reflexivity |].
  destruct (proj2 (EraseAfter_before_begin_is_PopFront three_lists 1%positive)
              1%Z [2; 3]%Z 3%Z three_lists_reachable eq_refl eq_refl)
    as (it & m' & Herase & Hpop & Htrav & Hsize & _).
  exists it, m'. split; [exact Herase |]. split; [exact Hpop |].
  split; [exact Htrav | exact Hsize].
Defined.

Lemma comparison_operators_witness :
  traversal 1%positive three_lists = Ok ([1; 2; 3]%Z, three_lists) ∧
  traversal 3%positive three_lists = Ok ([4; 5]%Z, three_lists) ∧
  ∃ eq lt,
    operator_eq Z.eqb 1%positive 3%positive three_lists = Ok (eq, three_lists) ∧
    operator_lt Z.ltb 1%positive 3%positive three_lists = Ok (lt, three_lists) ∧
    (eq = true ↔ same_elements Z.eqb [1; 2; 3]%Z [4; 5]%Z) ∧
    (lt = true ↔ lex_less Z.ltb [1; 2; 3]%Z [4; 5]%Z).
Proof.
  split; [vm_compute; reflexivity |].
  split; [vm_compute; reflexivity |].
  destruct (proj1 (comparison_operators Z.eqb Z.ltb three_lists 1%positive 3%positive
                     [1; 2; 3]%Z [4; 5]%Z eq_refl eq_refl))
    as (eq & lt & Heq & Hlt & Hsame & Hless & _).
  exists eq, lt. split; [exact Heq |]. split; [exact Hlt |].
  split; [exact Hsame | exact Hless].
Defined.

Lemma copy_assignment_witness :
  reachable three_lists ∧
  traversal 3%positive three_lists = Ok ([4; 5]%Z, three_lists) ∧
  traversal 1%positive three_lists = Ok ([1; 2; 3]%Z, three_lists) ∧
  assign 0 3%positive 3%positive three_lists = Ok (tt, three_lists) ∧
  ∃ m', assign 0 3%positive 1%positive three_lists = Ok (tt, m') ∧
        traversal 3%positive m' = Ok ([1; 2; 3]%Z, m') ∧
        traversal 1%positive m' = Ok ([1; 2; 3]%Z, m').
Proof.
  split; [exact three_lists_reachable |].
  split; [vm_compute; reflexivity |].
  split; [vm_compute; reflexivity |].
  destruct (copy_assignment 0 three_lists 3%positive 1%positive [4; 5]%Z [1; 2; 3]%Z
              three_lists_reachable eq_refl eq_refl) as [Hself Hother].
  split; [exact Hself |].
  destruct Hother as [Hreturns Hafter]; [done |].
  destruct Hreturns as (m' & Hrun); [by vm_compute |].
  exists m'. split; [exact Hrun |].
  destruct (Hafter m' Hrun) as (Hthis & Hrhs & _).
  split; [exact Hthis | exact Hrhs].
Defined.

Lemma swap_exchanges_contents_witness :
  reachable three_lists ∧
  traversal 1%positive three_lists = Ok ([1; 2; 3]%Z, three_lists) ∧
  traversal 3%positive three_lists = Ok ([4; 5]%Z, three_lists) ∧
  GetSize 1%positive three_lists = Ok (3%Z, three_lists) ∧
  GetSize 3%positive three_lists = Ok (2%Z, three_lists) ∧
  ∃ m', swap 1%positive 3%positive three_lists = Ok (tt, m') ∧
        heap m' = heap three_lists ∧
        traversal 1%positive m' = Ok ([4; 5]%Z, m') ∧
        traversal 3%positive m' = Ok ([1; 2; 3]%Z, m') ∧
        GetSize 1%positive m' = Ok (2%Z, m') ∧ GetSize 3%positive m' = Ok (3%Z, m').
Proof.
  split; [exact three_lists_reachable |].
  do 4 (split; [vm_compute; reflexivity |]).
  destruct (swap_exchanges_contents three_lists 1%positive 3%positive
              [1; 2; 3]%Z [4; 5]%Z 3%Z 2%Z three_lists_reachable
              eq_refl eq_refl eq_refl eq_refl)
    as (m' & Hswap & _ & Hheap & _ & _ & _ & HA & HB & HsA & HsB & _).
  exists m'. split; [exact Hswap |]. split; [exact Hheap |].
  split; [exact HA |]. split; [exact HB |]. split; [exact HsA | exact HsB].
Defined.

Lemma empty_iff_size_zero_iff_begin_is_end_witness :
  reachable three_lists ∧ is_Some (objects three_lists !! 2%positive) ∧
  ∃ e n b, IsEmpty 2%positive three_lists = Ok (e, three_lists) ∧
           GetSize 2%positive three_lists = Ok (n, three_lists) ∧
           begin 2%positive three_lists = Ok (b, three_lists) ∧
           (e = true ↔ n = 0%Z) ∧
           (n = 0%Z ↔ iter_eq b (end_ 2%positive) = true) ∧
           (e = true ↔ iter_eq b (end_ 2%positive) = true).
Proof.
  split; [exact three_lists_reachable |].
  split; [eexists; vm_compute; reflexivity |].
  apply (empty_iff_size_zero_iff_begin_is_end three_lists 2%positive three_lists_reachable).
  eexists; vm_compute; reflexivity.
Defined.

Lemma end_is_shared_null_iterator_witness :
  reachable three_lists ∧ IsEmpty 2%positive three_lists = Ok (true, three_lists) ∧
  ∃ b, begin 2%positive three_lists = Ok (b, three_lists) ∧
       iter_eq b (end_ 1%positive) = true.
Proof.
  split; [exact three_lists_reachable |].
  split; [vm_compute; reflexivity |].
  destruct (end_is_shared_null_iterator (Type_:=Z) 2%positive 1%positive)
    as (_ & _ & _ & _ & _ & _ & _ & Hbegin).
  destruct (Hbegin three_lists three_lists_reachable eq_refl) as (b & Hb & _ & Heq & _).
  exists b. split; [exact Hb | exact Heq].
Defined.


(** ** The further properties at work on [three_lists] *)

Lemma three_lists_alive l :
  l ∈ [1%positive; 3%positive] → is_Some (objects three_lists !! l).
Proof.
  rewrite !elem_of_cons. intros [-> | [-> | Hl]].
  - eexists. vm_compute. reflexivity.
  - eexists. vm_compute. reflexivity.
  - apply elem_of_nil in Hl. destruct Hl.
Qed.

Lemma Z_ltb_asymmetric (x y : Z) : Z.ltb x y = true → Z.ltb y x = false.
Proof. intros H%Z.ltb_lt. apply Z.ltb_ge. lia. Qed.

Lemma Z_eqb_from_ltb (x y : Z) : Z.eqb x y = negb (Z.ltb x y) && negb (Z.ltb y x).
Proof.
  destruct (Z.eqb_spec x y), (Z.ltb_spec x y), (Z.ltb_spec y x); simpl; (done || lia).
Qed.

Lemma other_lists_are_untouched_witness :
  reachable three_lists ∧
  allowed three_lists (CPushFront 3%positive 9%Z) ∧
  run (CPushFront 3%positive 9%Z) three_lists
    = Ok (tt, three_lists_then (CPushFront 3%positive 9%Z)) ∧
  traversal 1%positive (three_lists_then (CPushFront 3%positive 9%Z))
    = Ok ([1; 2; 3]%Z, three_lists_then (CPushFront 3%positive 9%Z)) ∧
  GetSize 1%positive (three_lists_then (CPushFront 3%positive 9%Z))
    = Ok (3%Z, three_lists_then (CPushFront 3%positive 9%Z)).
Proof.
  assert (allowed three_lists (CPushFront 3%positive 9%Z)) as Hall.
  { split; [| done]. intros l Hl. apply three_lists_alive. simpl in Hl. set_solver. }
  assert (1%positive ∉ targets (CPushFront 3%positive 9%Z)) as Hl by (simpl; set_solver).
  split; [exact three_lists_reachable |]. split; [exact Hall |].
  split; [vm_compute; reflexivity |].
  destruct (other_lists_are_untouched three_lists (CPushFront 3%positive 9%Z)
              (three_lists_then (CPushFront 3%positive 9%Z)) 1%positive
              [1; 2; 3]%Z [on_heap 1; on_heap 2; on_heap 3] 3%Z
              three_lists_reachable Hall eq_refl Hl eq_refl eq_refl eq_refl)
    as (Ht & _ & Hs).
  split; [exact Ht | exact Hs].
Defined.

Lemma default_constructor_makes_empty_list_witness :
  reachable three_lists ∧
  ∃ this m', SingleLinkedList_default 0 three_lists = Ok (this, m') ∧
             GetSize this m' = Ok (0%Z, m') ∧ traversal this m' = Ok ([], m').
Proof.
  split; [exact three_lists_reachable |].
  destruct (default_constructor_makes_empty_list 0 three_lists three_lists_reachable)
    as (this & m' & Hrun & _ & _ & Hs & _ & Ht & _).
  exists this, m'. split; [exact Hrun |]. split; [exact Hs | exact Ht].
Defined.

Lemma initializer_list_constructor_witness :
  reachable three_lists ∧
  ∃ this m', SingleLinkedList_init 0 [7; 8]%Z three_lists = Ok (this, m') ∧
             traversal this m' = Ok ([7; 8]%Z, m') ∧ GetSize this m' = Ok (2%Z, m').
Proof.
  split; [exact three_lists_reachable |].
  destruct (initializer_list_constructor 0 [7; 8]%Z three_lists three_lists_reachable)
    as [Hreturns Hafter].
  destruct Hreturns as (this & m' & Hrun); [by vm_compute |].
  exists this, m'. split; [exact Hrun |].
  destruct (Hafter this m' Hrun) as (_ & Ht & Hs & _).
  split; [exact Ht | exact Hs].
Defined.

Lemma iterator_walk_witness :
  reachable three_lists ∧
  traversal 1%positive three_lists = Ok ([1; 2; 3]%Z, three_lists) ∧
  ∃ b, begin 1%positive three_lists = Ok (b, three_lists) ∧
       advance 3 b three_lists = Ok (end_ 1%positive, three_lists) ∧
       advance 4 b three_lists = Err undefined_behaviour.
Proof.
  split; [exact three_lists_reachable |]. split; [vm_compute; reflexivity |].
  destruct (iterator_walk three_lists 1%positive [1; 2; 3]%Z three_lists_reachable eq_refl)
    as (b & Hb & _ & _ & Hend & Hpast & _).
  exists b. split; [exact Hb |]. split; [exact Hend | exact Hpast].
Defined.

Lemma InsertAfter_at_index_witness :
  reachable three_lists ∧
  advance 1 (Iterator (on_heap 1)) three_lists = Ok (Iterator (on_heap 2), three_lists) ∧
  ∃ it m', InsertAfter 1%positive (Iterator (on_heap 2)) 9%Z three_lists = Ok (it, m') ∧
           traversal 1%positive m' = Ok ([1; 2; 9; 3]%Z, m') ∧
           GetSize 1%positive m' = Ok (4%Z, m').
Proof.
  split; [exact three_lists_reachable |]. split; [vm_compute; reflexivity |].
  destruct (InsertAfter_at_index three_lists 1%positive [1; 2; 3]%Z 3%Z
              [on_heap 1; on_heap 2; on_heap 3] (Iterator (on_heap 1)) 1
              (Iterator (on_heap 2)) 9%Z three_lists_reachable
              eq_refl eq_refl eq_refl eq_refl eq_refl ltac:(simpl; lia))
    as [Hreturns Hafter].
  destruct Hreturns as (it & m' & Hrun); [by vm_compute |].
  exists it, m'. split; [exact Hrun |].
  destruct (Hafter it m' Hrun) as (Ht & Hs & _).
  split; [exact Ht | exact Hs].
Defined.

Lemma EraseAfter_at_index_witness :
  reachable three_lists ∧
  begin 1%positive three_lists = Ok (Iterator (on_heap 1), three_lists) ∧
  ∃ it m', EraseAfter 1%positive (Iterator (on_heap 1)) three_lists = Ok (it, m') ∧
           traversal 1%positive m' = Ok ([1; 3]%Z, m') ∧
           GetSize 1%positive m' = Ok (2%Z, m') ∧
           get_next (on_heap 2) m' = Err undefined_behaviour.
Proof.
  split; [exact three_lists_reachable |]. split; [vm_compute; reflexivity |].
  destruct (EraseAfter_at_index three_lists 1%positive [1; 2; 3]%Z 3%Z
              [on_heap 1; on_heap 2; on_heap 3] (Iterator (on_heap 1)) 0
              (Iterator (on_heap 1)) three_lists_reachable
              eq_refl eq_refl eq_refl eq_refl eq_refl ltac:(simpl; lia))
    as (it & m' & Hrun & Ht & Hs & _ & _ & Hfreed).
  exists it, m'. split; [exact Hrun |]. split; [exact Ht |]. split; [exact Hs |].
  exact (proj1 (Hfreed (on_heap 2) eq_refl)).
Defined.

Lemma nothing_after_the_position_witness :
  reachable three_lists ∧
  traversal 2%positive three_lists = Ok ([], three_lists) ∧
  EraseAfter 2%positive (before_begin 2%positive) three_lists = Err undefined_behaviour ∧
  PopFront 2%positive three_lists = Ok (tt, three_lists).
Proof.
  split; [exact three_lists_reachable |]. split; [vm_compute; reflexivity |].
  destruct (nothing_after_the_position three_lists 2%positive [] three_lists_reachable eq_refl)
    as (Herase & _ & Hpop).
  split; [| exact (Hpop eq_refl)].
  apply Herase. right. left. split; reflexivity.
Defined.

Lemma InsertAfter_then_EraseAfter_witness :
  reachable three_lists ∧
  pre_incr (Iterator (on_heap 2)) three_lists = Ok (Iterator (on_heap 3), three_lists) ∧
  ∃ it m1, InsertAfter 1%positive (Iterator (on_heap 2)) 9%Z three_lists = Ok (it, m1) ∧
           EraseAfter 1%positive (Iterator (on_heap 2)) m1
             = Ok (Iterator (on_heap 3), three_lists).
Proof.
  split; [exact three_lists_reachable |]. split; [vm_compute; reflexivity |].
  destruct (InsertAfter_then_EraseAfter three_lists 1%positive (Iterator (on_heap 2))
              (Iterator (on_heap 3)) 9%Z three_lists_reachable
              (three_lists_alive 1%positive ltac:(left)) eq_refl ltac:(by vm_compute))
    as (it & m1 & Hins & _ & Herase).
  exists it, m1. split; [exact Hins | exact Herase].
Defined.

Lemma PushFront_then_PopFront_witness :
  reachable three_lists ∧
  ∃ m1, PushFront 1%positive 9%Z three_lists = Ok (tt, m1) ∧
        PopFront 1%positive m1 = Ok (tt, three_lists).
Proof.
  split; [exact three_lists_reachable |].
  exact (PushFront_then_PopFront three_lists 1%positive 9%Z three_lists_reachable
           (three_lists_alive 1%positive ltac:(left)) ltac:(by vm_compute)).
Defined.

Lemma swap_is_its_own_inverse_witness :
  ∃ m', swap 1%positive 3%positive three_lists = Ok (tt, m') ∧
        swap 3%positive 1%positive three_lists = Ok (tt, m') ∧
        swap 1%positive 3%positive m' = Ok (tt, three_lists).
Proof.
  destruct (swap_is_its_own_inverse three_lists 1%positive 3%positive
              (three_lists_alive 1%positive ltac:(left))
              (three_lists_alive 3%positive ltac:(right; left)))
    as (m' & H1 & H2 & _ & H3 & _).
  exists m'. split; [exact H1 |]. split; [exact H2 | exact H3].
Defined.

Lemma store_through_iterator_witness :
  reachable three_lists ∧
  advance 1 (Iterator (on_heap 1)) three_lists = Ok (Iterator (on_heap 2), three_lists) ∧
  ∃ m', set_value (on_heap 2) 9%Z three_lists = Ok (tt, m') ∧
        traversal 1%positive m' = Ok ([1; 9; 3]%Z, m') ∧
        GetSize 1%positive m' = Ok (3%Z, m').
Proof.
  split; [exact three_lists_reachable |]. split; [vm_compute; reflexivity |].
  destruct (store_through_iterator three_lists 1%positive [1; 2; 3]%Z 3%Z
              [on_heap 1; on_heap 2; on_heap 3] (Iterator (on_heap 1)) 1
              (Iterator (on_heap 2)) 9%Z three_lists_reachable
              eq_refl eq_refl eq_refl eq_refl eq_refl ltac:(simpl; lia))
    as (m' & Hrun & _ & Ht & Hs & _).
  exists m'. split; [exact Hrun |]. split; [exact Ht | exact Hs].
Defined.

Lemma comparisons_of_an_ordered_type_witness :
  traversal 1%positive three_lists = Ok ([1; 2; 3]%Z, three_lists) ∧
  traversal 3%positive three_lists = Ok ([4; 5]%Z, three_lists) ∧
  operator_gt Z.eqb Z.ltb 1%positive 3%positive three_lists
    = operator_lt Z.ltb 3%positive 1%positive three_lists ∧
  operator_ge Z.ltb 1%positive 3%positive three_lists
    = operator_le Z.eqb Z.ltb 3%positive 1%positive three_lists.
Proof.
  split; [vm_compute; reflexivity |]. split; [vm_compute; reflexivity |].
  destruct (comparisons_of_an_ordered_type Z.eqb Z.ltb three_lists 1%positive 3%positive
              [1; 2; 3]%Z [4; 5]%Z Z_ltb_asymmetric Z_eqb_from_ltb eq_refl eq_refl)
    as (Hgt & Hge & _).
  split; [exact Hgt | exact Hge].
Defined.

Lemma Clear_frees_every_node_witness :
  reachable three_lists ∧
  nodes_reached 1%positive three_lists
    = Ok ([on_heap 1; on_heap 2; on_heap 3], three_lists) ∧
  ∃ m', Clear 1%positive three_lists = Ok (tt, m') ∧
        traversal 1%positive m' = Ok ([], m') ∧
        GetSize 1%positive m' = Ok (0%Z, m') ∧
        ¬ is_Some (heap m' !! 2%positive) ∧ is_Some (heap m' !! 4%positive).
Proof.
  split; [exact three_lists_reachable |]. split; [vm_compute; reflexivity |].
  destruct (Clear_frees_every_node three_lists 1%positive [1; 2; 3]%Z
              [on_heap 1; on_heap 2; on_heap 3] three_lists_reachable eq_refl eq_refl)
    as (m' & Hrun & Ht & Hs & _ & _ & _ & Hheap & _).
  exists m'. split; [exact Hrun |]. split; [exact Ht |]. split; [exact Hs |].
  split.
  - intros [_ Hnot]%Hheap. apply Hnot.
    apply elem_of_cons. right. apply elem_of_cons. left. reflexivity.
  - apply Hheap. split; [eexists; vm_compute; reflexivity |].
    intros Hin.
    repeat (apply elem_of_cons in Hin as [Hin | Hin]; [discriminate Hin |]).
    by apply elem_of_nil in Hin.
Defined.

Lemma destructor_frees_the_list_witness :
  reachable three_lists ∧
  nodes_reached 3%positive three_lists = Ok ([on_heap 4; on_heap 5], three_lists) ∧
  ∃ m', destroy 3%positive three_lists = Ok (tt, m') ∧
        GetSize 3%positive m' = Err undefined_behaviour ∧
        ¬ is_Some (heap m' !! 5%positive) ∧ is_Some (objects m' !! 1%positive).
Proof.
  split; [exact three_lists_reachable |]. split; [vm_compute; reflexivity |].
  destruct (destructor_frees_the_list three_lists 3%positive [4; 5]%Z
              [on_heap 4; on_heap 5] three_lists_reachable eq_refl eq_refl)
    as (m' & Hrun & Hs & _ & Hheap & Hobj).
  exists m'. split; [exact Hrun |]. split; [exact Hs |].
  split.
  - intros [_ Hnot]%Hheap. apply Hnot.
    apply elem_of_cons. right. apply elem_of_cons. left. reflexivity.
  - apply Hobj. split; [apply three_lists_alive; left | done].
Defined.

Lemma every_node_belongs_to_one_list_witness :
  reachable three_lists ∧
  ∀ a, is_Some (heap three_lists !! a) →
    ∃ l ns, nodes_reached l three_lists = Ok (ns, three_lists) ∧ on_heap a ∈ ns.
Proof.
  split; [exact three_lists_reachable |].
  intros a Ha.
  destruct (proj1 (every_node_belongs_to_one_list three_lists three_lists_reachable) a Ha)
    as (l & ns & Hn & Hin & _).
  exists l, ns. split; [exact Hn | exact Hin].
Defined.

Lemma assignment_frees_the_old_nodes_witness :
  reachable three_lists ∧
  nodes_reached 3%positive three_lists = Ok ([on_heap 4; on_heap 5], three_lists) ∧
  assign 0 3%positive 1%positive three_lists
    = Ok (tt, three_lists_then (CAssign 0 3%positive 1%positive)) ∧
  get_next (on_heap 4) (three_lists_then (CAssign 0 3%positive 1%positive))
    = Err undefined_behaviour.
Proof.
  split; [exact three_lists_reachable |]. split; [vm_compute; reflexivity |].
  split; [vm_compute; reflexivity |].
  destruct (assignment_frees_the_old_nodes 0 three_lists 3%positive 1%positive
              [on_heap 4; on_heap 5] (three_lists_then (CAssign 0 3%positive 1%positive))
              three_lists_reachable (three_lists_alive 1%positive ltac:(left))
              ltac:(done) eq_refl eq_refl)
    as [Hfreed _].
  apply Hfreed. left.
Defined.
